(** * StarRuptureOptimizer: demand resolution and the two partitioners

    A shallow embedding of [src/utils/calculations.ts], [src/utils/optimizer.ts]
    and [src/utils/geneticOptimizer.ts], of the target handlers of [src/App.tsx]
    and of the flow aggregation of [src/components/ClusterDiagram.tsx], with
    the properties of them that the specification states and further
    properties read off the code.

    Conventions of the embedding.
    - A JavaScript [number] holding a rate, a weight or a coordinate is an
      exact rational ([Qc]); [Infinity] is the [None] of an [option Qc].
      Rounding, NaN and overflow of IEEE doubles are outside the model.
      [Qc] division is total ([x / 0 = 0]) where JavaScript yields an
      infinity or NaN.
    - A count (cluster count, population size, generations, attempts) is a
      [nat]; a cluster id is a [Z]; [undefined] is [None].
    - A JavaScript [Map] is an association list in insertion order
      ([JSMap]): [set] on a present key keeps its position.
    - The recursion of [traverse] has no bound in the source; the embedding
      gives it fuel and answers [None] when the fuel runs out.
    - State is passed explicitly: [traverse] threads an [Env] holding the
      two arguments of [calculateRequirements] and its local maps, and the
      optimizers report in a [Run] what they leave of their arguments.
    - A promise settles as an [Outcome]; a thrown error rejects it.
    - [Math.random()] is a draw from a [RandomSource], a sequence of
      rationals in [0, 1) read through a counter; the random sort that
      shuffles the items is a [Shuffler]. The ticks of d3-force are an
      [Embedding]; the error its link force throws for a link that names
      no node is part of [simulate]. *)

From Stdlib Require Import List String Ascii Bool Arith ZArith Lia.
From Stdlib Require Import QArith Qcanon Qround.
From Stdlib Require Import Permutation ListDec Relations.
From Stdlib Require DecimalString.
Import ListNotations.

Local Close Scope Qc_scope.
Local Close Scope Q_scope.
Local Open Scope string_scope.
Local Open Scope list_scope.

(** ** JavaScript [Map] with string keys *)

Module JSMap.

Definition t (V : Type) : Type := list (string * V).

Section Ops.
Context {V : Type}.

Definition empty : t V := [].

Fixpoint get (m : t V) (k : string) : option V :=
match m with
| [] => None
| (k', v) :: m' => if String.eqb k' k then Some v else get m' k
end.

Fixpoint set (m : t V) (k : string) (v : V) : t V :=
match m with
| [] => [(k, v)]
| (k', v') :: m' =>
    if String.eqb k' k then (k', v) :: m' else (k', v') :: set m' k v
end.

Definition has (m : t V) (k : string) : bool :=
match get m k with Some _ => true | None => false end.

Definition keys (m : t V) : list string := map fst m.
Definition values (m : t V) : list V := map snd m.

(** [new Map(entries)]: later entries overwrite earlier ones. *)
Definition of_entries (es : list (string * V)) : t V :=
fold_left (fun m e => set m (fst e) (snd e)) es empty.

End Ops.

End JSMap.

(** ** Data model ([src/types.ts], [calculations.ts]) *)

Record ItemRate := mkItemRate {
  ir_id : string;
  amount_per_minute : Qc
}.

Record Recipe := mkRecipe {
  output : ItemRate;
  inputs : list ItemRate
}.

Inductive BuildingType : Type :=
| production | generator | transport | habitat | temperature | defense.

Record Building := mkBuilding {
  b_id : string;
  b_name : string;
  b_type : BuildingType;
  power : option Qc;
  heat : option Qc;
  recipes : option (list Recipe)
}.

Definition Buildings := list Building.

Record Target := mkTarget {
  t_id : string;
  t_amount : Qc
}.

Record SankeyNode := mkSankeyNode {
  sn_name : string;
  sn_category : string;
  sn_machineName : string;
  sn_outputPerMachine : option Qc;
  sn_requiredAmount : option Qc
}.

Record SankeyLink := mkSankeyLink {
  sl_source : string;
  sl_target : string;
  sl_value : Qc
}.

Record SankeyData := mkSankeyData {
  sd_nodes : list SankeyNode;
  sd_links : list SankeyLink
}.

(** ** [calculateRequirements] *)

Record FoundRecipe := mkFound {
  recipe : Recipe;
  buildingId : string;
  buildingName : string
}.

Fixpoint findInRecipes (rs : list Recipe) (itemId : string) : option Recipe :=
  match rs with
  | [] => None
  | r :: rs' =>
      if String.eqb (ir_id (output r)) itemId then Some r
      else findInRecipes rs' itemId
  end.

Fixpoint findRecipe (buildings : Buildings) (itemId : string)
  : option FoundRecipe :=
  match buildings with
  | [] => None
  | building :: rest =>
      match recipes building with
      | Some rs =>
          match findInRecipes rs itemId with
          | Some r => Some (mkFound r (b_id building) (b_name building))
          | None => findRecipe rest itemId
          end
      | None => findRecipe rest itemId
      end
  end.

(** The variables the closure [traverse] can reach: the two arguments of
    [calculateRequirements] and its local maps. *)
Record Env := mkEnv {
  env_buildings : Buildings;
  env_targets : list Target;
  env_nodes : JSMap.t SankeyNode;
  env_linksMap : JSMap.t Qc
}.

Definition with_nodes (e : Env) (ns : JSMap.t SankeyNode) : Env :=
  mkEnv (env_buildings e) (env_targets e) ns (env_linksMap e).

Definition with_linksMap (e : Env) (lm : JSMap.t Qc) : Env :=
  mkEnv (env_buildings e) (env_targets e) (env_nodes e) lm.

(** [xs.forEach(f)] for a callback that may run out of fuel. *)
Fixpoint forEachM {A S : Type} (f : A -> S -> option S) (xs : list A) (s : S)
  : option S :=
  match xs with
  | [] => Some s
  | x :: xs' =>
      match f x s with
      | Some s' => forEachM f xs' s'
      | None => None
      end
  end.

(** [v || 0] on the result of [Map.get]. *)
Definition orZero (o : option Qc) : Qc :=
  match o with
  | Some v => if Qc_eq_dec v 0 then 0%Qc else v
  | None => 0%Qc
  end.

Definition linkKey (inputId itemId : string) : string :=
  inputId ++ "|" ++ itemId.

Definition newNode (itemId : string) (result : option FoundRecipe) : SankeyNode :=
  mkSankeyNode itemId
    (match result with Some r => buildingId r | None => "raw" end)
    (match result with Some r => buildingName r | None => "Source" end)
    (match result with
     | Some r => Some (amount_per_minute (output (recipe r)))
     | None => None
     end)
    (Some 0%Qc).

Definition accumulate (node : SankeyNode) (amount : Qc) : SankeyNode :=
  match sn_requiredAmount node with
  | Some r =>
      mkSankeyNode (sn_name node) (sn_category node) (sn_machineName node)
        (sn_outputPerMachine node) (Some (r + amount)%Qc)
  | None => node
  end.

Definition visit (itemId : string) (amount : Qc) (e : Env) : Env :=
  let result := findRecipe (env_buildings e) itemId in
  let node :=
    match JSMap.get (env_nodes e) itemId with
    | Some n => n
    | None => newNode itemId result
    end in
  with_nodes e (JSMap.set (env_nodes e) itemId (accumulate node amount)).

Definition addLink (itemId : string) (input : ItemRate) (inputAmount : Qc)
  (e : Env) : Env :=
  let key := linkKey (ir_id input) itemId in
  with_linksMap e
    (JSMap.set (env_linksMap e) key
       (orZero (JSMap.get (env_linksMap e) key) + inputAmount)%Qc).

Fixpoint traverse (fuel : nat) (itemId : string) (amount : Qc) (e : Env)
  : option Env :=
  match fuel with
  | O => None
  | S fuel' =>
      let e1 := visit itemId amount e in
      match findRecipe (env_buildings e) itemId with
      | None => Some e1
      | Some result =>
          let ratio := (amount / amount_per_minute (output (recipe result)))%Qc in
          forEachM
            (fun input e' =>
               let inputAmount := (amount_per_minute input * ratio)%Qc in
               traverse fuel' (ir_id input) inputAmount
                 (addLink itemId input inputAmount e'))
            (inputs (recipe result)) e1
      end
  end.

(** [key.split('|')] *)
Definition pipe : ascii := "|"%char.

Fixpoint split_pipe (s : string) : list string :=
  match s with
  | EmptyString => [EmptyString]
  | String c rest =>
      if Ascii.eqb c pipe then EmptyString :: split_pipe rest
      else
        match split_pipe rest with
        | [] => [String c EmptyString]
        | h :: tl => String c h :: tl
        end
  end.

(** [const [source, target] = key.split('|')]; a missing component is
    [undefined] in the source, which no key built by [linkKey] produces
    (see [split_pipe_linkKey_length]). *)
Definition decodeLink (entry : string * Qc) : SankeyLink :=
  let parts := split_pipe (fst entry) in
  mkSankeyLink (nth 0 parts "") (nth 1 parts "") (snd entry).

Definition initEnv (buildings : Buildings) (targets : list Target) : Env :=
  mkEnv buildings targets JSMap.empty JSMap.empty.

Definition resolveTargets (fuel : nat) (e : Env) : option Env :=
  forEachM (fun t e' => traverse fuel (t_id t) (t_amount t) e')
    (env_targets e) e.

Definition dataOf (e : Env) : SankeyData :=
  mkSankeyData (JSMap.values (env_nodes e)) (map decodeLink (env_linksMap e)).

Definition calculateRequirements (fuel : nat) (buildings : Buildings)
  (targets : list Target) : option SankeyData :=
  option_map dataOf (resolveTargets fuel (initEnv buildings targets)).

(** ** Shared types of the two optimizers ([src/types.ts]) *)

(** The coordinates are the only fields of d3's simulation that the
    optimizers read; its velocity and index fields are left out. *)
Record MachineNode := mkMachineNode {
  mn_id : string;
  mn_name : string;
  mn_x : option Qc;
  mn_y : option Qc;
  mn_buildingId : string;
  mn_recipeOutputId : string;
  mn_clusterId : option Z;
  mn_requiredAmount : option Qc;
  mn_outputPerMachine : option Qc;
  mn_machineName : string;
  mn_category : string
}.

Record MachineLink := mkMachineLink {
  ml_source : string;
  ml_target : string;
  ml_value : Qc
}.

Record Stats := mkStats { totalCrossFlow : Qc }.

Record OptimizerResult := mkResult {
  or_nodes : list MachineNode;
  or_links : list MachineLink;
  or_clusters : list (Z * list MachineNode);
  or_stats : Stats
}.

(** How a promise settles; also the result of any step that may throw. *)
Inductive Outcome (A : Type) : Type :=
| Resolved (a : A)
| Rejected (error : string).

Arguments Resolved {A} a.
Arguments Rejected {A} error.

Definition bindO {A B : Type} (o : Outcome A) (f : A -> Outcome B) : Outcome B :=
  match o with
  | Resolved a => f a
  | Rejected e => Rejected e
  end.

Notation "x <- c ;; k" := (bindO c (fun x => k))
  (at level 61, c at next level, right associativity).

Fixpoint forEachO {A S : Type} (f : A -> S -> Outcome S) (xs : list A) (s : S)
  : Outcome S :=
  match xs with
  | [] => Resolved s
  | x :: xs' => s' <- f x s ;; forEachO f xs' s'
  end.

(** What a call leaves behind: its two array arguments as they are when it
    settles, and how its promise settled. *)
Record Run (A : Type) := mkRun {
  run_buildings : Buildings;
  run_targets : list Target;
  run_outcome : Outcome A
}.

Arguments mkRun {A} _ _ _.
Arguments run_buildings {A} _.
Arguments run_targets {A} _.
Arguments run_outcome {A} _.

Definition toMachineNode (n : SankeyNode) : MachineNode :=
  mkMachineNode (sn_name n) (sn_name n) None None (sn_category n) (sn_name n)
    None (sn_requiredAmount n) (sn_outputPerMachine n) (sn_machineName n)
    (sn_category n).

Definition toMachineLink (l : SankeyLink) : MachineLink :=
  mkMachineLink (sl_source l) (sl_target l) (sl_value l).

Definition setClusterId (n : MachineNode) (c : option Z) : MachineNode :=
  mkMachineNode (mn_id n) (mn_name n) (mn_x n) (mn_y n) (mn_buildingId n)
    (mn_recipeOutputId n) c (mn_requiredAmount n) (mn_outputPerMachine n)
    (mn_machineName n) (mn_category n).

Definition setPosition (n : MachineNode) (p : Qc * Qc) : MachineNode :=
  mkMachineNode (mn_id n) (mn_name n) (Some (fst p)) (Some (snd p))
    (mn_buildingId n) (mn_recipeOutputId n) (mn_clusterId n)
    (mn_requiredAmount n) (mn_outputPerMachine n) (mn_machineName n)
    (mn_category n).

(** [xs.map((x, i) => f(x, i))] *)
Fixpoint mapiFrom {A B : Type} (i : nat) (f : A -> nat -> B) (xs : list A)
  : list B :=
  match xs with
  | [] => []
  | x :: xs' => f x i :: mapiFrom (S i) f xs'
  end.

Definition mapi {A B : Type} (f : A -> nat -> B) (xs : list A) : list B :=
  mapiFrom 0 f xs.

(** Comparisons of numbers, [Infinity] being [None]. *)
Definition Qcltb (a b : Qc) : bool :=
  match (this a ?= this b)%Q with Lt => true | _ => false end.

Definition ltInf (a : Qc) (m : option Qc) : bool :=
  match m with
  | None => true
  | Some b => Qcltb a b
  end.

Definition ltExt (a b : option Qc) : bool :=
  match a with
  | None => false
  | Some x => ltInf x b
  end.

(** [a !== b] on cluster ids that may be [undefined]. *)
Definition sameCluster (a b : option Z) : bool :=
  match a, b with
  | Some x, Some y => Z.eqb x y
  | None, None => true
  | _, _ => false
  end.

Definition ofZ (z : Z) : Qc := Q2Qc (inject_Z z).

Definition ofNat (n : nat) : Qc := ofZ (Z.of_nat n).

(** Grouping of the nodes by cluster id, a [Map<number, MachineNode[]>]. *)
Fixpoint pushCluster (c : Z) (n : MachineNode) (m : list (Z * list MachineNode))
  : list (Z * list MachineNode) :=
  match m with
  | [] => [(c, [n])]
  | (c', ns) :: m' =>
      if Z.eqb c' c then (c', ns ++ [n]) :: m'
      else (c', ns) :: pushCluster c n m'
  end.

Definition groupClusters (nodes : list MachineNode) : list (Z * list MachineNode) :=
  fold_left
    (fun m n =>
       match mn_clusterId n with
       | Some c => pushCluster c n m
       | None => m
       end)
    nodes [].

(** The transport loop over the links, for a lookup of cluster ids by
    node id that answers [None] for [undefined]. *)
Definition crossFlowBy (lookup : string -> option Z) (links : list MachineLink)
  : Qc :=
  fold_left
    (fun acc l =>
       match lookup (ml_source l), lookup (ml_target l) with
       | Some sC, Some tC => if Z.eqb sC tC then acc else (acc + ml_value l)%Qc
       | _, _ => acc
       end)
    links 0%Qc.

(** ** [optimizeLayout]: k-means over the force-directed embedding *)

Record SimLink := mkSimLink {
  sim_source : string;
  sim_target : string;
  sim_value : Qc;
  sim_type : option string
}.

(** d3-force is not part of the repository. Once the link force has found
    the two nodes of every link (see [simulate] for the case that it does
    not), the 300 ticks of the simulation are a function from the nodes and
    simulation links to the position of the node at each index. *)
Definition Embedding : Type := list MachineNode -> list SimLink -> nat -> Qc * Qc.

(** [[...items].sort(() => 0.5 - Math.random())] rearranges the items in a
    way the engine's sort decides: some permutation, one per pass. *)
Record Shuffler := mkShuffler {
  shuffle : nat -> list MachineNode -> list MachineNode;
  shuffle_perm : forall pass l, Permutation (shuffle pass l) l
}.

Record Point := mkPoint { p_x : Qc; p_y : Qc }.

Record ClusterSum := mkClusterSum { cs_x : Qc; cs_y : Qc; cs_count : nat }.

(** [n.x!]: the simulation has given every node its coordinates. *)
Definition coord (o : option Qc) : Qc :=
  match o with Some v => v | None => 0%Qc end.

Definition hasNodeId (nodes : list MachineNode) (a : string) : bool :=
  existsb (fun n => String.eqb (mn_id n) a) nodes.

Definition simLinksOf (nodes : list MachineNode) (links : list MachineLink)
  (constraints : list (string * string)) : list SimLink :=
  fold_left
    (fun acc ab =>
       if hasNodeId nodes (fst ab) && hasNodeId nodes (snd ab)
       then acc ++ [mkSimLink (fst ab) (snd ab) (ofZ 1000) (Some "constraint")]
       else acc)
    constraints
    (map (fun l => mkSimLink (ml_source l) (ml_target l) (ml_value l) None) links).

(** [forceLink(simLinks).id(d => d.id)]: when the link force is added to
    the simulation, d3 replaces the source and the target of every link, in
    link order and source first, by the node with that id, and throws for
    the first id that no node has. *)
Fixpoint missingNode (nodes : list MachineNode) (simLinks : list SimLink)
  : option string :=
  match simLinks with
  | [] => None
  | l :: rest =>
      if negb (hasNodeId nodes (sim_source l)) then Some (sim_source l)
      else if negb (hasNodeId nodes (sim_target l)) then Some (sim_target l)
      else missingNode nodes rest
  end.

(** The nodes after the 300 ticks. *)
Definition settle (embed : Embedding) (nodes : list MachineNode)
  (simLinks : list SimLink) : list MachineNode :=
  mapi (fun n i => setPosition n (embed nodes simLinks i)) nodes.

(** Setting up the simulation and running it: the error of the link force,
    [Error("node not found: " + id)], is thrown inside the executor of the
    promise and rejects it. *)
Definition simulate (embed : Embedding) (nodes : list MachineNode)
  (simLinks : list SimLink) : Outcome (list MachineNode) :=
  match missingNode nodes simLinks with
  | Some id => Rejected ("node not found: " ++ id)
  | None => Resolved (settle embed nodes simLinks)
  end.

Definition sqDist (node : MachineNode) (c : Point) : Qc :=
  let dx := (coord (mn_x node) - p_x c)%Qc in
  let dy := (coord (mn_y node) - p_y c)%Qc in
  (dx * dx + dy * dy)%Qc.

(** The inner [centroids.forEach]: [closest] starts at -1 and [minDist] at
    [Infinity]; a centroid wins only when strictly closer. *)
Fixpoint nearestFrom (idx : Z) (centroids : list Point) (node : MachineNode)
  (closest : Z) (minDist : option Qc) : Z :=
  match centroids with
  | [] => closest
  | c :: rest =>
      let d := sqDist node c in
      if ltInf d minDist
      then nearestFrom (idx + 1) rest node idx (Some d)
      else nearestFrom (idx + 1) rest node closest minDist
  end.

Definition nearest (centroids : list Point) (node : MachineNode) : Z :=
  nearestFrom 0 centroids node (-1) None.

Fixpoint updateAt {A : Type} (i : nat) (f : A -> A) (l : list A)
  : option (list A) :=
  match l, i with
  | [], _ => None
  | a :: l', O => Some (f a :: l')
  | a :: l', S i' => option_map (cons a) (updateAt i' f l')
  end.

(** [clusterSums[closest].x += ...]: reading a field of [undefined] throws. *)
Definition addToSum (sums : list ClusterSum) (closest : Z) (node : MachineNode)
  : option (list ClusterSum) :=
  if (closest <? 0)%Z then None
  else
    updateAt (Z.to_nat closest)
      (fun s =>
         mkClusterSum (cs_x s + coord (mn_x node))%Qc
           (cs_y s + coord (mn_y node))%Qc (S (cs_count s)))
      sums.

Record RoundState := mkRoundState {
  rs_newClusters : JSMap.t Z;
  rs_clusterSums : list ClusterSum;
  rs_hasChanged : bool
}.

Definition assignNode (centroids : list Point) (clusterAssignment : JSMap.t Z)
  (node : MachineNode) (st : RoundState) : Outcome RoundState :=
  let closest := nearest centroids node in
  let newClusters := JSMap.set (rs_newClusters st) (mn_id node) closest in
  match addToSum (rs_clusterSums st) closest node with
  | None => Rejected "TypeError"
  | Some sums =>
      Resolved
        (mkRoundState newClusters sums
           (if sameCluster (Some closest) (JSMap.get clusterAssignment (mn_id node))
            then rs_hasChanged st else true))
  end.

Definition newCentroid (c : ClusterSum) : Point :=
  if (0 <? cs_count c)%nat
  then mkPoint (cs_x c / ofNat (cs_count c))%Qc (cs_y c / ofNat (cs_count c))%Qc
  else mkPoint 0%Qc 0%Qc.

Record Round := mkRound {
  r_assignment : JSMap.t Z;
  r_centroids : list Point;
  r_hasChanged : bool
}.

(** One pass through the body of the [while] loop. *)
Definition kmeansRound (items : list MachineNode) (k : nat)
  (centroids : list Point) (clusterAssignment : JSMap.t Z) : Outcome Round :=
  st <- forEachO (assignNode centroids clusterAssignment) items
          (mkRoundState JSMap.empty (repeat (mkClusterSum 0%Qc 0%Qc 0) k) false) ;;
  Resolved
    (mkRound (rs_newClusters st) (map newCentroid (rs_clusterSums st))
       (rs_hasChanged st)).

(** [while (hasChanged && iterations < 50)], [rounds] being what is left of
    the 50. *)
Fixpoint kmeansLoop (rounds : nat) (items : list MachineNode) (k : nat)
  (centroids : list Point) (clusterAssignment : JSMap.t Z)
  : Outcome (JSMap.t Z) :=
  match rounds with
  | O => Resolved clusterAssignment
  | S rounds' =>
      r <- kmeansRound items k centroids clusterAssignment ;;
      if r_hasChanged r
      then kmeansLoop rounds' items k (r_centroids r) (r_assignment r)
      else Resolved (r_assignment r)
  end.

Definition splitPenalty (clusterAssignment : JSMap.t Z)
  (splitConstraints : list (string * string)) : Qc :=
  fold_left
    (fun acc ab =>
       match JSMap.get clusterAssignment (fst ab),
             JSMap.get clusterAssignment (snd ab) with
       | Some cA, Some cB => if Z.eqb cA cB then (acc + ofZ 10000)%Qc else acc
       | _, _ => acc
       end)
    splitConstraints 0%Qc.

Definition scoreOf (links : list MachineLink)
  (splitConstraints : list (string * string)) (clusterAssignment : JSMap.t Z)
  : Qc :=
  (crossFlowBy (JSMap.get clusterAssignment) links
   + splitPenalty clusterAssignment splitConstraints)%Qc.

Record Best := mkBest {
  bestNodeClusterMap : JSMap.t Z;
  bestScore : option Qc
}.

Definition kmeansPass (sh : Shuffler) (items : list MachineNode) (k : nat)
  (links : list MachineLink) (splitConstraints : list (string * string))
  (pass : nat) (best : Best) : Outcome Best :=
  let shuffled := shuffle sh pass items in
  let centroids :=
    map (fun n => mkPoint (coord (mn_x n)) (coord (mn_y n))) (firstn k shuffled) in
  clusterAssignment <- kmeansLoop 50 items k centroids JSMap.empty ;;
  let currentScore := scoreOf links splitConstraints clusterAssignment in
  Resolved
    (if ltInf currentScore (bestScore best)
     then mkBest clusterAssignment (Some currentScore)
     else best).

(** [for (let pass = 0; pass < attempts; pass++)], [left] passes to go. *)
Fixpoint kmeansPasses (sh : Shuffler) (items : list MachineNode) (k : nat)
  (links : list MachineLink) (splitConstraints : list (string * string))
  (left pass : nat) (best : Best) : Outcome Best :=
  match left with
  | O => Resolved best
  | S left' =>
      best' <- kmeansPass sh items k links splitConstraints pass best ;;
      kmeansPasses sh items k links splitConstraints left' (S pass) best'
  end.

Definition applyBest (best : JSMap.t Z) (n : MachineNode) : MachineNode :=
  setClusterId n
    (Some (match JSMap.get best (mn_id n) with Some c => c | None => 0%Z end)).

Definition isItem (n : MachineNode) : bool :=
  negb (String.eqb (mn_category n) "sink").

Definition clusterNodes (sh : Shuffler) (nodes : list MachineNode)
  (links : list MachineLink) (numClusters : nat)
  (splitConstraints : list (string * string)) (attempts : nat)
  : Outcome (list MachineNode) :=
  let items := filter isItem nodes in
  match items with
  | [] => Resolved nodes
  | _ :: _ =>
      let k := Nat.min numClusters (List.length items) in
      best <- kmeansPasses sh items k links splitConstraints attempts 0
                (mkBest JSMap.empty None) ;;
      Resolved (map (applyBest (bestNodeClusterMap best)) nodes)
  end.

(** [nodeClusterMap.get(id)]: [undefined] when the id is absent and when
    the node's cluster id is. *)
Definition nodeClusterLookup (nodes : list MachineNode) (id : string) : option Z :=
  match JSMap.get (JSMap.of_entries (map (fun n => (mn_id n, mn_clusterId n)) nodes)) id with
  | Some c => c
  | None => None
  end.

Definition assemble (nodes : list MachineNode) (links : list MachineLink)
  : OptimizerResult :=
  mkResult nodes links (groupClusters nodes)
    (mkStats (crossFlowBy (nodeClusterLookup nodes) links)).

Definition optimizeLayout (fuel : nat) (embed : Embedding) (sh : Shuffler)
  (buildings : Buildings) (targets : list Target) (numClusters : nat)
  (splitConstraints constraints : list (string * string)) (attempts : nat)
  : option (Run OptimizerResult) :=
  match resolveTargets fuel (initEnv buildings targets) with
  | None => None
  | Some e =>
      let data := dataOf e in
      let nodes := map toMachineNode (sd_nodes data) in
      let links := map toMachineLink (sd_links data) in
      let simLinks := simLinksOf nodes links constraints in
      Some
        (mkRun (env_buildings e) (env_targets e)
           (nodes <- simulate embed nodes simLinks ;;
            nodes' <- clusterNodes sh nodes links numClusters splitConstraints
                        attempts ;;
            Resolved (assemble nodes' links)))
  end.

(** ** [GeneticOptimizer] and [runGeneticOptimization] *)

Record Weights := mkWeights {
  w_constraints : Qc;
  w_split : Qc;
  w_balance : Qc;
  w_transport : Qc
}.

Record GAParams := mkGAParams {
  populationSize : nat;
  generations : nat;
  mutationRate : Qc;
  numClusters : nat;
  weights : Weights;
  constraints : list (string * string);
  splitConstraints : list (string * string);
  minClusterSize : Qc;
  maxClusterSize : Qc
}.

(** [Math.random()]: the [i]-th draw of a run, each in [0, 1). *)
Record RandomSource := mkRandomSource {
  draw : nat -> Qc;
  draw_range : forall i, (0 <= draw i)%Qc /\ (draw i < 1)%Qc
}.

(** A gene is a cluster id; reading past the end of a parent in [crossover]
    leaves [undefined] in its place. *)
Definition Gene : Type := option Z.
Definition Individual : Type := list Gene.

(** [individual[i]] *)
Definition geneAt (individual : Individual) (i : nat) : Gene :=
  match nth_error individual i with
  | Some g => g
  | None => None
  end.

Record Scored := mkScored {
  ind : Individual;
  fitness : Qc
}.

Record BestResult := mkBestResult {
  br_individual : option Individual;
  br_fitness : option Qc
}.

(** [nodes.findIndex(n => n.name === item)], [None] being -1. *)
Fixpoint findIndexFrom (i : nat) (nodes : list MachineNode) (item : string)
  : option nat :=
  match nodes with
  | [] => None
  | n :: rest =>
      if String.eqb (mn_name n) item then Some i
      else findIndexFrom (S i) rest item
  end.

Definition findIndex (nodes : list MachineNode) (item : string) : option nat :=
  findIndexFrom 0 nodes item.

Definition nodeIndexMap (nodes : list MachineNode) : JSMap.t nat :=
  JSMap.of_entries (mapi (fun n i => (mn_id n, i)) nodes).

(** [clusterCounts[c]++] on an array of counts. A cell that the source
    leaves as a hole or as NaN is [None]: neither is [> 0] nor [=== 0].
    An index beyond the end grows the array. *)
Fixpoint incrAt (i : nat) (counts : list (option nat)) : list (option nat) :=
  match counts, i with
  | [], O => [None]
  | [], S i' => None :: incrAt i' []
  | c :: rest, O => option_map S c :: rest
  | c :: rest, S i' => c :: incrAt i' rest
  end.

Definition countGene (counts : list (option nat)) (g : Gene) : list (option nat) :=
  match g with
  | Some c => if (c <? 0)%Z then counts else incrAt (Z.to_nat c) counts
  | None => counts
  end.

(** Floor of a rational. *)
Definition floorQc (q : Qc) : Z := Qfloor (this q).

(** [Math.floor(Math.random() * n)] with the draw at counter [c]. *)
Definition randomBelow (rnd : RandomSource) (c : nat) (n : nat) : Z :=
  floorQc (draw rnd c * ofNat n)%Qc.

Module GeneticOptimizer.

Section Instance.

(** The fields of an instance that never change after construction. *)
Variable nodes : list MachineNode.
Variable links : list MachineLink.
Variable params : GAParams.
Variable rnd : RandomSource.

(** One individual of [initialize], drawing from counter [c] on. *)
Fixpoint randomIndividual (ns : list MachineNode) (c : nat) : Individual * nat :=
  match ns with
  | [] => ([], c)
  | _ :: rest =>
      let g := randomBelow rnd c (numClusters params) in
      let (tl, c') := randomIndividual rest (S c) in
      (Some g :: tl, c')
  end.

Fixpoint initializeFrom (left : nat) (c : nat) : list Individual * nat :=
  match left with
  | O => ([], c)
  | S left' =>
      let (individual, c1) := randomIndividual nodes c in
      let (rest, c2) := initializeFrom left' c1 in
      (individual :: rest, c2)
  end.

Definition initialize (c : nat) : list Individual * nat :=
  initializeFrom (populationSize params) c.

Definition transportCost (individual : Individual) : Qc :=
  let nodeIndex := nodeIndexMap nodes in
  fold_left
    (fun score link =>
       match JSMap.get nodeIndex (ml_source link),
             JSMap.get nodeIndex (ml_target link) with
       | Some sIdx, Some tIdx =>
           if sameCluster (geneAt individual sIdx) (geneAt individual tIdx)
           then score
           else (score + ml_value link * w_transport (weights params))%Qc
       | _, _ => score
       end)
    links 0%Qc.

Definition coLocationCost (individual : Individual) : Qc :=
  fold_left
    (fun score ab =>
       match findIndex nodes (fst ab), findIndex nodes (snd ab) with
       | Some idxA, Some idxB =>
           if sameCluster (geneAt individual idxA) (geneAt individual idxB)
           then score
           else (score + w_constraints (weights params))%Qc
       | _, _ => score
       end)
    (constraints params) 0%Qc.

Definition splitCost (individual : Individual) : Qc :=
  fold_left
    (fun score ab =>
       match findIndex nodes (fst ab), findIndex nodes (snd ab) with
       | Some idxA, Some idxB =>
           if sameCluster (geneAt individual idxA) (geneAt individual idxB)
           then (score + w_split (weights params))%Qc
           else score
       | _, _ => score
       end)
    (splitConstraints params) 0%Qc.

Definition clusterCountsOf (individual : Individual) : list (option nat) :=
  fold_left countGene individual (repeat (Some 0) (numClusters params)).

Definition sizeCost (count : option nat) : Qc :=
  match count with
  | Some n =>
      if (0 <? n)%nat then
        ((if Qcltb (ofNat n) (minClusterSize params)
          then (minClusterSize params - ofNat n) * w_balance (weights params)
          else 0)
         + (if Qcltb (maxClusterSize params) (ofNat n)
            then (ofNat n - maxClusterSize params) * w_balance (weights params)
            else 0))%Qc
      else 0%Qc
  | None => 0%Qc
  end.

Definition isEmptyCluster (count : option nat) : bool :=
  match count with
  | Some O => true
  | _ => false
  end.

Definition balanceCost (individual : Individual) : Qc :=
  let clusterCounts := clusterCountsOf individual in
  (fold_left (fun score count => (score + sizeCost count)%Qc) clusterCounts 0
   + ofNat (List.length (filter isEmptyCluster clusterCounts)) * ofZ 500)%Qc.

Definition calculateFitness (individual : Individual) : Qc :=
  (transportCost individual + coLocationCost individual
   + splitCost individual + balanceCost individual)%Qc.

(** [Array.prototype.sort] with the comparator [a.fitness - b.fitness]:
    the stable ascending sort. *)
Fixpoint insertScored (x : Scored) (sorted : list Scored) : list Scored :=
  match sorted with
  | [] => [x]
  | y :: rest =>
      if Qcltb (fitness y) (fitness x) then y :: insertScored x rest
      else x :: y :: rest
  end.

Definition sortByFitness (pop : list Scored) : list Scored :=
  fold_right insertScored [] pop.

(** [sortedPop[Math.floor(Math.random() * sortedPop.length)]] *)
Definition pick (sortedPop : list Scored) (c : nat) : option Scored :=
  let i := randomBelow rnd c (List.length sortedPop) in
  if (i <? 0)%Z then None else nth_error sortedPop (Z.to_nat i).

(** The three rounds of the tournament; reading [fitness] of [undefined]
    throws. *)
Fixpoint tournamentRounds (left : nat) (sortedPop : list Scored)
  (best : option Scored) (c : nat) : Outcome (Individual * nat) :=
  match left with
  | O =>
      match best with
      | Some b => Resolved (ind b, c)
      | None => Rejected "TypeError"
      end
  | S left' =>
      match pick sortedPop c, best with
      | Some candidate, Some b =>
          tournamentRounds left' sortedPop
            (Some (if Qcltb (fitness candidate) (fitness b) then candidate else b))
            (S c)
      | _, _ => Rejected "TypeError"
      end
  end.

Definition tournamentSelect (sortedPop : list Scored) (c : nat)
  : Outcome (Individual * nat) :=
  tournamentRounds 3 sortedPop (pick sortedPop c) (S c).

Definition half : Qc := Q2Qc (1 # 2).

Fixpoint crossoverFrom (i : nat) (parentA parentB : Individual) (c : nat)
  : Individual * nat :=
  match parentA with
  | [] => ([], c)
  | gene :: rest =>
      let g := if Qcltb (draw rnd c) half then gene else geneAt parentB i in
      let (tl, c') := crossoverFrom (S i) rest parentB (S c) in
      (g :: tl, c')
  end.

Definition crossover (parentA parentB : Individual) (c : nat) : Individual * nat :=
  crossoverFrom 0 parentA parentB c.

Fixpoint mutate (individual : Individual) (c : nat) : Individual * nat :=
  match individual with
  | [] => ([], c)
  | gene :: rest =>
      if Qcltb (draw rnd c) (mutationRate params)
      then
        let g := randomBelow rnd (S c) (numClusters params) in
        let (tl, c') := mutate rest (S (S c)) in
        (Some g :: tl, c')
      else
        let (tl, c') := mutate rest (S c) in
        (gene :: tl, c')
  end.

(** [while (newPopulation.length < populationSize)], [left] children to go. *)
Fixpoint breed (left : nat) (sortedPop : list Scored)
  (newPopulation : list Individual) (c : nat) : Outcome (list Individual * nat) :=
  match left with
  | O => Resolved (newPopulation, c)
  | S left' =>
      a <- tournamentSelect sortedPop c ;;
      b <- tournamentSelect sortedPop (snd a) ;;
      let (child, c1) := crossover (fst a) (fst b) (snd b) in
      let (child', c2) := mutate child c1 in
      breed left' sortedPop (newPopulation ++ [child']) c2
  end.

Definition eliteCount : nat := Nat.max 2 (populationSize params / 10).

Definition evolve (population : list Individual) (c : nat)
  : Outcome (list Individual * nat) :=
  let sortedPop :=
    sortByFitness (map (fun i => mkScored i (calculateFitness i)) population) in
  let newPopulation := map ind (firstn eliteCount sortedPop) in
  breed (populationSize params - List.length newPopulation) sortedPop
    newPopulation c.

Fixpoint evolveTimes (left : nat) (population : list Individual) (c : nat)
  : Outcome (list Individual * nat) :=
  match left with
  | O => Resolved (population, c)
  | S left' =>
      pc <- evolve population c ;;
      evolveTimes left' (fst pc) (snd pc)
  end.

Definition getBestResult (population : list Individual) : BestResult :=
  fold_left
    (fun best individual =>
       let fit := calculateFitness individual in
       if ltInf fit (br_fitness best)
       then mkBestResult (Some individual) (Some fit)
       else best)
    population
    (mkBestResult (nth_error population 0) None).

(** One turn of the attempt loop of [runGeneticOptimization]. *)
Definition attempt (bestResult : option BestResult) (c : nat)
  : Outcome (option BestResult * nat) :=
  let (population, c1) := initialize c in
  pc <- evolveTimes (generations params) population c1 ;;
  let res := getBestResult (fst pc) in
  Resolved
    (match bestResult with
     | None => Some res
     | Some b => if ltExt (br_fitness res) (br_fitness b) then Some res else Some b
     end,
     snd pc).

Fixpoint attemptLoop (left : nat) (bestResult : option BestResult) (c : nat)
  : Outcome (option BestResult * nat) :=
  match left with
  | O => Resolved (bestResult, c)
  | S left' =>
      bc <- attempt bestResult c ;;
      attemptLoop left' (fst bc) (snd bc)
  end.

End Instance.

End GeneticOptimizer.

(** [nodes.forEach((n, i) => { n.clusterId = individual[i]; })]; indexing
    [undefined] throws as soon as there is a node. *)
Definition assignGenes (individual : option Individual) (nodes : list MachineNode)
  : Outcome (list MachineNode) :=
  match individual, nodes with
  | Some i, _ => Resolved (mapi (fun n idx => setClusterId n (geneAt i idx)) nodes)
  | None, [] => Resolved []
  | None, _ :: _ => Rejected "TypeError"
  end.

Definition gaCrossFlow (nodes : list MachineNode) (links : list MachineLink)
  (individual : option Individual) : Outcome Qc :=
  let nodeIndex := nodeIndexMap nodes in
  forEachO
    (fun link total =>
       match JSMap.get nodeIndex (ml_source link),
             JSMap.get nodeIndex (ml_target link) with
       | Some sIdx, Some tIdx =>
           match individual with
           | Some i =>
               Resolved
                 (if sameCluster (geneAt i sIdx) (geneAt i tIdx) then total
                  else (total + ml_value link)%Qc)
           | None => Rejected "TypeError"
           end
       | _, _ => Resolved total
       end)
    links 0%Qc.

Definition gaSearch (rnd : RandomSource) (nodes : list MachineNode)
  (links : list MachineLink) (params : GAParams) (attempts : nat)
  : Outcome (option BestResult) :=
  bc <- GeneticOptimizer.attemptLoop nodes links params rnd attempts None 0 ;;
  Resolved (fst bc).

Definition gaAssemble (nodes : list MachineNode) (links : list MachineLink)
  (bestResult : option BestResult) : Outcome OptimizerResult :=
  match bestResult with
  | None => Rejected "Optimization failed"
  | Some best =>
      nodes' <- assignGenes (br_individual best) nodes ;;
      total <- gaCrossFlow nodes' links (br_individual best) ;;
      Resolved (mkResult nodes' links (groupClusters nodes') (mkStats total))
  end.

Definition runGeneticOptimization (fuel : nat) (rnd : RandomSource)
  (buildings : Buildings) (targets : list Target) (params : GAParams)
  (attempts : nat) : option (Run OptimizerResult) :=
  match resolveTargets fuel (initEnv buildings targets) with
  | None => None
  | Some e =>
      let sankeyData := dataOf e in
      let nodes := map toMachineNode (sd_nodes sankeyData) in
      let links := map toMachineLink (sd_links sankeyData) in
      Some
        (mkRun (env_buildings e) (env_targets e)
           (bestResult <- gaSearch rnd nodes links params attempts ;;
            gaAssemble nodes links bestResult))
  end.

(** ** Vocabulary of the specification *)

(** Every recipe of the catalog, in catalog order. *)
Definition allRecipes (b : Buildings) : list Recipe :=
  flat_map (fun bd => match recipes bd with Some rs => rs | None => [] end) b.

(** The item ids some recipe produces. *)
Definition outputs (b : Buildings) : list string :=
  map (fun r => ir_id (output r)) (allRecipes b).

(** The recipe dependency relation: an item depends on each input of the
    first recipe that produces it. *)
Definition dependsOn (b : Buildings) (x y : string) : Prop :=
  exists r, findRecipe b x = Some r /\ In y (map ir_id (inputs (recipe r))).

(** No item depends, through any number of steps, on itself. *)
Definition acyclic (b : Buildings) : Prop :=
  forall x, ~ clos_trans string (dependsOn b) x x.

(** An item from which the dependency relation leads into a cycle. *)
Definition reachesCycle (b : Buildings) (x : string) : Prop :=
  exists y, clos_refl_trans string (dependsOn b) x y
            /\ clos_trans string (dependsOn b) y y.

(** Fuel that suffices on an acyclic catalog: one more than the number of
    recipes bounds the depth of the recursion. *)
Definition enoughFuel (b : Buildings) : nat := S (List.length (outputs b)).

(** Whether an optional value is present. *)
Definition isSome {A : Type} (o : option A) : bool :=
  match o with Some _ => true | None => false end.

(** A check that decides acyclicity of a concrete catalog by running the
    traversal from every craftable item. *)
Definition acyclicCheck (b : Buildings) : bool :=
  forallb (fun x => isSome (traverse (enoughFuel b) x 0%Qc (initEnv b [])))
    (outputs b).

(** The string holds no '|'. *)
Fixpoint pipeFree (s : string) : bool :=
  match s with
  | EmptyString => true
  | String c rest => negb (Ascii.eqb c pipe) && pipeFree rest
  end.

(** No item id of the catalog or of the target list contains '|'. *)
Definition pipeFreeIds (b : Buildings) (targets : list Target) : bool :=
  forallb
    (fun r =>
       pipeFree (ir_id (output r))
       && forallb (fun i => pipeFree (ir_id i)) (inputs r))
    (allRecipes b)
  && forallb (fun t => pipeFree (t_id t)) targets.

(** Sum of a list of numbers. *)
Definition sumQc (l : list Qc) : Qc := fold_right Qcplus 0%Qc l.

(** Sum of the values of the links whose target, or whose source, is an
    item. *)
Definition linkSumInto (d : SankeyData) (item : string) : Qc :=
  sumQc (map sl_value
           (filter (fun l => String.eqb (sl_target l) item) (sd_links d))).

Definition linkSumOutOf (d : SankeyData) (item : string) : Qc :=
  sumQc (map sl_value
           (filter (fun l => String.eqb (sl_source l) item) (sd_links d))).

(** Sum of the amounts of the external targets naming an item. *)
Definition targetSum (targets : list Target) (item : string) : Qc :=
  sumQc (map t_amount (filter (fun t => String.eqb (t_id t) item) targets)).

(** Three lists of the same length related position by position. *)
Inductive Forall3 {A B C : Type} (R : A -> B -> C -> Prop)
  : list A -> list B -> list C -> Prop :=
| Forall3_nil : Forall3 R [] [] []
| Forall3_cons : forall a b c la lb lc,
    R a b c -> Forall3 R la lb lc -> Forall3 R (a :: la) (b :: lb) (c :: lc).

(** Node [n12] is nodes [n1] and [n2] with their required amounts added. *)
Definition nodeAdds (n1 n2 n12 : SankeyNode) : Prop :=
  sn_name n1 = sn_name n12 /\ sn_name n2 = sn_name n12 /\
  exists r1 r2,
    sn_requiredAmount n1 = Some r1 /\ sn_requiredAmount n2 = Some r2 /\
    sn_requiredAmount n12 = Some (r1 + r2)%Qc.

(** Link [l12] joins the same items as [l1] and [l2] and carries the sum of
    their values. *)
Definition linkAdds (l1 l2 l12 : SankeyLink) : Prop :=
  sl_source l1 = sl_source l12 /\ sl_target l1 = sl_target l12 /\
  sl_source l2 = sl_source l12 /\ sl_target l2 = sl_target l12 /\
  sl_value l12 = (sl_value l1 + sl_value l2)%Qc.

(** The two array arguments of [calculateRequirements] as the call leaves
    them. *)
Definition argumentsAfter (fuel : nat) (buildings : Buildings)
  (targets : list Target) : option (Buildings * list Target) :=
  option_map (fun e => (env_buildings e, env_targets e))
    (resolveTargets fuel (initEnv buildings targets)).

(** The node of the returned list that carries an id. *)
Definition findNode (nodes : list MachineNode) (id : string) : option MachineNode :=
  find (fun n => String.eqb (mn_id n) id) nodes.

(** A link crosses clusters when its source node and its target node are
    both in the list and carry different cluster ids. *)
Definition crossesClusters (nodes : list MachineNode) (l : MachineLink) : bool :=
  match findNode nodes (ml_source l), findNode nodes (ml_target l) with
  | Some s, Some t => negb (sameCluster (mn_clusterId s) (mn_clusterId t))
  | _, _ => false
  end.

(** The cross-cluster flow as the specification words it: the sum of the
    values of the links whose end nodes carry different cluster ids. *)
Definition crossFlowSpec (nodes : list MachineNode) (links : list MachineLink)
  : Qc :=
  sumQc (map ml_value (filter (crossesClusters nodes) links)).

(** The nodes of the flow graph that the k-means partitioner clusters. *)
Definition itemsOf (d : SankeyData) : list SankeyNode :=
  filter (fun n => negb (String.eqb (sn_category n) "sink")) (sd_nodes d).

(** A cluster id in the range from 0 up to, but not including, [k]. *)
Definition inRange (k : nat) (c : Z) : Prop := (0 <= c < Z.of_nat k)%Z.

(** Every node carries a cluster id below [k]. *)
Definition clusteredBelow (k : nat) (nodes : list MachineNode) : Prop :=
  forall n, In n nodes -> exists c, mn_clusterId n = Some c /\ inRange k c.


(** The items a round assigns to the centroid at index [j]. *)
Definition membersOf (centroids : list Point) (items : list MachineNode)
  (j : nat) : list MachineNode :=
  filter (fun n => Z.eqb (nearest centroids n) (Z.of_nat j)) items.

(** The mean of the positions of some nodes. *)
Definition meanPosition (ms : list MachineNode) : Point :=
  mkPoint
    (sumQc (map (fun n => coord (mn_x n)) ms) / ofNat (List.length ms))%Qc
    (sumQc (map (fun n => coord (mn_y n)) ms) / ofNat (List.length ms))%Qc.

(** The point (0, 0). *)
Definition origin : Point := mkPoint 0%Qc 0%Qc.

(** What the round makes of the centroid at index [j]. *)
Definition recomputed (centroids : list Point) (items : list MachineNode)
  (j : nat) : Point :=
  match membersOf centroids items j with
  | [] => origin
  | (_ :: _) as ms => meanPosition ms
  end.

(** The smaller of a number and an extended number. *)
Definition minExt (a : Qc) (m : option Qc) : option Qc :=
  match m with
  | None => Some a
  | Some b => Some (if Qcltb a b then a else b)
  end.

(** Order on numbers extended with [Infinity]. *)
Definition leExt (a b : option Qc) : Prop :=
  match a, b with
  | _, None => True
  | None, Some _ => False
  | Some x, Some y => (x <= y)%Qc
  end.

(** Lowest fitness of a population, [Infinity] when it is empty. *)
Definition minFitness (nodes : list MachineNode) (links : list MachineLink)
  (params : GAParams) (population : list Individual) : option Qc :=
  fold_right
    (fun i m => minExt (GeneticOptimizer.calculateFitness nodes links params i) m)
    None population.

(** The population paired with its fitness, as [evolve] builds it. *)
Definition scoredPopulation (nodes : list MachineNode)
  (links : list MachineLink) (params : GAParams) (population : list Individual)
  : list Scored :=
  map (fun i => mkScored i (GeneticOptimizer.calculateFitness nodes links params i))
    population.

(** The individuals [evolve] copies unchanged: the first [eliteCount] of
    the ascending sort. *)
Definition elite (nodes : list MachineNode) (links : list MachineLink)
  (params : GAParams) (population : list Individual) : list Individual :=
  map ind
    (firstn (GeneticOptimizer.eliteCount params)
       (GeneticOptimizer.sortByFitness
          (scoredPopulation nodes links params population))).

(** ** Invariants and ghost quantities of the proofs *)

(** The two components [decodeLink] reads off a key. *)
Definition keySource (key : string) : string := nth 0 (split_pipe key) "".
Definition keyTarget (key : string) : string := nth 1 (split_pipe key) "".

(** The required amount accumulated so far for an item, 0 before its node
    exists. *)
Definition reqOf (e : Env) (n : string) : Qc :=
  match JSMap.get (env_nodes e) n with
  | Some node =>
      match sn_requiredAmount node with Some r => r | None => 0%Qc end
  | None => 0%Qc
  end.

(** The flow recorded so far on the links that leave an item. *)
Definition outSum (lm : JSMap.t Qc) (n : string) : Qc :=
  sumQc (map snd (filter (fun kv => String.eqb (keySource (fst kv)) n) lm)).

(** What an item has been asked for beyond what its recorded links carry. *)
Definition balance (e : Env) (n : string) : Qc :=
  (reqOf e n - outSum (env_linksMap e) n)%Qc.

(** [a] at item [x], 0 elsewhere. *)
Definition indicator (x n : string) (a : Qc) : Qc :=
  if String.eqb x n then a else 0%Qc.

(** Every node of the map sits under its own name, carries a required
    amount, and no name occurs twice. *)
Definition nodesOk (ns : JSMap.t SankeyNode) : Prop :=
  NoDup (JSMap.keys ns) /\
  forall k node, In (k, node) ns ->
    sn_name node = k /\ exists r, sn_requiredAmount node = Some r.

(** No input id of any recipe contains '|'. *)
Definition inputsPipeFree (b : Buildings) : Prop :=
  forall r i, In r (allRecipes b) -> In i (inputs r) -> pipeFree (ir_id i) = true.

(** The node map holds a node for the item. *)
Definition hasNode (e : Env) (n : string) : Prop :=
  In n (JSMap.keys (env_nodes e)).

(** A link key that joins two '|'-free ids of nodes already in the map. *)
Definition goodKey (e : Env) (key : string) : Prop :=
  exists i x,
    key = linkKey i x /\ pipeFree i = true /\ pipeFree x = true
    /\ hasNode e i /\ hasNode e x.

(** The (source, target) pair a link key decodes to. *)
Definition endpoints (key : string) : string * string :=
  (keySource key, keyTarget key).

(** Three maps with the same keys in the same order, their values related
    entry by entry. *)
Definition rel3 {V : Type} (R : V -> V -> V -> Prop)
  : JSMap.t V -> JSMap.t V -> JSMap.t V -> Prop :=
  Forall3 (fun a b c => fst a = fst c /\ fst b = fst c /\ R (snd a) (snd b) (snd c)).

(** [v12] is the sum of [v1] and [v2]. *)
Definition valueAdds (v1 v2 v12 : Qc) : Prop := v12 = (v1 + v2)%Qc.

(** The state of a run on rate [r1 + r2] is the sum of the states of the
    runs on [r1] and on [r2]. *)
Definition envAdds (e1 e2 e12 : Env) : Prop :=
  env_buildings e1 = env_buildings e12
  /\ env_buildings e2 = env_buildings e12
  /\ rel3 nodeAdds (env_nodes e1) (env_nodes e2) (env_nodes e12)
  /\ rel3 valueAdds (env_linksMap e1) (env_linksMap e2) (env_linksMap e12).

(** Whether the transport loop counts a link, for a lookup of cluster ids. *)
Definition crossesBy (lookup : string -> option Z) (l : MachineLink) : bool :=
  match lookup (ml_source l), lookup (ml_target l) with
  | Some sC, Some tC => negb (Z.eqb sC tC)
  | _, _ => false
  end.

(** The nodes either all lack a cluster id or all carry one. *)
Definition uniformClusters (nodes : list MachineNode) : Prop :=
  (forall n, In n nodes -> mn_clusterId n = None)
  \/ (forall n, In n nodes -> exists c, mn_clusterId n = Some c).

(** Every id a cluster assignment holds is in range. *)
Definition assignmentInRange (k : nat) (m : JSMap.t Z) : Prop :=
  forall key c, JSMap.get m key = Some c -> inRange k c.

(** A gene that is a cluster id in range. *)
Definition geneInRange (k : nat) (g : Gene) : Prop :=
  exists c, g = Some c /\ inRange k c.

(** A gene that is not [undefined]. *)
Definition geneDefined (g : Gene) : Prop := exists c, g = Some c.

(** An individual with one gene per node, each gene satisfying [G]. *)
Definition wellFormed (G : Gene -> Prop) (n : nat) (i : Individual) : Prop :=
  List.length i = n /\ Forall G i.

(** The candidate of the search, if it holds an individual, holds one
    that satisfies [P]. *)
Definition candidateHas (P : Individual -> Prop)
  (bestResult : option BestResult) : Prop :=
  forall b i, bestResult = Some b -> br_individual b = Some i -> P i.

(** ** Sample inputs *)

(** An integer as a rate. *)
Definition qz (z : Z) : Qc := Q2Qc (inject_Z z).

(** The example of the specification: a smelter turns ore into bars. *)
Definition smelterCatalog : Buildings :=
  [mkBuilding "smelter" "Smelter" production None None
     (Some [mkRecipe (mkItemRate "bar" (qz 1)) [mkItemRate "ore" (qz 1)]])].

(** Ten bars per minute. *)
Definition barTarget : list Target := [mkTarget "bar" (qz 10)].

(** A two-stage chain in which bars and coal are needed at two places. *)
Definition plateCatalog : Buildings :=
  [mkBuilding "smelter" "Smelter" production None None
     (Some [mkRecipe (mkItemRate "bar" (qz 1))
              [mkItemRate "ore" (qz 2); mkItemRate "coal" (qz 1)]]);
   mkBuilding "press" "Press" production None None
     (Some [mkRecipe (mkItemRate "plate" (qz 2))
              [mkItemRate "bar" (qz 3); mkItemRate "coal" (qz 1)]])].

(** Ten plates and four more bars per minute. *)
Definition plateTargets : list Target :=
  [mkTarget "plate" (qz 10); mkTarget "bar" (qz 4)].

(** The machine graph of the plate chain, as both optimizers build it. *)
Definition plateNodes : list MachineNode :=
  match calculateRequirements 3 plateCatalog plateTargets with
  | Some d => map toMachineNode (sd_nodes d)
  | None => []
  end.

Definition plateLinks : list MachineLink :=
  match calculateRequirements 3 plateCatalog plateTargets with
  | Some d => map toMachineLink (sd_links d)
  | None => []
  end.

(** A catalog with a production cycle: water is made from steam and steam
    from water. *)
Definition cyclicCatalog : Buildings :=
  [mkBuilding "boiler" "Boiler" production None None
     (Some [mkRecipe (mkItemRate "steam" (qz 1)) [mkItemRate "water" (qz 1)]]);
   mkBuilding "condenser" "Condenser" production None None
     (Some [mkRecipe (mkItemRate "water" (qz 1)) [mkItemRate "steam" (qz 1)]])].

(** An item id that contains the separator of the link keys. *)
Definition pipedCatalog : Buildings :=
  [mkBuilding "mixer" "Mixer" production None None
     (Some [mkRecipe (mkItemRate "alloy" (qz 1)) [mkItemRate "tin|lead" (qz 1)]])].

(** A deterministic stand-in for [Math.random()]: the draws cycle through
    0/7, 1/7, ..., 6/7. *)
Definition sampleDraw (i : nat) : Qc := Q2Qc (Z.of_nat (i mod 7) # 7).

Lemma sampleDraw_range i : (0 <= sampleDraw i)%Qc /\ (sampleDraw i < 1)%Qc.
Proof.
  unfold sampleDraw, Qcle, Qclt. cbn [this Q2Qc].
  assert (H : (0 <= Z.of_nat (i mod 7) < 7)%Z).
  { pose proof (Nat.mod_upper_bound i 7). lia. }
  rewrite !Qred_correct. unfold Qle, Qlt; cbn [Qnum Qden]. lia.
Qed.

Definition sampleRandom : RandomSource :=
  mkRandomSource sampleDraw sampleDraw_range.

(** A sort that happens to leave the items in place. *)
Definition identityShuffler : Shuffler :=
  mkShuffler (fun _ l => l) (fun _ l => Permutation_refl l).

(** An embedding that puts the node at index i at (i * i, i). *)
Definition sampleEmbedding : Embedding :=
  fun _ _ i => (qz (Z.of_nat (i * i)), qz (Z.of_nat i)).

(** Weights and parameters of a small genetic search. *)
Definition sampleWeights : Weights := mkWeights (qz 100) (qz 100) (qz 10) (qz 1).

Definition sampleParams : GAParams :=
  mkGAParams 6 3 (Q2Qc (1 # 10)) 2 sampleWeights [] [] (qz 1) (qz 3).

(** A population of three assignments of the four nodes of the plate chain. *)
Definition samplePopulation : list Individual :=
  [[Some 0%Z; Some 1%Z; Some 0%Z; Some 1%Z];
   [Some 0%Z; Some 0%Z; Some 1%Z; Some 1%Z];
   [Some 1%Z; Some 1%Z; Some 1%Z; Some 0%Z]].

(** The position of a node, as the seeding of a pass reads it. *)
Definition pointOf (n : MachineNode) : Point :=
  mkPoint (coord (mn_x n)) (coord (mn_y n)).

(** A machine node placed at integer coordinates. *)
Definition itemAt (id : string) (x y : Z) : MachineNode :=
  mkMachineNode id id (Some (qz x)) (Some (qz y)) "raw" id None None None
    "Source" "raw".

(** Seven items on a line. Seeded with the first three, the middle cluster
    {c, e} of the first round loses both members in the second. *)
Definition lineItems : list MachineNode :=
  [itemAt "a" 0 0; itemAt "c" 20 0; itemAt "g" 100 0; itemAt "b" 9 0;
   itemAt "e" 59 0; itemAt "f" 61 0; itemAt "h" 62 0].

Definition lineSeeds : list Point :=
  map pointOf (firstn 3 (shuffle identityShuffler 0 lineItems)).

(** ** Further vocabulary: the flow graph *)

(** An item that can be reached from another along recipe inputs, in any
    number of steps. *)
Definition reaches (b : Buildings) : string -> string -> Prop :=
  clos_refl_trans string (dependsOn b).

(** The (source, target) pair of a link. *)
Definition linkEnds (l : SankeyLink) : string * string :=
  (sl_source l, sl_target l).

(** Every rate of every recipe is positive. *)
Definition positiveRates (b : Buildings) : Prop :=
  forall r, In r (allRecipes b) ->
    (0 < amount_per_minute (output r))%Qc
    /\ forall i, In i (inputs r) -> (0 < amount_per_minute i)%Qc.

(** Every target asks for a positive rate. *)
Definition positiveTargets (targets : list Target) : Prop :=
  forall t, In t targets -> (0 < t_amount t)%Qc.

(** The same check on concrete inputs. *)
Definition positiveRatesCheck (b : Buildings) : bool :=
  forallb
    (fun r =>
       Qcltb 0%Qc (amount_per_minute (output r))
       && forallb (fun i => Qcltb 0%Qc (amount_per_minute i)) (inputs r))
    (allRecipes b).

Definition positiveTargetsCheck (targets : list Target) : bool :=
  forallb (fun t => Qcltb 0%Qc (t_amount t)) targets.

(** The building, machine name and output rate a node of an item carries:
    those of the first recipe that produces the item, or the marks of a
    raw material. *)
Definition describedBy (b : Buildings) (n : SankeyNode) : Prop :=
  match findRecipe b (sn_name n) with
  | Some r =>
      sn_category n = buildingId r
      /\ sn_machineName n = buildingName r
      /\ sn_outputPerMachine n = Some (amount_per_minute (output (recipe r)))
  | None =>
      sn_category n = "raw"
      /\ sn_machineName n = "Source"
      /\ sn_outputPerMachine n = None
  end.

(** Every node of the map sits under its name and is described by the
    catalog. *)
Definition nodesDescribed (b : Buildings) (ns : JSMap.t SankeyNode) : Prop :=
  forall k node, In (k, node) ns -> sn_name node = k /\ describedBy b node.

(** Every amount the maps hold is positive. *)
Definition positiveEnv (e : Env) : Prop :=
  (forall k node, In (k, node) (env_nodes e) ->
     exists a, sn_requiredAmount node = Some a /\ (0 < a)%Qc)
  /\ (forall k v, In (k, v) (env_linksMap e) -> (0 < v)%Qc).

(** ** Further vocabulary: the k-means partitioner *)

(** What the loop over the centroids knows after reading the centroids
    [seen]: nothing yet, or the index of the first closest of them and its
    squared distance. *)
Definition firstClosest (node : MachineNode) (seen : list Point) (closest : Z)
  (minDist : option Qc) : Prop :=
  (seen = [] /\ closest = (-1)%Z /\ minDist = None)
  \/ exists j c,
       closest = Z.of_nat j
       /\ nth_error seen j = Some c
       /\ minDist = Some (sqDist node c)
       /\ (forall i c', nth_error seen i = Some c' ->
             (sqDist node c <= sqDist node c')%Qc)
       /\ (forall i c', i < j -> nth_error seen i = Some c' ->
             (sqDist node c < sqDist node c')%Qc).

(** Whether the round moves an item out of the cluster it had. *)
Definition moves (centroids : list Point) (prev : JSMap.t Z) (n : MachineNode)
  : bool :=
  negb (sameCluster (Some (nearest centroids n)) (JSMap.get prev (mn_id n))).

(** The assignment the inner loop of pass [pass] ends with. *)
Definition passAssignment (sh : Shuffler) (items : list MachineNode) (k : nat)
  (pass : nat) : Outcome (JSMap.t Z) :=
  kmeansLoop 50 items k
    (map (fun n => mkPoint (coord (mn_x n)) (coord (mn_y n)))
       (firstn k (shuffle sh pass items)))
    JSMap.empty.

(** The nodes of a list that carry cluster id [c]. *)
Definition inCluster (c : Z) (nodes : list MachineNode) : list MachineNode :=
  filter (fun n => sameCluster (mn_clusterId n) (Some c)) nodes.

(** The group stored under a cluster id, empty when there is none. *)
Fixpoint groupOf (m : list (Z * list MachineNode)) (c : Z) : list MachineNode :=
  match m with
  | [] => []
  | (c', ns) :: m' => if Z.eqb c' c then ns else groupOf m' c
  end.

(** Two machine nodes with the same id, name, building, recipe output,
    required amount, output rate, machine name and category. *)
Definition sameMachine (a b : MachineNode) : Prop :=
  mn_id a = mn_id b /\ mn_name a = mn_name b
  /\ mn_buildingId a = mn_buildingId b
  /\ mn_recipeOutputId a = mn_recipeOutputId b
  /\ mn_requiredAmount a = mn_requiredAmount b
  /\ mn_outputPerMachine a = mn_outputPerMachine b
  /\ mn_machineName a = mn_machineName b
  /\ mn_category a = mn_category b.

(** The inner loop of a pass once more, this time also answering the
    centroids it ended on and whether it ended because a round left every
    item where it was; in that case the centroids are those the last round
    read. *)
Fixpoint kmeansRun (rounds : nat) (items : list MachineNode) (k : nat)
  (centroids : list Point) (clusterAssignment : JSMap.t Z)
  : Outcome (JSMap.t Z * list Point * bool) :=
  match rounds with
  | O => Resolved (clusterAssignment, centroids, false)
  | S rounds' =>
      r <- kmeansRound items k centroids clusterAssignment ;;
      if r_hasChanged r
      then kmeansRun rounds' items k (r_centroids r) (r_assignment r)
      else Resolved (r_assignment r, centroids, true)
  end.

(** An assignment that gives every item the centroid nearest to it. *)
Definition assignedBy (items : list MachineNode) (centroids : list Point)
  (a : JSMap.t Z) : Prop :=
  forall n, In n items -> JSMap.get a (mn_id n) = Some (nearest centroids n).

(** Centroids that a round of k-means leaves as they are: each is the mean
    position of the items it is nearest to, or the origin if there are
    none. *)
Definition fixedPoint (items : list MachineNode) (k : nat)
  (centroids : list Point) : Prop :=
  forall j, j < k -> nth_error centroids j = Some (recomputed centroids items j).

(** ** Further vocabulary: the genetic search *)

(** An individual with one gene per node. *)
Definition fitsNodes (nodes : list MachineNode) (i : Individual) : Prop :=
  List.length i = List.length nodes.

(** Parameters of a search without mutation, and of one that mutates every
    gene. *)
Definition frozenParams : GAParams :=
  mkGAParams 6 3 0%Qc 2 sampleWeights [] [] (qz 1) (qz 3).

Definition restlessParams : GAParams :=
  mkGAParams 6 3 1%Qc 2 sampleWeights [] [] (qz 1) (qz 3).

(** Parameters of a search over an empty population. *)
Definition emptyPopulationParams : GAParams :=
  mkGAParams 0 3 (Q2Qc (1 # 10)) 2 sampleWeights [] [] (qz 1) (qz 3).




(** The best result of the attempt that starts drawing at counter [c],
    and the counter it ends on. *)
Definition attemptResult (nodes : list MachineNode) (links : list MachineLink)
  (params : GAParams) (rnd : RandomSource) (c : nat)
  : Outcome (BestResult * nat) :=
  let (population, c1) := GeneticOptimizer.initialize nodes params rnd c in
  pc <- GeneticOptimizer.evolveTimes nodes links params rnd (generations params)
          population c1 ;;
  Resolved (GeneticOptimizer.getBestResult nodes links params (fst pc), snd pc).

(** The best results of [left] attempts in a row. *)
Fixpoint attemptResults (nodes : list MachineNode) (links : list MachineLink)
  (params : GAParams) (rnd : RandomSource) (left c : nat)
  : Outcome (list BestResult) :=
  match left with
  | O => Resolved []
  | S left' =>
      rc <- attemptResult nodes links params rnd c ;;
      rest <- attemptResults nodes links params rnd left' (snd rc) ;;
      Resolved (fst rc :: rest)
  end.

(** ** The cluster diagram ([components/ClusterDiagram.tsx]) *)

(** [`${n}`] for a cluster id. *)
Definition showZ (z : Z) : string :=
  DecimalString.NilZero.string_of_int (Z.to_int z).

(** [`${sNode.clusterId}->${tNode.clusterId}`] *)
Definition flowKey (sC tC : Z) : string := showZ sC ++ "->" ++ showZ tC.

(** The aggregated flows between clusters, a [Map<string, number>] keyed
    by the pair of cluster ids. The links of a result carry ids, so the
    branch for links that d3 has resolved to node objects is not taken. *)
Definition clusterFlows (result : OptimizerResult) : JSMap.t Qc :=
  fold_left
    (fun flows l =>
       match findNode (or_nodes result) (ml_source l),
             findNode (or_nodes result) (ml_target l) with
       | Some sNode, Some tNode =>
           match mn_clusterId sNode, mn_clusterId tNode with
           | Some sC, Some tC =>
               if Z.eqb sC tC then flows
               else
                 JSMap.set flows (flowKey sC tC)
                   (orZero (JSMap.get flows (flowKey sC tC)) + ml_value l)%Qc
           | _, _ => flows
           end
       | _, _ => flows
       end)
    (or_links result) JSMap.empty.

(** Whether the diagram counts a link: both end nodes are found, both
    carry a cluster id, and the ids differ. *)
Definition drawnBetweenClusters (nodes : list MachineNode) (l : MachineLink)
  : bool :=
  match findNode nodes (ml_source l), findNode nodes (ml_target l) with
  | Some sNode, Some tNode =>
      match mn_clusterId sNode, mn_clusterId tNode with
      | Some sC, Some tC => negb (Z.eqb sC tC)
      | _, _ => false
      end
  | _, _ => false
  end.

(** ** The target list of the application ([App.tsx]) *)

(** A target of the side bar; [key] is the v4 UUID it was created with. *)
Record AppTarget := mkAppTarget {
  at_key : string;
  at_id : string;
  at_amount : Qc
}.

(** The two ways [updateTarget] is called: with the field 'id' and an item
    id, or with the field 'amount' and a number. *)
Inductive TargetField : Type :=
| FieldId (value : string)
| FieldAmount (value : Qc).

(** [buildings.flatMap(b => b.recipes || []).find(r => r.output.id === id)] *)
Definition firstRecipeFor (buildings : Buildings) (id : string) : option Recipe :=
  find (fun r => String.eqb (ir_id (output r)) id)
    (flat_map (fun b => match recipes b with Some rs => rs | None => [] end)
       buildings).

(** The new state [updateTarget] sets. *)
Definition updateTarget (buildings : Buildings) (targets : list AppTarget)
  (key : string) (field : TargetField) : list AppTarget :=
  map
    (fun t =>
       if String.eqb (at_key t) key then
         match field with
         | FieldId value =>
             match firstRecipeFor buildings value with
             | Some found =>
                 mkAppTarget (at_key t) value (amount_per_minute (output found))
             | None => mkAppTarget (at_key t) value (at_amount t)
             end
         | FieldAmount value => mkAppTarget (at_key t) (at_id t) value
         end
       else t)
    targets.

(** The new state [removeTarget] sets. *)
Definition removeTarget (targets : list AppTarget) (key : string)
  : list AppTarget :=
  filter (fun t => negb (String.eqb (at_key t) key)) targets.

(** What [calculateRequirements] reads of a target of the side bar. *)
Definition demandOf (t : AppTarget) : Target := mkTarget (at_id t) (at_amount t).

(** One target of the side bar, asking for ten plates. *)
Definition sideBar : list AppTarget := [mkAppTarget "k1" "plate" (qz 10)].

(** ** Further vocabulary: scaling the demand *)

(** A target, a node and a link with their rate multiplied by [c]. *)
Definition scaleTarget (c : Qc) (t : Target) : Target :=
  mkTarget (t_id t) (c * t_amount t)%Qc.

Definition scaleNode (c : Qc) (n : SankeyNode) : SankeyNode :=
  mkSankeyNode (sn_name n) (sn_category n) (sn_machineName n)
    (sn_outputPerMachine n) (option_map (Qcmult c) (sn_requiredAmount n)).

Definition scaleLink (c : Qc) (l : SankeyLink) : SankeyLink :=
  mkSankeyLink (sl_source l) (sl_target l) (c * sl_value l)%Qc.

Definition scaleData (c : Qc) (d : SankeyData) : SankeyData :=
  mkSankeyData (map (scaleNode c) (sd_nodes d)) (map (scaleLink c) (sd_links d)).

(** A map with every value replaced by its image, keys and order kept. *)
Definition mapValues {V W : Type} (f : V -> W) (m : JSMap.t V) : JSMap.t W :=
  map (fun kv => (fst kv, f (snd kv))) m.

(** The state of a traversal with every amount multiplied by [c]. *)
Definition scaleEnv (c : Qc) (targets : list Target) (e : Env) : Env :=
  mkEnv (env_buildings e) targets
    (mapValues (scaleNode c) (env_nodes e))
    (mapValues (Qcmult c) (env_linksMap e)).

(** * Properties *)

(** ** Evaluation of concrete runs *)

(** A goal that holds by running the functions. *)
Ltac computed := vm_compute; reflexivity.

(** A hypothesis that running the functions refutes. *)
Ltac miscomputed H := vm_compute in H; discriminate.

(** ** Facts about [JSMap] *)

Section JSMapFacts.
Context {V : Type}.
Implicit Types (m : JSMap.t V) (k : string) (v : V).

Lemma get_set_same m k v : JSMap.get (JSMap.set m k v) k = Some v.
Proof.
  induction m as [|[k' v'] m IH]; simpl.
  - now rewrite String.eqb_refl.
  - destruct (String.eqb k' k) eqn:E; simpl; rewrite E; auto.
Qed.

Lemma get_set_other m k k' v :
  k <> k' -> JSMap.get (JSMap.set m k v) k' = JSMap.get m k'.
Proof.
  intro Hne. induction m as [|[k0 v0] m IH]; simpl.
  - destruct (String.eqb_spec k k'); congruence.
  - destruct (String.eqb_spec k0 k) as [->|Hk]; simpl.
    + destruct (String.eqb_spec k k'); congruence.
    + now rewrite IH.
Qed.

Lemma get_None_keys m k : JSMap.get m k = None <-> ~ In k (JSMap.keys m).
Proof.
  induction m as [|[k0 v0] m IH]; simpl.
  - tauto.
  - destruct (String.eqb_spec k0 k) as [->|Hk].
    + split; [discriminate | intros H; exfalso; apply H; now left].
    + rewrite IH. tauto.
Qed.

Lemma get_Some_In m k v : JSMap.get m k = Some v -> In (k, v) m.
Proof.
  induction m as [|[k0 v0] m IH]; simpl; [discriminate|].
  destruct (String.eqb_spec k0 k) as [->|Hk].
  - intros [= ->]. now left.
  - auto.
Qed.

Lemma In_get_Some m k v :
  NoDup (JSMap.keys m) -> In (k, v) m -> JSMap.get m k = Some v.
Proof.
  induction m as [|[k0 v0] m IH]; simpl; [tauto|].
  intros Hnd [Heq|Hin].
  - injection Heq as -> ->. now rewrite String.eqb_refl.
  - inversion Hnd as [|? ? Hnotin Hnd']; subst.
    destruct (String.eqb_spec k0 k) as [->|Hk].
    + exfalso. apply Hnotin. change k with (fst (k, v)). now apply in_map.
    + auto.
Qed.

Lemma keys_set_present m k v :
  In k (JSMap.keys m) -> JSMap.keys (JSMap.set m k v) = JSMap.keys m.
Proof.
  induction m as [|[k0 v0] m IH]; simpl; [tauto|].
  destruct (String.eqb_spec k0 k) as [->|Hk]; simpl; auto.
  intros [?|Hin]; [congruence|]. now rewrite IH.
Qed.

Lemma keys_set_absent m k v :
  ~ In k (JSMap.keys m) -> JSMap.keys (JSMap.set m k v) = JSMap.keys m ++ [k].
Proof.
  induction m as [|[k0 v0] m IH]; simpl; auto.
  intros Hn. destruct (String.eqb_spec k0 k) as [->|Hk]; simpl.
  - exfalso. auto.
  - rewrite IH; auto.
Qed.

Lemma keys_set_In m k v k' :
  In k' (JSMap.keys (JSMap.set m k v)) <-> k' = k \/ In k' (JSMap.keys m).
Proof.
  destruct (in_dec string_dec k (JSMap.keys m)) as [Hin|Hnin].
  - rewrite keys_set_present by assumption. split; [auto|].
    intros [->|?]; auto.
  - rewrite keys_set_absent by assumption. rewrite in_app_iff. simpl.
    split; [intros [?|[?|[]]]; auto | intros [?|?]; auto].
Qed.

Lemma keys_set_NoDup m k v :
  NoDup (JSMap.keys m) -> NoDup (JSMap.keys (JSMap.set m k v)).
Proof.
  intro Hnd. destruct (in_dec string_dec k (JSMap.keys m)) as [Hin|Hnin].
  - now rewrite keys_set_present.
  - rewrite keys_set_absent by assumption.
    apply NoDup_app; [assumption | repeat constructor; simpl; tauto |].
    intros x Hx [<-|[]]. contradiction.
Qed.

Lemma set_In m k v k' v' :
  In (k', v') (JSMap.set m k v) -> (k' = k /\ v' = v) \/ In (k', v') m.
Proof.
  induction m as [|[k0 v0] m IH]; simpl.
  - intros [[= <- <-]|[]]. auto.
  - destruct (String.eqb_spec k0 k) as [->|Hk]; simpl.
    + intros [[= <- <-]|?]; auto.
    + intros [?|?]; auto. destruct (IH H); auto.
Qed.

End JSMapFacts.

(** ** Facts about [forEachM] *)

Lemma forEachM_inv {A S : Type} (P : S -> Prop) (f : A -> S -> option S) :
  forall xs s s',
    P s ->
    (forall x t t', In x xs -> P t -> f x t = Some t' -> P t') ->
    forEachM f xs s = Some s' -> P s'.
Proof.
  induction xs as [|x xs IH]; simpl; intros s s' Hs Hstep Hrun.
  - now injection Hrun as <-.
  - destruct (f x s) as [t|] eqn:E; [|discriminate].
    apply (IH t s'); eauto.
Qed.

Lemma forEachM_total {A S : Type} (P : S -> Prop) (f : A -> S -> option S) :
  forall xs s,
    P s ->
    (forall x t, In x xs -> P t -> exists t', f x t = Some t' /\ P t') ->
    exists s', forEachM f xs s = Some s' /\ P s'.
Proof.
  induction xs as [|x xs IH]; simpl; intros s Hs Hstep.
  - eauto.
  - destruct (Hstep x s) as (t & -> & Ht); auto.
Qed.

Lemma forEachM_stuck {A S : Type} (P : S -> Prop) (f : A -> S -> option S) :
  forall xs x s,
    P s ->
    (forall y t t', P t -> f y t = Some t' -> P t') ->
    In x xs ->
    (forall t, P t -> f x t = None) ->
    forEachM f xs s = None.
Proof.
  induction xs as [|y xs IH]; simpl; intros x s Hs Hstep Hin Hx; [tauto|].
  destruct Hin as [->|Hin].
  - now rewrite Hx.
  - destruct (f y s) as [t|] eqn:E; [|reflexivity].
    apply (IH x t); eauto.
Qed.

(** ** The traversal leaves the catalog and the targets alone *)

Lemma traverse_frame :
  forall fuel x a e e',
    traverse fuel x a e = Some e' ->
    env_buildings e' = env_buildings e /\ env_targets e' = env_targets e.
Proof.
  induction fuel as [|fuel IH]; simpl; intros x a e e' H; [discriminate|].
  destruct (findRecipe (env_buildings e) x) as [r|].
  - revert H.
    apply (forEachM_inv
             (fun t => env_buildings t = env_buildings e
                       /\ env_targets t = env_targets e)).
    + split; reflexivity.
    + intros i t t' _ [Hb Ht] Hrun. apply IH in Hrun. simpl in Hrun.
      destruct Hrun; split; congruence.
  - injection H as <-. split; reflexivity.
Qed.

Lemma traverse_buildings fuel x a e e' :
  traverse fuel x a e = Some e' -> env_buildings e' = env_buildings e.
Proof. intro H. now apply traverse_frame in H. Qed.

Lemma resolveTargets_frame fuel e e' :
  resolveTargets fuel e = Some e' ->
  env_buildings e' = env_buildings e /\ env_targets e' = env_targets e.
Proof.
  unfold resolveTargets.
  apply (forEachM_inv
           (fun t => env_buildings t = env_buildings e
                     /\ env_targets t = env_targets e)).
  - split; reflexivity.
  - intros t s s' _ [Hb Ht] Hrun. apply traverse_frame in Hrun.
    destruct Hrun; split; congruence.
Qed.

(** ** The first-match lookup *)

Lemma findInRecipes_Some rs x r :
  findInRecipes rs x = Some r -> In r rs /\ ir_id (output r) = x.
Proof.
  induction rs as [|r0 rs IH]; simpl; [discriminate|].
  destruct (String.eqb_spec (ir_id (output r0)) x) as [Hx|Hx].
  - intros [= <-]. auto.
  - intro H. destruct (IH H). auto.
Qed.

Lemma findRecipe_Some b x r :
  findRecipe b x = Some r ->
  In (recipe r) (allRecipes b) /\ ir_id (output (recipe r)) = x.
Proof.
  unfold allRecipes.
  induction b as [|bd b IH]; simpl; [discriminate|].
  destruct (recipes bd) as [rs|].
  - destruct (findInRecipes rs x) as [r0|] eqn:E.
    + intros [= <-]. simpl. apply findInRecipes_Some in E.
      rewrite in_app_iff. tauto.
    + intro H. destruct (IH H). rewrite in_app_iff. auto.
  - intro H. destruct (IH H). auto.
Qed.

Lemma findRecipe_outputs b x r : findRecipe b x = Some r -> In x (outputs b).
Proof.
  intro H. apply findRecipe_Some in H. destruct H as [Hin <-].
  unfold outputs. now apply (in_map (fun r => ir_id (output r))).
Qed.

Lemma dependsOn_outputs b x y : dependsOn b x y -> In x (outputs b).
Proof. intros (r & H & _). eapply findRecipe_outputs; eauto. Qed.

(** ** Termination on acyclic catalogs *)

Section Termination.
Variable b : Buildings.
Hypothesis Hacyclic : acyclic b.

(** [seen] collects the items on the path from the root of the recursion
    to [x]: they are distinct craftable items, so the path is shorter than
    the catalog. *)
Lemma traverse_terminates_seen :
  forall fuel seen x a e,
    env_buildings e = b ->
    NoDup seen ->
    incl seen (outputs b) ->
    (forall s, In s seen -> clos_trans string (dependsOn b) s x) ->
    List.length (outputs b) < fuel + List.length seen ->
    exists e', traverse fuel x a e = Some e'.
Proof.
  induction fuel as [|fuel IH]; intros seen x a e He Hnd Hincl Hreach Hlen.
  - pose proof (NoDup_incl_length Hnd Hincl). simpl in Hlen. lia.
  - simpl. rewrite He.
    destruct (findRecipe b x) as [r|] eqn:Hfind; [|eauto].
    assert (Hx : ~ In x seen).
    { intro Hin. apply (Hacyclic x). auto. }
    destruct (forEachM_total (fun t => env_buildings t = b)
                (fun input e' =>
                   traverse fuel (ir_id input)
                     (amount_per_minute input
                      * (a / amount_per_minute (output (recipe r))))%Qc
                     (addLink x input
                        (amount_per_minute input
                         * (a / amount_per_minute (output (recipe r))))%Qc e'))
                (inputs (recipe r)) (visit x a e)) as (e' & Hrun & _).
    + exact He.
    + intros i t Hi Ht.
      assert (Hdep : dependsOn b x (ir_id i)).
      { exists r. split; [assumption|]. now apply in_map. }
      destruct (IH (x :: seen) (ir_id i)
                  (amount_per_minute i
                   * (a / amount_per_minute (output (recipe r))))%Qc
                  (addLink x i
                     (amount_per_minute i
                      * (a / amount_per_minute (output (recipe r))))%Qc t))
        as (t' & Ht').
      * exact Ht.
      * now constructor.
      * intros s [<-|Hs]; [eapply findRecipe_outputs; eauto | auto].
      * intros s [<-|Hs].
        -- now apply t_step.
        -- eapply t_trans; [apply Hreach; assumption | now apply t_step].
      * simpl. lia.
      * exists t'. split; [assumption|].
        apply traverse_buildings in Ht'. simpl in Ht'. congruence.
    + eauto.
Qed.

Lemma traverse_terminates fuel x a e :
  env_buildings e = b -> enoughFuel b <= fuel ->
  exists e', traverse fuel x a e = Some e'.
Proof.
  intros He Hfuel. apply (traverse_terminates_seen fuel [] x a e); auto.
  - constructor.
  - intros s [].
  - intros s [].
  - unfold enoughFuel in Hfuel. simpl. lia.
Qed.

Lemma resolveTargets_terminates fuel e :
  env_buildings e = b -> enoughFuel b <= fuel ->
  exists e', resolveTargets fuel e = Some e'.
Proof.
  intros He Hfuel. unfold resolveTargets.
  destruct (forEachM_total (fun t => env_buildings t = b)
              (fun t e' => traverse fuel (t_id t) (t_amount t) e')
              (env_targets e) e) as (e' & Hrun & _); eauto.
  intros t s _ Hs.
  destruct (traverse_terminates fuel (t_id t) (t_amount t) s Hs Hfuel) as (s' & Hs').
  exists s'. split; [assumption|].
  apply traverse_buildings in Hs'. congruence.
Qed.

End Termination.

(** ** Unbounded recursion on a cycle *)

Lemma clos_trans_first {A : Type} (R : A -> A -> Prop) x y :
  clos_trans A R x y -> exists z, R x z /\ clos_refl_trans A R z y.
Proof.
  intro H. apply clos_trans_t1n in H. destruct H as [z Hxz|z w Hxz Hzw].
  - exists z. split; [assumption | apply rt_refl].
  - exists z. split; [assumption|].
    apply clos_t1n_trans in Hzw. now apply clos_t_clos_rt.
Qed.

Lemma reachesCycle_step b x :
  reachesCycle b x -> exists i, dependsOn b x i /\ reachesCycle b i.
Proof.
  intros (y & Hxy & Hyy).
  apply clos_rt_rt1n in Hxy. destruct Hxy as [|z w Hxz Hzw].
  - destruct (clos_trans_first _ _ _ Hyy) as (z & Hxz & Hzx).
    exists z. split; [assumption|]. exists x. auto.
  - exists z. split; [assumption|]. exists w. split; [|assumption].
    now apply clos_rt1n_rt.
Qed.

Lemma traverse_diverges b :
  forall fuel x a e,
    reachesCycle b x -> env_buildings e = b -> traverse fuel x a e = None.
Proof.
  induction fuel as [|fuel IH]; intros x a e Hcyc He; [reflexivity|].
  simpl. rewrite He.
  destruct (reachesCycle_step b x Hcyc) as (i & (r & Hfind & Hin) & Hi).
  rewrite Hfind. apply in_map_iff in Hin. destruct Hin as (input & <- & Hin).
  apply (forEachM_stuck (fun t => env_buildings t = b)) with (x := input);
    [exact He | | exact Hin | ].
  - intros y t t' Ht Hrun. apply traverse_buildings in Hrun. simpl in Hrun.
    congruence.
  - intros t Ht. now apply IH.
Qed.

Lemma resolveTargets_diverges b fuel e t :
  env_buildings e = b -> In t (env_targets e) -> reachesCycle b (t_id t) ->
  resolveTargets fuel e = None.
Proof.
  intros He Hin Hcyc. unfold resolveTargets.
  apply (forEachM_stuck (fun s => env_buildings s = b)) with (x := t);
    [exact He | | exact Hin | ].
  - intros y s s' Hs Hrun. apply traverse_buildings in Hrun. congruence.
  - intros s Hs. now apply traverse_diverges with (b := b).
Qed.

Lemma acyclicCheck_sound b : acyclicCheck b = true -> acyclic b.
Proof.
  unfold acyclicCheck. rewrite forallb_forall. intros Hall x Hcyc.
  assert (Hin : In x (outputs b)).
  { destruct (clos_trans_first _ _ _ Hcyc) as (z & Hxz & _).
    eapply dependsOn_outputs; eauto. }
  specialize (Hall x Hin).
  rewrite (traverse_diverges b) in Hall; [discriminate| |reflexivity].
  exists x. split; [apply rt_refl | assumption].
Qed.

(** ** Splitting link keys *)

Lemma split_pipe_nonempty s : split_pipe s <> [].
Proof.
  destruct s as [|c s]; simpl; [discriminate|].
  destruct (Ascii.eqb c pipe); [discriminate|].
  destruct (split_pipe s); discriminate.
Qed.

Lemma split_pipe_free s : pipeFree s = true -> split_pipe s = [s].
Proof.
  induction s as [|c s IH]; simpl; [reflexivity|].
  destruct (Ascii.eqb c pipe); simpl; [discriminate|].
  intro H. now rewrite IH.
Qed.

Lemma split_pipe_app s rest :
  pipeFree s = true ->
  split_pipe (s ++ String pipe rest) = s :: split_pipe rest.
Proof.
  induction s as [|c s IH]; simpl.
  - reflexivity.
  - destruct (Ascii.eqb c pipe); simpl; [discriminate|].
    intro H. now rewrite IH.
Qed.

Lemma split_pipe_linkKey_length i x :
  2 <= List.length (split_pipe (linkKey i x)).
Proof.
  unfold linkKey. induction i as [|c i IH].
  - simpl. pose proof (split_pipe_nonempty x).
    destruct (split_pipe x); simpl; [congruence|lia].
  - change (String c i ++ "|" ++ x)%string with (String c (i ++ "|" ++ x)%string).
    cbn [split_pipe]. destruct (Ascii.eqb c pipe).
    + cbn [List.length]. lia.
    + destruct (split_pipe (i ++ "|" ++ x)%string); cbn [List.length] in *; lia.
Qed.

Lemma keySource_linkKey i x : pipeFree i = true -> keySource (linkKey i x) = i.
Proof.
  intro H. unfold keySource, linkKey. simpl.
  change (String "|" x) with (String pipe x). now rewrite split_pipe_app.
Qed.

Lemma keyTarget_linkKey i x :
  pipeFree i = true -> pipeFree x = true -> keyTarget (linkKey i x) = x.
Proof.
  intros Hi Hx. unfold keyTarget, linkKey. simpl.
  change (String "|" x) with (String pipe x).
  rewrite split_pipe_app by assumption. now rewrite split_pipe_free.
Qed.

(** ** Arithmetic of the accumulators *)

Lemma orZero_Some v : orZero (Some v) = v.
Proof. simpl. destruct (Qc_eq_dec v 0); congruence. Qed.

Lemma outSum_set lm key v n :
  outSum (JSMap.set lm key (orZero (JSMap.get lm key) + v)%Qc) n
  = (outSum lm n + indicator (keySource key) n v)%Qc.
Proof.
  unfold outSum, indicator.
  induction lm as [|[k0 v0] lm IH].
  - simpl. destruct (String.eqb (keySource key) n); simpl; ring.
  - cbn [JSMap.set JSMap.get].
    destruct (String.eqb_spec k0 key) as [->|Hk].
    + rewrite orZero_Some. simpl.
      destruct (String.eqb (keySource key) n); simpl; ring.
    + simpl. destruct (String.eqb (keySource k0) n); simpl; rewrite IH; ring.
Qed.

Lemma accumulate_name node a : sn_name (accumulate node a) = sn_name node.
Proof. unfold accumulate. now destruct (sn_requiredAmount node). Qed.

Lemma visit_nodesOk x a e : nodesOk (env_nodes e) -> nodesOk (env_nodes (visit x a e)).
Proof.
  intros [Hnd Hok]. unfold visit. simpl. split.
  - now apply keys_set_NoDup.
  - intros k node Hin. apply set_In in Hin. destruct Hin as [[-> ->]|Hin]; [|auto].
    rewrite accumulate_name.
    destruct (JSMap.get (env_nodes e) x) as [old|] eqn:Hget.
    + apply get_Some_In in Hget. destruct (Hok _ _ Hget) as [Hname (r & Hr)].
      split; [assumption|]. unfold accumulate. rewrite Hr. simpl. eauto.
    + simpl. split; [reflexivity|]. unfold accumulate. simpl. eauto.
Qed.

Lemma reqOf_visit x a e n :
  nodesOk (env_nodes e) ->
  reqOf (visit x a e) n = (reqOf e n + indicator x n a)%Qc.
Proof.
  intros [Hnd Hok]. unfold reqOf, visit, indicator. simpl.
  destruct (String.eqb_spec x n) as [->|Hne].
  - rewrite get_set_same.
    destruct (JSMap.get (env_nodes e) n) as [old|] eqn:Hget.
    + apply get_Some_In in Hget. destruct (Hok _ _ Hget) as [_ (r & Hr)].
      unfold accumulate. rewrite Hr. simpl. reflexivity.
    + simpl. reflexivity.
  - rewrite get_set_other by assumption. ring.
Qed.

Lemma balance_visit x a e n :
  nodesOk (env_nodes e) ->
  balance (visit x a e) n = (balance e n + indicator x n a)%Qc.
Proof.
  intro H. unfold balance. rewrite reqOf_visit by assumption.
  unfold visit. simpl. ring.
Qed.

Lemma balance_addLink x input v e n :
  pipeFree (ir_id input) = true ->
  balance (addLink x input v e) n
  = (balance e n - indicator (ir_id input) n v)%Qc.
Proof.
  intro H. unfold balance, addLink. cbn [env_linksMap with_linksMap].
  rewrite outSum_set, keySource_linkKey by assumption.
  unfold reqOf. simpl. ring.
Qed.

(** ** The balance of every item through the traversal *)

Lemma findRecipe_inputsPipeFree b x r i :
  inputsPipeFree b -> findRecipe b x = Some r -> In i (inputs (recipe r)) ->
  pipeFree (ir_id i) = true.
Proof.
  intros Hpf Hfind Hin. apply findRecipe_Some in Hfind.
  destruct Hfind as [Hr _]. eapply Hpf; eauto.
Qed.

Lemma traverse_balance :
  forall fuel x a e e',
    inputsPipeFree (env_buildings e) ->
    nodesOk (env_nodes e) ->
    traverse fuel x a e = Some e' ->
    nodesOk (env_nodes e')
    /\ forall n, balance e' n = (balance e n + indicator x n a)%Qc.
Proof.
  induction fuel as [|fuel IH]; simpl; intros x a e e' Hpf Hok H; [discriminate|].
  destruct (findRecipe (env_buildings e) x) as [r|] eqn:Hfind.
  - assert (HP : env_buildings e' = env_buildings e
                 /\ nodesOk (env_nodes e')
                 /\ forall n, balance e' n = (balance e n + indicator x n a)%Qc);
      [|tauto].
    revert H.
    apply (forEachM_inv
             (fun t => env_buildings t = env_buildings e
                       /\ nodesOk (env_nodes t)
                       /\ forall n, balance t n = (balance e n + indicator x n a)%Qc)).
    + split; [reflexivity|]. split; [now apply visit_nodesOk|].
      intro n. now apply balance_visit.
    + intros i t t' Hi (Hb & Hokt & Hbal) Hrun.
      pose proof (traverse_buildings _ _ _ _ _ Hrun) as Hb'. simpl in Hb'.
      apply IH in Hrun; simpl; [| now rewrite Hb | assumption].
      destruct Hrun as [Hok' Hbal'].
      split; [congruence|]. split; [assumption|].
      intro n. rewrite Hbal', balance_addLink, Hbal.
      * ring.
      * eapply findRecipe_inputsPipeFree; eauto.
  - injection H as <-. split; [now apply visit_nodesOk|].
    intro n. now apply balance_visit.
Qed.

Lemma targetSum_cons t ts n :
  targetSum (t :: ts) n = (indicator (t_id t) n (t_amount t) + targetSum ts n)%Qc.
Proof.
  unfold targetSum, indicator. simpl.
  destruct (String.eqb (t_id t) n); simpl; ring.
Qed.

Lemma targets_balance fuel :
  forall ts e e',
    inputsPipeFree (env_buildings e) ->
    nodesOk (env_nodes e) ->
    forEachM (fun t e' => traverse fuel (t_id t) (t_amount t) e') ts e = Some e' ->
    nodesOk (env_nodes e')
    /\ forall n, balance e' n = (balance e n + targetSum ts n)%Qc.
Proof.
  induction ts as [|t ts IH]; simpl; intros e e' Hpf Hok H.
  - injection H as <-. split; [assumption|]. intro n. unfold targetSum. simpl. ring.
  - destruct (traverse fuel (t_id t) (t_amount t) e) as [e1|] eqn:E; [|discriminate].
    pose proof (traverse_buildings _ _ _ _ _ E) as Hb.
    destruct (traverse_balance _ _ _ _ _ Hpf Hok E) as [Hok1 Hbal1].
    apply IH in H; [| now rewrite Hb | assumption].
    destruct H as [Hok' Hbal']. split; [assumption|].
    intro n. rewrite Hbal', Hbal1, targetSum_cons. ring.
Qed.

Lemma pipeFreeIds_inputs b targets :
  pipeFreeIds b targets = true -> inputsPipeFree b.
Proof.
  unfold pipeFreeIds, inputsPipeFree. rewrite andb_true_iff, forallb_forall.
  intros [Hall _] r i Hr Hi. specialize (Hall r Hr).
  rewrite andb_true_iff, forallb_forall in Hall. now apply Hall.
Qed.

Lemma filter_map_comm {A B : Type} (f : B -> bool) (g : A -> B) (l : list A) :
  filter f (map g l) = map g (filter (fun a => f (g a)) l).
Proof.
  induction l as [|a l IH]; simpl; [reflexivity|].
  destruct (f (g a)); simpl; now rewrite IH.
Qed.

Lemma linkSumOutOf_dataOf e n :
  linkSumOutOf (dataOf e) n = outSum (env_linksMap e) n.
Proof.
  unfold linkSumOutOf, outSum, dataOf. simpl.
  rewrite filter_map_comm, map_map. reflexivity.
Qed.

Lemma nodesOk_empty : nodesOk JSMap.empty.
Proof. split; [constructor | intros k node []]. Qed.

(** What the resolver computes for every node, whenever it returns. *)
Lemma resolveTargets_required fuel b targets e :
  inputsPipeFree b ->
  resolveTargets fuel (initEnv b targets) = Some e ->
  forall node, In node (sd_nodes (dataOf e)) ->
    sn_requiredAmount node
    = Some (linkSumOutOf (dataOf e) (sn_name node)
            + targetSum targets (sn_name node))%Qc.
Proof.
  intros Hpf Hrun node Hin. unfold resolveTargets in Hrun. simpl in Hrun.
  apply targets_balance in Hrun; [| assumption | apply nodesOk_empty].
  destruct Hrun as [[Hnd Hok] Hbal].
  simpl in Hin. unfold JSMap.values in Hin. apply in_map_iff in Hin.
  destruct Hin as ([k node'] & Heq & Hin). simpl in Heq. subst node'.
  destruct (Hok _ _ Hin) as [Hname (r & Hr)].
  rewrite Hname, linkSumOutOf_dataOf, Hr. f_equal.
  specialize (Hbal k). unfold balance in Hbal.
  unfold reqOf in Hbal at 1. rewrite (In_get_Some _ _ _ Hnd Hin), Hr in Hbal.
  unfold reqOf in Hbal. simpl in Hbal. unfold outSum in Hbal at 2. simpl in Hbal.
  replace r with ((r - outSum (env_linksMap e) k) + outSum (env_linksMap e) k)%Qc by ring.
  rewrite Hbal. unfold sumQc. simpl. ring.
Qed.

Lemma calculateRequirements_returns b targets fuel :
  acyclic b -> enoughFuel b <= fuel ->
  exists e, resolveTargets fuel (initEnv b targets) = Some e
            /\ calculateRequirements fuel b targets = Some (dataOf e).
Proof.
  intros Hac Hfuel.
  destruct (resolveTargets_terminates b Hac fuel (initEnv b targets))
    as (e & He); [reflexivity | assumption |].
  exists e. split; [assumption|]. unfold calculateRequirements. now rewrite He.
Qed.

(** C1, as the code has it, over exact arithmetic (rates are exact
    rationals, not doubles): for every acyclic catalog whose item ids are
    free of '|' and every target list (whatever its ids),
    [calculateRequirements] returns, and every node's [requiredAmount] is
    the sum of the values of the links whose SOURCE is that node (the rates
    its direct consumers draw from it) plus the sum of the amounts of the
    external targets naming that item. *)
Theorem requiredAmount_is_consumer_links_plus_targets b targets fuel :
  acyclic b ->
  pipeFreeIds b [] = true ->
  enoughFuel b <= fuel ->
  exists d,
    calculateRequirements fuel b targets = Some d
    /\ forall node, In node (sd_nodes d) ->
         sn_requiredAmount node
         = Some (linkSumOutOf d (sn_name node)
                 + targetSum targets (sn_name node))%Qc.
Proof.
  intros Hac Hpf Hfuel.
  destruct (calculateRequirements_returns b targets fuel Hac Hfuel)
    as (e & Hrun & Hcalc).
  exists (dataOf e). split; [assumption|].
  apply (resolveTargets_required fuel b targets e); [|assumption].
  eapply pipeFreeIds_inputs; eauto.
Qed.

(** An instance: the plate chain with its two targets. *)
Lemma requiredAmount_is_consumer_links_plus_targets_witness :
  acyclic plateCatalog
  /\ pipeFreeIds plateCatalog [] = true
  /\ exists d,
       calculateRequirements 3 plateCatalog plateTargets = Some d
       /\ forall node, In node (sd_nodes d) ->
            sn_requiredAmount node
            = Some (linkSumOutOf d (sn_name node)
                    + targetSum plateTargets (sn_name node))%Qc.
Proof.
  assert (Hac : acyclic plateCatalog)
    by (apply acyclicCheck_sound; computed).
  split; [exact Hac|]. split; [computed|].
  apply (requiredAmount_is_consumer_links_plus_targets plateCatalog plateTargets 3).
  - exact Hac.
  - computed.
  - vm_compute; lia.
Defined.

(** C1 as stated fails on the specification's own example: 10 bars per
    minute from a smelter fed with ore. The node "ore" is required at 10,
    yet no link has "ore" as its target and "ore" is no external target. *)
Lemma requiredAmount_is_not_incoming_links :
  acyclic smelterCatalog
  /\ exists d node,
       calculateRequirements 2 smelterCatalog barTarget = Some d
       /\ In node (sd_nodes d)
       /\ sn_name node = "ore"
       /\ sn_requiredAmount node
          <> Some (linkSumInto d (sn_name node)
                   + targetSum barTarget (sn_name node))%Qc.
Proof.
  split; [apply acyclicCheck_sound; computed|].
  eexists. exists (mkSankeyNode "ore" "raw" "Source" None (Some (qz 10))).
  split; [computed|].
  split; [right; left; reflexivity|].
  split; [reflexivity|].
  intro H.
  apply (f_equal (fun o => match o with Some q => this q | None => 0%Q end)) in H.
  miscomputed H.
Qed.

(** C8: on every catalog whose dependency relation is acyclic,
    [calculateRequirements] returns for every target list once the fuel
    exceeds the number of recipes; and since the recursion has no cycle
    guard, a target from which a cycle can be reached exhausts any fuel. *)
Theorem calculateRequirements_terminates_on_acyclic_catalogs b targets :
  (acyclic b ->
   forall fuel, enoughFuel b <= fuel ->
     exists d, calculateRequirements fuel b targets = Some d)
  /\ ((exists t, In t targets /\ reachesCycle b (t_id t)) ->
      forall fuel, calculateRequirements fuel b targets = None).
Proof.
  split.
  - intros Hac fuel Hfuel.
    destruct (calculateRequirements_returns b targets fuel Hac Hfuel)
      as (e & _ & Hcalc).
    eauto.
  - intros (t & Hin & Hcyc) fuel. unfold calculateRequirements.
    rewrite (resolveTargets_diverges b fuel (initEnv b targets) t); auto.
Qed.

(** Instances: the plate chain returns with fuel 3; a demand for steam
    never returns on the catalog that makes steam from water and water
    from steam. *)
Lemma calculateRequirements_terminates_on_acyclic_catalogs_witness :
  (acyclic plateCatalog
   /\ exists d, calculateRequirements 3 plateCatalog plateTargets = Some d)
  /\ (reachesCycle cyclicCatalog "steam"
      /\ forall fuel,
           calculateRequirements fuel cyclicCatalog [mkTarget "steam" (qz 1)]
           = None).
Proof.
  assert (Hac : acyclic plateCatalog)
    by (apply acyclicCheck_sound; computed).
  assert (Hcyc : reachesCycle cyclicCatalog "steam").
  { exists "steam". split; [apply rt_refl|].
    apply t_trans with (y := "water"); apply t_step; eexists;
      (split; [computed | simpl; auto]). }
  split.
  - split; [exact Hac|].
    apply (proj1 (calculateRequirements_terminates_on_acyclic_catalogs
                    plateCatalog plateTargets) Hac 3).
    vm_compute; lia.
  - split; [exact Hcyc|].
    apply (proj2 (calculateRequirements_terminates_on_acyclic_catalogs
                    cyclicCatalog [mkTarget "steam" (qz 1)])).
    exists (mkTarget "steam" (qz 1)). split; [now left | exact Hcyc].
Defined.

(** ** The links join nodes of the result *)

Lemma goodKey_mono e e' key :
  (forall n, hasNode e n -> hasNode e' n) -> goodKey e key -> goodKey e' key.
Proof.
  intros Hmono (i & x & Hk & Hi & Hx & Hni & Hnx).
  exists i, x. repeat split; auto.
Qed.

Lemma hasNode_visit x a e n : hasNode (visit x a e) n <-> n = x \/ hasNode e n.
Proof. unfold hasNode, visit. simpl. apply keys_set_In. Qed.

Lemma traverse_links :
  forall fuel x a e e',
    inputsPipeFree (env_buildings e) ->
    pipeFree x = true ->
    traverse fuel x a e = Some e' ->
    hasNode e' x
    /\ (forall n, hasNode e n -> hasNode e' n)
    /\ (forall key, In key (JSMap.keys (env_linksMap e')) ->
          In key (JSMap.keys (env_linksMap e)) \/ goodKey e' key).
Proof.
  induction fuel as [|fuel IH]; simpl; intros x a e e' Hpf Hx H; [discriminate|].
  destruct (findRecipe (env_buildings e) x) as [r|] eqn:Hfind.
  - assert (HQ : env_buildings e' = env_buildings e
                 /\ hasNode e' x
                 /\ (forall n, hasNode e n -> hasNode e' n)
                 /\ (forall key, In key (JSMap.keys (env_linksMap e')) ->
                       In key (JSMap.keys (env_linksMap e)) \/ goodKey e' key));
      [|tauto].
    revert H.
    apply (forEachM_inv
             (fun t => env_buildings t = env_buildings e
                       /\ hasNode t x
                       /\ (forall n, hasNode e n -> hasNode t n)
                       /\ (forall key, In key (JSMap.keys (env_linksMap t)) ->
                             In key (JSMap.keys (env_linksMap e)) \/ goodKey t key))).
    + split; [reflexivity|]. split; [apply hasNode_visit; now left|].
      split; [intros n Hn; apply hasNode_visit; now right|].
      intros key Hkey. now left.
    + intros i t t' Hi (Hb & Htx & Hmono & Hkeys) Hrun.
      assert (Hpi : pipeFree (ir_id i) = true)
        by (eapply findRecipe_inputsPipeFree; eauto).
      pose proof (traverse_buildings _ _ _ _ _ Hrun) as Hb'. simpl in Hb'.
      apply IH in Hrun; simpl; [| now rewrite Hb | assumption].
      destruct Hrun as (Hti & Hmono' & Hkeys').
      assert (Hstep : forall n, hasNode t n -> hasNode t' n)
        by (intros n Hn; apply Hmono'; exact Hn).
      split; [congruence|]. split; [auto|]. split; [auto|].
      intros key Hkey. destruct (Hkeys' key Hkey) as [Hold|Hgood]; [|now right].
      unfold addLink in Hold. simpl in Hold. apply keys_set_In in Hold.
      destruct Hold as [->|Hold].
      * right. exists (ir_id i), x. repeat split; auto.
      * destruct (Hkeys key Hold) as [?|Hg]; [now left|].
        right. eapply goodKey_mono; eauto.
  - injection H as <-. split; [apply hasNode_visit; now left|].
    split; [intros n Hn; apply hasNode_visit; now right|].
    intros key Hkey. now left.
Qed.

Lemma targets_links fuel :
  forall ts e e',
    inputsPipeFree (env_buildings e) ->
    (forall t, In t ts -> pipeFree (t_id t) = true) ->
    forEachM (fun t e' => traverse fuel (t_id t) (t_amount t) e') ts e = Some e' ->
    (forall n, hasNode e n -> hasNode e' n)
    /\ (forall key, In key (JSMap.keys (env_linksMap e')) ->
          In key (JSMap.keys (env_linksMap e)) \/ goodKey e' key).
Proof.
  induction ts as [|t ts IH]; simpl; intros e e' Hpf Hts H.
  - injection H as <-. split; auto.
  - destruct (traverse fuel (t_id t) (t_amount t) e) as [e1|] eqn:E; [|discriminate].
    pose proof (traverse_buildings _ _ _ _ _ E) as Hb.
    apply traverse_links in E; [| assumption | now apply Hts; left].
    destruct E as (_ & Hmono1 & Hkeys1).
    apply IH in H; [| now rewrite Hb | intros; apply Hts; now right].
    destruct H as (Hmono & Hkeys). split; [auto|].
    intros key Hkey. destruct (Hkeys key Hkey) as [Hold|?]; [|now right].
    destruct (Hkeys1 key Hold) as [?|Hg]; [now left|].
    right. eapply goodKey_mono; eauto.
Qed.

Lemma traverse_linkKeys_NoDup :
  forall fuel x a e e',
    NoDup (JSMap.keys (env_linksMap e)) ->
    traverse fuel x a e = Some e' ->
    NoDup (JSMap.keys (env_linksMap e')).
Proof.
  induction fuel as [|fuel IH]; simpl; intros x a e e' Hnd H; [discriminate|].
  destruct (findRecipe (env_buildings e) x) as [r|].
  - revert H.
    apply (forEachM_inv (fun t => NoDup (JSMap.keys (env_linksMap t)))).
    + exact Hnd.
    + intros i t t' _ Ht Hrun. apply IH in Hrun; [assumption|].
      unfold addLink. simpl. now apply keys_set_NoDup.
  - now injection H as <-.
Qed.

Lemma resolveTargets_linkKeys_NoDup fuel e e' :
  NoDup (JSMap.keys (env_linksMap e)) ->
  resolveTargets fuel e = Some e' ->
  NoDup (JSMap.keys (env_linksMap e')).
Proof.
  intro Hnd. unfold resolveTargets.
  apply (forEachM_inv (fun t => NoDup (JSMap.keys (env_linksMap t)))); auto.
  intros t s s' _ Hs Hrun. eapply traverse_linkKeys_NoDup; eauto.
Qed.

Lemma pipeFreeIds_targets b targets :
  pipeFreeIds b targets = true ->
  forall t, In t targets -> pipeFree (t_id t) = true.
Proof.
  unfold pipeFreeIds. rewrite andb_true_iff, !forallb_forall. intros [_ H]. exact H.
Qed.

Lemma endpoints_linkKey key i x :
  key = linkKey i x -> pipeFree i = true -> pipeFree x = true ->
  endpoints key = (i, x).
Proof.
  intros -> Hi Hx. unfold endpoints.
  now rewrite keySource_linkKey, keyTarget_linkKey.
Qed.

Lemma NoDup_map_inj_on {A B : Type} (f : A -> B) (l : list A) :
  (forall a a', In a l -> In a' l -> f a = f a' -> a = a') ->
  NoDup l -> NoDup (map f l).
Proof.
  induction l as [|a l IH]; simpl; intros Hinj Hnd; [constructor|].
  inversion Hnd as [|? ? Hnotin Hnd']; subst. constructor.
  - intro Hin. apply in_map_iff in Hin. destruct Hin as (a' & Heq & Hin').
    assert (a' = a) by (apply Hinj; auto). now subst.
  - apply IH; auto.
Qed.

Lemma nodes_names e :
  nodesOk (env_nodes e) ->
  map sn_name (sd_nodes (dataOf e)) = JSMap.keys (env_nodes e).
Proof.
  intros [_ Hok]. simpl. unfold JSMap.values, JSMap.keys. rewrite map_map.
  apply map_ext_in. intros [k node] Hin. simpl. now destruct (Hok k node Hin).
Qed.

Lemma links_name_nodes fuel b targets e :
  pipeFreeIds b targets = true ->
  resolveTargets fuel (initEnv b targets) = Some e ->
  forall l, In l (sd_links (dataOf e)) ->
    In (sl_source l) (map sn_name (sd_nodes (dataOf e)))
    /\ In (sl_target l) (map sn_name (sd_nodes (dataOf e))).
Proof.
  intros Hpf Hrun.
  pose proof (pipeFreeIds_inputs _ _ Hpf) as Hin.
  unfold resolveTargets in Hrun. simpl in Hrun.
  destruct (targets_balance fuel targets (initEnv b targets) e Hin
              nodesOk_empty Hrun) as [Hok _].
  destruct (targets_links fuel targets (initEnv b targets) e Hin
              (pipeFreeIds_targets _ _ Hpf) Hrun) as [_ Hkeys].
  assert (Hgood : forall key, In key (JSMap.keys (env_linksMap e)) -> goodKey e key).
  { intros key Hkey. destruct (Hkeys key Hkey) as [[]|]; assumption. }
  rewrite (nodes_names e Hok).
  intros l Hl. simpl in Hl. apply in_map_iff in Hl.
  destruct Hl as ([key v] & <- & Hkv).
  destruct (Hgood key) as (i & x & Hk & Hi & Hx & Hni & Hnx).
  { change key with (fst (key, v)). now apply in_map. }
  pose proof (endpoints_linkKey key i x Hk Hi Hx) as Hends.
  unfold endpoints in Hends. injection Hends as Hs Ht.
  unfold decodeLink. simpl. fold (keySource key) (keyTarget key).
  rewrite Hs, Ht. auto.
Qed.

(** C9: provided no item id of the catalog or of the target list contains
    '|', every link [calculateRequirements] returns has the ids of two nodes
    of the returned node list as source and target, and no two links share
    their (source, target) pair. *)
Theorem links_join_returned_nodes_and_are_distinct b targets fuel d :
  pipeFreeIds b targets = true ->
  calculateRequirements fuel b targets = Some d ->
  (forall l, In l (sd_links d) ->
     In (sl_source l) (map sn_name (sd_nodes d))
     /\ In (sl_target l) (map sn_name (sd_nodes d)))
  /\ NoDup (map (fun l => (sl_source l, sl_target l)) (sd_links d)).
Proof.
  intros Hpf Hcalc. unfold calculateRequirements in Hcalc.
  destruct (resolveTargets fuel (initEnv b targets)) as [e|] eqn:Hrun;
    [|discriminate].
  injection Hcalc as <-.
  pose proof (pipeFreeIds_inputs _ _ Hpf) as Hin.
  pose proof (resolveTargets_linkKeys_NoDup fuel (initEnv b targets) e
                (NoDup_nil _) Hrun) as Hnd.
  unfold resolveTargets in Hrun. simpl in Hrun.
  destruct (targets_balance fuel targets (initEnv b targets) e Hin
              nodesOk_empty Hrun) as [Hok _].
  destruct (targets_links fuel targets (initEnv b targets) e Hin
              (pipeFreeIds_targets _ _ Hpf) Hrun) as [_ Hkeys].
  assert (Hgood : forall key, In key (JSMap.keys (env_linksMap e)) -> goodKey e key).
  { intros key Hkey. destruct (Hkeys key Hkey) as [[]|]; assumption. }
  rewrite (nodes_names e Hok). split.
  - intros l Hl. simpl in Hl. apply in_map_iff in Hl.
    destruct Hl as ([key v] & <- & Hkv).
    destruct (Hgood key) as (i & x & Hk & Hi & Hx & Hni & Hnx).
    { change key with (fst (key, v)). now apply in_map. }
    pose proof (endpoints_linkKey key i x Hk Hi Hx) as Hends.
    unfold endpoints in Hends. injection Hends as Hs Ht.
    unfold decodeLink. simpl. fold (keySource key) (keyTarget key).
    rewrite Hs, Ht. auto.
  - simpl. rewrite map_map.
    change (map (fun kv => (sl_source (decodeLink kv), sl_target (decodeLink kv)))
              (env_linksMap e))
      with (map (fun kv : string * Qc => endpoints (fst kv)) (env_linksMap e)).
    rewrite <- (map_map fst endpoints).
    apply NoDup_map_inj_on; [|exact Hnd].
    intros k k' Hk Hk' Heq.
    destruct (Hgood k Hk) as (i & x & Hkx & Hi & Hx & _).
    destruct (Hgood k' Hk') as (i' & x' & Hkx' & Hi' & Hx' & _).
    rewrite (endpoints_linkKey k i x), (endpoints_linkKey k' i' x') in Heq
      by assumption.
    congruence.
Qed.

(** An instance: the links of the plate chain. *)
Lemma links_join_returned_nodes_and_are_distinct_witness :
  exists d,
    pipeFreeIds plateCatalog plateTargets = true
    /\ calculateRequirements 3 plateCatalog plateTargets = Some d
    /\ (forall l, In l (sd_links d) ->
          In (sl_source l) (map sn_name (sd_nodes d))
          /\ In (sl_target l) (map sn_name (sd_nodes d)))
    /\ NoDup (map (fun l => (sl_source l, sl_target l)) (sd_links d)).
Proof.
  eexists. split; [computed|].
  split; [computed|].
  eapply (links_join_returned_nodes_and_are_distinct plateCatalog plateTargets 3).
  - computed.
  - computed.
Defined.

(** With '|' inside an item id the decoded link names no node: the key
    "tin|lead|alloy" splits into source "tin" and target "lead". *)
Lemma piped_id_breaks_links :
  exists d l,
    calculateRequirements 2 pipedCatalog [mkTarget "alloy" (qz 1)] = Some d
    /\ In l (sd_links d)
    /\ sl_source l = "tin" /\ sl_target l = "lead"
    /\ ~ In (sl_source l) (map sn_name (sd_nodes d)).
Proof.
  eexists. exists (mkSankeyLink "tin" "lead" (qz 1)).
  split; [computed|].
  split; [left; reflexivity|].
  split; [reflexivity|]. split; [reflexivity|].
  simpl. intros [H|[H|[]]]; discriminate.
Qed.

(** ** Additivity in the target rate *)

Section Rel3.
Context {V : Type}.
Variable R : V -> V -> V -> Prop.

Lemma rel3_get m1 m2 m12 k :
  rel3 R m1 m2 m12 ->
  (JSMap.get m1 k = None /\ JSMap.get m2 k = None /\ JSMap.get m12 k = None)
  \/ exists v1 v2 v12,
       JSMap.get m1 k = Some v1 /\ JSMap.get m2 k = Some v2
       /\ JSMap.get m12 k = Some v12 /\ R v1 v2 v12.
Proof.
  induction 1 as [|[k1 v1] [k2 v2] [k12 v12] m1 m2 m12 (H1 & H2 & HR) _ IH];
    simpl in *.
  - now left.
  - subst k1 k2. destruct (String.eqb k12 k); [|exact IH].
    right. exists v1, v2, v12. auto.
Qed.

Lemma rel3_set m1 m2 m12 k v1 v2 v12 :
  rel3 R m1 m2 m12 -> R v1 v2 v12 ->
  rel3 R (JSMap.set m1 k v1) (JSMap.set m2 k v2) (JSMap.set m12 k v12).
Proof.
  intros H HR.
  induction H as [|[k1 w1] [k2 w2] [k12 w12] m1 m2 m12 (H1 & H2 & Hw) Hrest IH];
    simpl in *.
  - constructor; [simpl; auto | constructor].
  - subst k1 k2. destruct (String.eqb k12 k).
    + constructor; [simpl; auto | assumption].
    + constructor; [simpl; auto | assumption].
Qed.

End Rel3.

Lemma Forall3_map {A B C A' B' C' : Type} (R : A' -> B' -> C' -> Prop)
  (f : A -> A') (g : B -> B') (h : C -> C') la lb lc :
  Forall3 (fun a b c => R (f a) (g b) (h c)) la lb lc ->
  Forall3 R (map f la) (map g lb) (map h lc).
Proof. induction 1; simpl; constructor; auto. Qed.

Lemma Forall3_impl {A B C : Type} (R R' : A -> B -> C -> Prop) la lb lc :
  (forall a b c, R a b c -> R' a b c) ->
  Forall3 R la lb lc -> Forall3 R' la lb lc.
Proof. intros HR. induction 1; constructor; auto. Qed.

Lemma forEachM_rel3 {A S : Type} (R : S -> S -> S -> Prop)
  (f1 f2 f12 : A -> S -> option S) :
  forall xs s1 s2 s12 s1' s2' s12',
    R s1 s2 s12 ->
    (forall x t1 t2 t12 t1' t2' t12',
        In x xs -> R t1 t2 t12 ->
        f1 x t1 = Some t1' -> f2 x t2 = Some t2' -> f12 x t12 = Some t12' ->
        R t1' t2' t12') ->
    forEachM f1 xs s1 = Some s1' ->
    forEachM f2 xs s2 = Some s2' ->
    forEachM f12 xs s12 = Some s12' ->
    R s1' s2' s12'.
Proof.
  induction xs as [|x xs IH]; simpl; intros s1 s2 s12 s1' s2' s12' HR Hstep H1 H2 H12.
  - congruence.
  - destruct (f1 x s1) as [t1|] eqn:E1; [|discriminate].
    destruct (f2 x s2) as [t2|] eqn:E2; [|discriminate].
    destruct (f12 x s12) as [t12|] eqn:E12; [|discriminate].
    apply (IH t1 t2 t12); eauto.
Qed.

Lemma accumulate_adds n1 n2 n12 a1 a2 :
  nodeAdds n1 n2 n12 ->
  nodeAdds (accumulate n1 a1) (accumulate n2 a2) (accumulate n12 (a1 + a2)%Qc).
Proof.
  intros (H1 & H2 & r1 & r2 & Hr1 & Hr2 & Hr12).
  unfold nodeAdds, accumulate. rewrite Hr1, Hr2, Hr12. simpl.
  split; [assumption|]. split; [assumption|].
  exists (r1 + a1)%Qc, (r2 + a2)%Qc.
  split; [reflexivity|]. split; [reflexivity|]. apply (f_equal Some). ring.
Qed.

Lemma newNode_adds x r : nodeAdds (newNode x r) (newNode x r) (newNode x r).
Proof.
  unfold nodeAdds. simpl. split; [reflexivity|]. split; [reflexivity|].
  exists 0%Qc, 0%Qc.
  split; [reflexivity|]. split; [reflexivity|]. apply (f_equal Some). ring.
Qed.

Lemma visit_adds x a1 a2 e1 e2 e12 :
  envAdds e1 e2 e12 ->
  envAdds (visit x a1 e1) (visit x a2 e2) (visit x (a1 + a2)%Qc e12).
Proof.
  intros (Hb1 & Hb2 & Hn & Hl). unfold envAdds, visit. simpl.
  repeat split; auto. rewrite Hb1, Hb2.
  apply rel3_set; [assumption|]. apply accumulate_adds.
  destruct (rel3_get nodeAdds _ _ _ x Hn)
    as [(-> & -> & ->)|(v1 & v2 & v12 & -> & -> & -> & HR)].
  - apply newNode_adds.
  - exact HR.
Qed.

Lemma addLink_adds x i v1 v2 e1 e2 e12 :
  envAdds e1 e2 e12 ->
  envAdds (addLink x i v1 e1) (addLink x i v2 e2) (addLink x i (v1 + v2)%Qc e12).
Proof.
  intros (Hb1 & Hb2 & Hn & Hl). unfold envAdds, addLink. simpl.
  repeat split; auto. apply rel3_set; [assumption|].
  destruct (rel3_get valueAdds _ _ _ (linkKey (ir_id i) x) Hl)
    as [(-> & -> & ->)|(w1 & w2 & w12 & -> & -> & -> & HR)].
  - unfold valueAdds. simpl. ring.
  - rewrite !orZero_Some. unfold valueAdds in *. subst w12. ring.
Qed.

Lemma inputAmount_adds (rate a1 a2 out : Qc) :
  (rate * ((a1 + a2) / out) = rate * (a1 / out) + rate * (a2 / out))%Qc.
Proof. unfold Qcdiv. ring. Qed.

Lemma traverse_adds :
  forall fuel x a1 a2 e1 e2 e12 e1' e2' e12',
    envAdds e1 e2 e12 ->
    traverse fuel x a1 e1 = Some e1' ->
    traverse fuel x a2 e2 = Some e2' ->
    traverse fuel x (a1 + a2)%Qc e12 = Some e12' ->
    envAdds e1' e2' e12'.
Proof.
  induction fuel as [|fuel IH]; simpl;
    intros x a1 a2 e1 e2 e12 e1' e2' e12' Hadd H1 H2 H12; [discriminate|].
  pose proof Hadd as (Hb1 & Hb2 & _).
  rewrite Hb1 in H1. rewrite Hb2 in H2.
  destruct (findRecipe (env_buildings e12) x) as [r|].
  - revert H1 H2 H12. apply forEachM_rel3.
    + now apply visit_adds.
    + intros i t1 t2 t12 t1' t2' t12' _ Ht R1 R2 R12.
      rewrite inputAmount_adds in R12.
      eapply IH; [|exact R1|exact R2|exact R12].
      now apply addLink_adds.
  - injection H1 as <-. injection H2 as <-. injection H12 as <-.
    now apply visit_adds.
Qed.

Lemma decodeLink_adds (kv1 kv2 kv12 : string * Qc) :
  fst kv1 = fst kv12 /\ fst kv2 = fst kv12
  /\ valueAdds (snd kv1) (snd kv2) (snd kv12) ->
  linkAdds (decodeLink kv1) (decodeLink kv2) (decodeLink kv12).
Proof.
  intros (H1 & H2 & Hv). unfold linkAdds, decodeLink. simpl.
  rewrite H1, H2. auto.
Qed.

(** C4: over exact rationals demand resolution is additive in the target
    rate. On an acyclic catalog the runs on (item, r1), (item, r2) and
    (item, r1 + r2) all return; they list the same nodes and the same
    (source, target) links in the same order, and each required amount and
    each link value of the third run is the sum of those of the first two. *)
Theorem demand_is_additive_in_target_rate b item r1 r2 fuel :
  acyclic b ->
  enoughFuel b <= fuel ->
  exists d1 d2 d12,
    calculateRequirements fuel b [mkTarget item r1] = Some d1
    /\ calculateRequirements fuel b [mkTarget item r2] = Some d2
    /\ calculateRequirements fuel b [mkTarget item (r1 + r2)%Qc] = Some d12
    /\ Forall3 nodeAdds (sd_nodes d1) (sd_nodes d2) (sd_nodes d12)
    /\ Forall3 linkAdds (sd_links d1) (sd_links d2) (sd_links d12).
Proof.
  intros Hac Hfuel.
  destruct (calculateRequirements_returns b [mkTarget item r1] fuel Hac Hfuel)
    as (e1 & Hrun1 & Hcalc1).
  destruct (calculateRequirements_returns b [mkTarget item r2] fuel Hac Hfuel)
    as (e2 & Hrun2 & Hcalc2).
  destruct (calculateRequirements_returns b [mkTarget item (r1 + r2)%Qc] fuel
              Hac Hfuel) as (e12 & Hrun12 & Hcalc12).
  exists (dataOf e1), (dataOf e2), (dataOf e12).
  repeat (split; [assumption|]).
  unfold resolveTargets in Hrun1, Hrun2, Hrun12. simpl in Hrun1, Hrun2, Hrun12.
  destruct (traverse fuel item r1 _) as [e1'|] eqn:E1; [|discriminate].
  destruct (traverse fuel item r2 _) as [e2'|] eqn:E2; [|discriminate].
  destruct (traverse fuel item (r1 + r2)%Qc _) as [e12'|] eqn:E12; [|discriminate].
  injection Hrun1 as ->. injection Hrun2 as ->. injection Hrun12 as ->.
  assert (Hadd : envAdds e1 e2 e12).
  { eapply traverse_adds; [|exact E1|exact E2|exact E12].
    unfold envAdds, initEnv. simpl. repeat split; constructor. }
  destruct Hadd as (_ & _ & Hn & Hl). split.
  - simpl. unfold JSMap.values. apply Forall3_map.
    eapply Forall3_impl; [|exact Hn]. simpl. tauto.
  - simpl. apply Forall3_map.
    eapply Forall3_impl; [|exact Hl]. intros; now apply decodeLink_adds.
Qed.

(** An instance: plates at rates 10, 4 and 10 + 4. *)
Lemma demand_is_additive_in_target_rate_witness :
  acyclic plateCatalog
  /\ exists d1 d2 d12,
       calculateRequirements 3 plateCatalog [mkTarget "plate" (qz 10)] = Some d1
       /\ calculateRequirements 3 plateCatalog [mkTarget "plate" (qz 4)] = Some d2
       /\ calculateRequirements 3 plateCatalog
            [mkTarget "plate" (qz 10 + qz 4)%Qc] = Some d12
       /\ Forall3 nodeAdds (sd_nodes d1) (sd_nodes d2) (sd_nodes d12)
       /\ Forall3 linkAdds (sd_links d1) (sd_links d2) (sd_links d12).
Proof.
  assert (Hac : acyclic plateCatalog)
    by (apply acyclicCheck_sound; computed).
  split; [exact Hac|].
  apply (demand_is_additive_in_target_rate plateCatalog "plate" (qz 10) (qz 4) 3).
  - exact Hac.
  - vm_compute; lia.
Defined.

(** ** The inputs are left as they were *)

(** C10: [calculateRequirements], [optimizeLayout] and
    [runGeneticOptimization] leave the catalog (the buildings array with
    every building and recipe in it) and the targets array exactly as they
    were passed in: whenever a call returns, both are unchanged. *)
Theorem inputs_are_left_unmodified fuel embed sh rnd b targets k splitCs cs
  params attempts :
  (forall b' targets',
      argumentsAfter fuel b targets = Some (b', targets') ->
      b' = b /\ targets' = targets)
  /\ (forall run,
        optimizeLayout fuel embed sh b targets k splitCs cs attempts = Some run ->
        run_buildings run = b /\ run_targets run = targets)
  /\ (forall run,
        runGeneticOptimization fuel rnd b targets params attempts = Some run ->
        run_buildings run = b /\ run_targets run = targets).
Proof.
  unfold argumentsAfter, optimizeLayout, runGeneticOptimization.
  destruct (resolveTargets fuel (initEnv b targets)) as [e|] eqn:Hrun.
  - apply resolveTargets_frame in Hrun. cbn [initEnv env_buildings env_targets] in Hrun.
    destruct Hrun as [Hb Ht]. split; [|split].
    + cbn [option_map]. intros b' targets' H. injection H as <- <-. auto.
    + intros run H. injection H as <-. auto.
    + intros run H. injection H as <-. auto.
  - split; [|split]; intros; discriminate.
Qed.

(** An instance: the three functions on the plate chain. *)
Lemma inputs_are_left_unmodified_witness :
  argumentsAfter 3 plateCatalog plateTargets = Some (plateCatalog, plateTargets)
  /\ (exists run,
        optimizeLayout 3 sampleEmbedding identityShuffler plateCatalog
          plateTargets 2 [] [] 2 = Some run
        /\ run_buildings run = plateCatalog /\ run_targets run = plateTargets)
  /\ (exists run,
        runGeneticOptimization 3 sampleRandom plateCatalog plateTargets
          sampleParams 2 = Some run
        /\ run_buildings run = plateCatalog /\ run_targets run = plateTargets).
Proof.
  destruct (inputs_are_left_unmodified 3 sampleEmbedding identityShuffler
              sampleRandom plateCatalog plateTargets 2 [] [] sampleParams 2)
    as (H1 & H2 & H3).
  split; [|split].
  - destruct (argumentsAfter 3 plateCatalog plateTargets) as [[b' t']|] eqn:E.
    + destruct (H1 b' t' eq_refl) as [-> ->]. reflexivity.
    + miscomputed E.
  - destruct (optimizeLayout 3 sampleEmbedding identityShuffler plateCatalog
                plateTargets 2 [] [] 2) as [run|] eqn:E.
    + exists run. split; [reflexivity | apply H2; reflexivity].
    + miscomputed E.
  - destruct (runGeneticOptimization 3 sampleRandom plateCatalog plateTargets
                sampleParams 2) as [run|] eqn:E.
    + exists run. split; [reflexivity | apply H3; reflexivity].
    + miscomputed E.
Defined.

(** ** The reported cross-cluster flow *)

Lemma traverse_nodesOk :
  forall fuel x a e e',
    nodesOk (env_nodes e) -> traverse fuel x a e = Some e' ->
    nodesOk (env_nodes e').
Proof.
  induction fuel as [|fuel IH]; simpl; intros x a e e' Hok H; [discriminate|].
  destruct (findRecipe (env_buildings e) x) as [r|].
  - revert H. apply (forEachM_inv (fun t => nodesOk (env_nodes t))).
    + now apply visit_nodesOk.
    + intros i t t' _ Ht Hrun. apply IH in Hrun; assumption.
  - injection H as <-. now apply visit_nodesOk.
Qed.

Lemma resolveTargets_nodesOk fuel b targets e :
  resolveTargets fuel (initEnv b targets) = Some e -> nodesOk (env_nodes e).
Proof.
  unfold resolveTargets.
  apply (forEachM_inv (fun t => nodesOk (env_nodes t))).
  - apply nodesOk_empty.
  - intros t s s' _ Hs Hrun. eapply traverse_nodesOk; eauto.
Qed.

Lemma fold_left_cond_sum {A : Type} (p : A -> bool) (v : A -> Qc) l a :
  fold_left (fun acc x => if p x then (acc + v x)%Qc else acc) l a
  = (a + sumQc (map v (filter p l)))%Qc.
Proof.
  revert a. induction l as [|x l IH]; simpl; intro a.
  - ring.
  - rewrite IH. destruct (p x); simpl; ring.
Qed.

Lemma fold_left_pointwise {A B : Type} (f g : A -> B -> A) :
  (forall a b, f a b = g a b) ->
  forall l a, fold_left f l a = fold_left g l a.
Proof.
  intros H l. induction l as [|b l IH]; simpl; intro a; [reflexivity|].
  now rewrite H, IH.
Qed.

Lemma crossFlowBy_filter lookup links :
  crossFlowBy lookup links
  = sumQc (map ml_value (filter (crossesBy lookup) links)).
Proof.
  unfold crossFlowBy.
  rewrite (fold_left_pointwise
             (fun acc l =>
                match lookup (ml_source l), lookup (ml_target l) with
                | Some sC, Some tC => if Z.eqb sC tC then acc else (acc + ml_value l)%Qc
                | _, _ => acc
                end)
             (fun acc l => if crossesBy lookup l then (acc + ml_value l)%Qc else acc)).
  - rewrite fold_left_cond_sum. ring.
  - intros acc l. unfold crossesBy.
    destruct (lookup (ml_source l)), (lookup (ml_target l)); try reflexivity.
    now destruct (Z.eqb z z0).
Qed.

Section OfEntries.
Context {V : Type}.

Lemma fold_set_keys (es : list (string * V)) :
  forall m k,
    In k (JSMap.keys (fold_left (fun m e => JSMap.set m (fst e) (snd e)) es m))
    <-> In k (map fst es) \/ In k (JSMap.keys m).
Proof.
  induction es as [|[k0 v0] es IH]; simpl; intros m k.
  - tauto.
  - rewrite IH, keys_set_In. split; intros H; intuition congruence.
Qed.

Lemma fold_set_get_In (es : list (string * V)) :
  forall m k v,
    JSMap.get (fold_left (fun m e => JSMap.set m (fst e) (snd e)) es m) k = Some v ->
    In (k, v) es \/ JSMap.get m k = Some v.
Proof.
  induction es as [|[k0 v0] es IH]; simpl; intros m k v H.
  - now right.
  - destruct (IH _ _ _ H) as [Hin|Hget]; [now left; right|].
    destruct (string_dec k0 k) as [->|Hne].
    + rewrite get_set_same in Hget. injection Hget as ->. now left; left.
    + rewrite get_set_other in Hget by assumption. now right.
Qed.

Lemma fold_set_get_notin (es : list (string * V)) :
  forall m k,
    ~ In k (map fst es) ->
    JSMap.get (fold_left (fun m e => JSMap.set m (fst e) (snd e)) es m) k
    = JSMap.get m k.
Proof.
  induction es as [|[k0 v0] es IH]; simpl; intros m k Hn; [reflexivity|].
  rewrite IH by tauto. apply get_set_other. intuition congruence.
Qed.

Lemma of_entries_get_In (es : list (string * V)) k v :
  NoDup (map fst es) -> In (k, v) es ->
  JSMap.get (JSMap.of_entries es) k = Some v.
Proof.
  unfold JSMap.of_entries. generalize (@JSMap.empty V).
  induction es as [|[k0 v0] es IH]; simpl; intros m Hnd Hin; [tauto|].
  inversion Hnd as [|? ? Hnotin Hnd']; subst.
  destruct Hin as [[= -> ->]|Hin].
  - rewrite fold_set_get_notin by assumption. apply get_set_same.
  - now apply IH.
Qed.

Lemma of_entries_get_None (es : list (string * V)) k :
  ~ In k (map fst es) -> JSMap.get (JSMap.of_entries es) k = None.
Proof.
  intro Hn. unfold JSMap.of_entries. now rewrite fold_set_get_notin.
Qed.

Lemma of_entries_get_Some (es : list (string * V)) k v :
  JSMap.get (JSMap.of_entries es) k = Some v -> In (k, v) es.
Proof.
  intro H. apply fold_set_get_In in H. destruct H as [H|H]; [assumption|].
  discriminate.
Qed.

End OfEntries.

Lemma findNode_Some nodes id n :
  findNode nodes id = Some n -> In n nodes /\ mn_id n = id.
Proof.
  unfold findNode. intro H. apply find_some in H. destruct H as [Hin Heq].
  split; [assumption | now apply String.eqb_eq].
Qed.

Lemma findNode_None nodes id :
  findNode nodes id = None <-> ~ In id (map mn_id nodes).
Proof.
  unfold findNode. split.
  - intros H Hin. apply in_map_iff in Hin. destruct Hin as (n & <- & Hn).
    pose proof (find_none _ _ H n Hn) as Hf. simpl in Hf.
    now rewrite String.eqb_refl in Hf.
  - intro Hn. induction nodes as [|n nodes IH]; simpl in *; [reflexivity|].
    destruct (String.eqb_spec (mn_id n) id); [tauto|]. apply IH. tauto.
Qed.

Lemma findNode_nth nodes :
  NoDup (map mn_id nodes) ->
  forall i n, nth_error nodes i = Some n -> findNode nodes (mn_id n) = Some n.
Proof.
  unfold findNode.
  induction nodes as [|a nodes IH]; intros Hnd i n Hnth.
  - now destruct i.
  - simpl in Hnd. inversion Hnd as [|? ? Hnotin Hnd']; subst.
    destruct i as [|i]; simpl in *.
    + injection Hnth as ->. now rewrite String.eqb_refl.
    + destruct (String.eqb_spec (mn_id a) (mn_id n)) as [Heq|Hne].
      * exfalso. apply Hnotin. rewrite Heq. apply in_map.
        eapply nth_error_In; eauto.
      * eapply IH; eauto.
Qed.

Lemma nodeClusterLookup_find nodes id :
  NoDup (map mn_id nodes) ->
  nodeClusterLookup nodes id
  = match findNode nodes id with
    | Some n => mn_clusterId n
    | None => None
    end.
Proof.
  intro Hnd. unfold nodeClusterLookup.
  destruct (findNode nodes id) as [n|] eqn:Hfind.
  - apply findNode_Some in Hfind. destruct Hfind as [Hin <-].
    rewrite (of_entries_get_In _ (mn_id n) (mn_clusterId n)); [reflexivity| |].
    + now rewrite map_map.
    + apply (in_map (fun n => (mn_id n, mn_clusterId n))) in Hin. exact Hin.
  - apply findNode_None in Hfind.
    rewrite of_entries_get_None; [reflexivity|]. now rewrite map_map.
Qed.

Lemma map_mapiFrom {A B C : Type} (g : B -> C) (g' : A -> C) (f : A -> nat -> B) :
  (forall x i, g (f x i) = g' x) ->
  forall xs s, map g (mapiFrom s f xs) = map g' xs.
Proof.
  intros H xs. induction xs as [|x xs IH]; simpl; intro s; [reflexivity|].
  now rewrite H, IH.
Qed.

Lemma nth_error_mapiFrom {A B : Type} (f : A -> nat -> B) :
  forall xs s j,
    nth_error (mapiFrom s f xs) j
    = option_map (fun x => f x (s + j)) (nth_error xs j).
Proof.
  induction xs as [|x xs IH]; intros s j.
  - now destruct j.
  - destruct j as [|j]; simpl.
    + now rewrite Nat.add_0_r.
    + rewrite IH. now rewrite Nat.add_succ_r.
Qed.

Lemma In_mapi {A B : Type} (f : A -> nat -> B) xs y :
  In y (mapi f xs) -> exists j x, nth_error xs j = Some x /\ y = f x j.
Proof.
  intro H. apply In_nth_error in H. destruct H as [j Hj].
  unfold mapi in Hj. rewrite nth_error_mapiFrom in Hj. simpl in Hj.
  destruct (nth_error xs j) as [x|] eqn:E; [|discriminate].
  injection Hj as <-. eauto.
Qed.

Lemma length_mapiFrom {A B : Type} (f : A -> nat -> B) :
  forall xs s, List.length (mapiFrom s f xs) = List.length xs.
Proof. induction xs; simpl; auto. Qed.

Lemma machineNodes_ids e :
  nodesOk (env_nodes e) ->
  NoDup (map mn_id (map toMachineNode (sd_nodes (dataOf e)))).
Proof.
  intro Hok. rewrite map_map.
  change (map (fun x => mn_id (toMachineNode x)) (sd_nodes (dataOf e)))
    with (map sn_name (sd_nodes (dataOf e))).
  rewrite nodes_names by assumption. now destruct Hok.
Qed.

Lemma crossesBy_spec nodes l :
  NoDup (map mn_id nodes) -> uniformClusters nodes ->
  crossesBy (nodeClusterLookup nodes) l = crossesClusters nodes l.
Proof.
  intros Hnd Huni. unfold crossesBy, crossesClusters.
  rewrite !nodeClusterLookup_find by assumption.
  destruct (findNode nodes (ml_source l)) as [s|] eqn:Hs; [|reflexivity].
  destruct (findNode nodes (ml_target l)) as [t|] eqn:Ht;
    [|now destruct (mn_clusterId s)].
  apply findNode_Some in Hs, Ht. destruct Hs as [Hs _], Ht as [Ht _].
  destruct Huni as [Hnone|Hsome].
  - now rewrite (Hnone s Hs), (Hnone t Ht).
  - destruct (Hsome s Hs) as [cs ->], (Hsome t Ht) as [ct ->]. reflexivity.
Qed.

Lemma clusterNodes_shape sh nodes links k splitCs attempts nodes' :
  (forall n, In n nodes -> mn_clusterId n = None) ->
  clusterNodes sh nodes links k splitCs attempts = Resolved nodes' ->
  map mn_id nodes' = map mn_id nodes /\ uniformClusters nodes'.
Proof.
  intros Hnone. unfold clusterNodes.
  destruct (filter isItem nodes) as [|it items].
  - intros [= <-]. split; [reflexivity | now left].
  - destruct (kmeansPasses _ _ _ _ _ _ _ _) as [best|err]; simpl; [|discriminate].
    intros [= <-]. split.
    + rewrite map_map. reflexivity.
    + right. intros n Hin. apply in_map_iff in Hin.
      destruct Hin as (n0 & <- & _). simpl. eauto.
Qed.

Lemma settle_shape embed nodes simLinks :
  map mn_id (settle embed nodes simLinks) = map mn_id nodes
  /\ forall n, In n (settle embed nodes simLinks) ->
       exists n0, In n0 nodes /\ mn_clusterId n = mn_clusterId n0.
Proof.
  unfold settle, mapi. split.
  - now apply map_mapiFrom.
  - intros n Hin. apply (In_mapi _ nodes n) in Hin.
    destruct Hin as (j & x & Hj & ->). exists x.
    split; [eapply nth_error_In; eauto | reflexivity].
Qed.

Lemma simulate_settled {A : Type} embed nodes simLinks
  (K : list MachineNode -> Outcome A) r :
  (ns <- simulate embed nodes simLinks ;; K ns) = Resolved r ->
  K (settle embed nodes simLinks) = Resolved r.
Proof.
  unfold simulate. destruct (missingNode nodes simLinks); cbn [bindO];
    [intro; discriminate | auto].
Qed.

Lemma missingNode_None nodes simLinks :
  (forall l, In l simLinks ->
     hasNodeId nodes (sim_source l) = true
     /\ hasNodeId nodes (sim_target l) = true) ->
  missingNode nodes simLinks = None.
Proof.
  induction simLinks as [|l rest IH]; intro H; simpl; [reflexivity|].
  destruct (H l (or_introl eq_refl)) as [-> ->]. simpl.
  apply IH. intros l' Hl'. apply H. now right.
Qed.

Lemma hasNodeId_In nodes a :
  hasNodeId nodes a = true <-> In a (map mn_id nodes).
Proof.
  unfold hasNodeId. rewrite existsb_exists, in_map_iff. split.
  - intros (n & Hin & Heq). apply String.eqb_eq in Heq. eauto.
  - intros (n & Heq & Hin). exists n. split; [assumption|].
    now apply String.eqb_eq.
Qed.

Lemma simLinksOf_joined nodes links cs :
  (forall l, In l links ->
     hasNodeId nodes (ml_source l) = true
     /\ hasNodeId nodes (ml_target l) = true) ->
  forall l, In l (simLinksOf nodes links cs) ->
    hasNodeId nodes (sim_source l) = true
    /\ hasNodeId nodes (sim_target l) = true.
Proof.
  intro Hlinks. unfold simLinksOf.
  set (start := map _ links).
  assert (Hstart : forall l, In l start ->
            hasNodeId nodes (sim_source l) = true
            /\ hasNodeId nodes (sim_target l) = true).
  { intros l Hl. apply in_map_iff in Hl. destruct Hl as (l0 & <- & Hl0).
    simpl. now apply Hlinks. }
  clearbody start. revert start Hstart.
  induction cs as [|[a c] cs IH]; simpl; intros start Hstart; [exact Hstart|].
  apply IH.
  destruct (hasNodeId nodes a && hasNodeId nodes c) eqn:Hac; [|exact Hstart].
  apply andb_true_iff in Hac.
  intros l Hl. apply in_app_iff in Hl. destruct Hl as [Hl|[<-|[]]]; auto.
Qed.

(** With ids free of '|' the link force finds every node. *)
Lemma simulate_joined fuel embed b targets cs e :
  pipeFreeIds b targets = true ->
  resolveTargets fuel (initEnv b targets) = Some e ->
  simulate embed (map toMachineNode (sd_nodes (dataOf e)))
    (simLinksOf (map toMachineNode (sd_nodes (dataOf e)))
       (map toMachineLink (sd_links (dataOf e))) cs)
  = Resolved
      (settle embed (map toMachineNode (sd_nodes (dataOf e)))
         (simLinksOf (map toMachineNode (sd_nodes (dataOf e)))
            (map toMachineLink (sd_links (dataOf e))) cs)).
Proof.
  intros Hpf Hrun. unfold simulate. rewrite missingNode_None; [reflexivity|].
  apply simLinksOf_joined. intros l Hl.
  apply in_map_iff in Hl. destruct Hl as (l0 & <- & Hl0).
  destruct (links_name_nodes fuel b targets e Hpf Hrun l0 Hl0) as [Hs Ht].
  rewrite !hasNodeId_In, map_map.
  change (map (fun x => mn_id (toMachineNode x)) (sd_nodes (dataOf e)))
    with (map sn_name (sd_nodes (dataOf e))).
  now split.
Qed.

(** With '|' inside an item id the link force finds no node "tin": the
    layout is rejected before anything is clustered. *)
Lemma piped_id_rejects_the_layout :
  exists run,
    optimizeLayout 2 sampleEmbedding identityShuffler pipedCatalog
      [mkTarget "alloy" (qz 1)] 2 [] [] 2 = Some run
    /\ run_outcome run = Rejected "node not found: tin".
Proof. eexists. split; [computed | computed]. Qed.

Lemma forEachO_pure {A S : Type} (f : A -> S -> Outcome S) (g : S -> A -> S) :
  (forall x s, f x s = Resolved (g s x)) ->
  forall xs s, forEachO f xs s = Resolved (fold_left g xs s).
Proof.
  intros H xs. induction xs as [|x xs IH]; simpl; intro s; [reflexivity|].
  rewrite H. simpl. apply IH.
Qed.

Lemma nodeIndex_lookup nodes id :
  NoDup (map mn_id nodes) ->
  match JSMap.get (nodeIndexMap nodes) id with
  | Some i => exists n, nth_error nodes i = Some n /\ findNode nodes id = Some n
  | None => findNode nodes id = None
  end.
Proof.
  intro Hnd. unfold nodeIndexMap.
  destruct (JSMap.get _ id) as [i|] eqn:Hget.
  - apply of_entries_get_Some in Hget. apply In_mapi in Hget.
    destruct Hget as (j & n & Hj & [= -> ->]).
    exists n. split; [assumption|]. eapply findNode_nth; eauto.
  - apply findNode_None. intro Hin.
    assert (Hkeys : In id (map fst (mapi (fun n i => (mn_id n, i)) nodes))).
    { unfold mapi. now rewrite (map_mapiFrom fst mn_id). }
    apply in_map_iff in Hkeys. destruct Hkeys as ([k i] & Hk & Hki).
    simpl in Hk. subst k.
    assert (Hnd' : NoDup (map fst (mapi (fun n i => (mn_id n, i)) nodes))).
    { unfold mapi. now rewrite (map_mapiFrom fst mn_id). }
    rewrite (of_entries_get_In _ id i Hnd' Hki) in Hget. discriminate.
Qed.

Lemma assigned_gene i nodes j n :
  nth_error (mapi (fun n idx => setClusterId n (geneAt i idx)) nodes) j = Some n ->
  mn_clusterId n = geneAt i j.
Proof.
  unfold mapi. rewrite nth_error_mapiFrom. simpl.
  destruct (nth_error nodes j); simpl; [|discriminate].
  now intros [= <-].
Qed.

Lemma gaCrossFlow_spec i nodes links :
  NoDup (map mn_id nodes) ->
  gaCrossFlow (mapi (fun n idx => setClusterId n (geneAt i idx)) nodes) links
    (Some i)
  = Resolved
      (crossFlowSpec (mapi (fun n idx => setClusterId n (geneAt i idx)) nodes)
         links).
Proof.
  intro Hnd.
  set (nodes' := mapi (fun n idx => setClusterId n (geneAt i idx)) nodes).
  assert (Hnd' : NoDup (map mn_id nodes')).
  { unfold nodes', mapi. now rewrite (map_mapiFrom mn_id mn_id). }
  unfold gaCrossFlow, crossFlowSpec.
  rewrite (forEachO_pure _
             (fun total link =>
                if crossesClusters nodes' link
                then (total + ml_value link)%Qc else total)).
  - rewrite fold_left_cond_sum. f_equal. ring.
  - intros l total. unfold crossesClusters.
    pose proof (nodeIndex_lookup nodes' (ml_source l) Hnd') as Hs.
    pose proof (nodeIndex_lookup nodes' (ml_target l) Hnd') as Ht.
    destruct (JSMap.get (nodeIndexMap nodes') (ml_source l)) as [sIdx|].
    + destruct Hs as (ns & Hns & ->).
      destruct (JSMap.get (nodeIndexMap nodes') (ml_target l)) as [tIdx|].
      * destruct Ht as (nt & Hnt & ->).
        rewrite (assigned_gene i nodes sIdx ns Hns),
          (assigned_gene i nodes tIdx nt Hnt).
        now destruct (sameCluster (geneAt i sIdx) (geneAt i tIdx)).
      * now rewrite Ht.
    + now rewrite Hs.
Qed.

Lemma layout_crossFlow embed sh nodes0 links k splitCs cs attempts r :
  NoDup (map mn_id nodes0) ->
  (forall n, In n nodes0 -> mn_clusterId n = None) ->
  (nodes' <- clusterNodes sh (settle embed nodes0 (simLinksOf nodes0 links cs))
               links k splitCs attempts ;;
   Resolved (assemble nodes' links)) = Resolved r ->
  totalCrossFlow (or_stats r) = crossFlowSpec (or_nodes r) (or_links r).
Proof.
  intros Hnd Hnone.
  destruct (settle_shape embed nodes0 (simLinksOf nodes0 links cs))
    as [Hids Hcl].
  destruct (clusterNodes sh _ links k splitCs attempts) as [nodes'|err]
    eqn:Hcluster; simpl; [|intro; discriminate].
  intros [= <-]. simpl.
  apply clusterNodes_shape in Hcluster.
  - destruct Hcluster as [Hids' Huni].
    rewrite crossFlowBy_filter. unfold crossFlowSpec. f_equal. f_equal.
    apply filter_ext. intro l. apply crossesBy_spec; [|assumption].
    now rewrite Hids', Hids.
  - intros n Hin. destruct (Hcl n Hin) as (n0 & Hn0 & ->). auto.
Qed.

Lemma ga_crossFlow nodes links bestResult r :
  NoDup (map mn_id nodes) ->
  gaAssemble nodes links bestResult = Resolved r ->
  totalCrossFlow (or_stats r) = crossFlowSpec (or_nodes r) (or_links r).
Proof.
  intro Hnd. unfold gaAssemble.
  destruct bestResult as [best|]; [|intro; discriminate].
  destruct (br_individual best) as [i|] eqn:Hind.
  - simpl. rewrite gaCrossFlow_spec by assumption. simpl.
    now intros [= <-].
  - destruct nodes as [|n nodes]; simpl; [|intro; discriminate].
    unfold gaCrossFlow.
    rewrite (forEachO_pure _ (fun total _ => total)); [|reflexivity].
    simpl. intros [= <-]. simpl. unfold crossFlowSpec.
    assert (Hclean : forall ls,
               fold_left (fun (total : Qc) (_ : MachineLink) => total) ls 0%Qc
               = 0%Qc)
      by (induction ls; simpl; auto).
    rewrite Hclean.
    assert (Hnone : filter (crossesClusters []) links = [])
      by (induction links; simpl; auto).
    now rewrite Hnone.
Qed.

Lemma toMachineNode_unclustered ns n :
  In n (map toMachineNode ns) -> mn_clusterId n = None.
Proof. intro H. apply in_map_iff in H. now destruct H as (sn & <- & _). Qed.

(** C2: in every result of [optimizeLayout] and of
    [runGeneticOptimization] the reported [totalCrossFlow] is the sum of the
    values of exactly those links whose source node and target node, found
    by id in the returned node list, carry different cluster ids. It is a
    function of the returned nodes and links alone. *)
Theorem totalCrossFlow_matches_returned_assignment fuel embed sh rnd b targets
  k splitCs cs params attempts :
  (forall run r,
      optimizeLayout fuel embed sh b targets k splitCs cs attempts = Some run ->
      run_outcome run = Resolved r ->
      totalCrossFlow (or_stats r) = crossFlowSpec (or_nodes r) (or_links r))
  /\ (forall run r,
        runGeneticOptimization fuel rnd b targets params attempts = Some run ->
        run_outcome run = Resolved r ->
        totalCrossFlow (or_stats r) = crossFlowSpec (or_nodes r) (or_links r)).
Proof.
  unfold optimizeLayout, runGeneticOptimization.
  destruct (resolveTargets fuel (initEnv b targets)) as [e|] eqn:Hrun;
    [|split; intros; discriminate].
  pose proof (machineNodes_ids e (resolveTargets_nodesOk _ _ _ _ Hrun)) as Hnd.
  split; intros run r Heq; injection Heq as <-; cbn [run_outcome].
  - intro H. apply simulate_settled in H. revert H.
    apply layout_crossFlow; [exact Hnd|]. apply toMachineNode_unclustered.
  - destruct (gaSearch rnd _ _ params attempts) as [bestResult|err];
      simpl; [|intro; discriminate].
    now apply ga_crossFlow.
Qed.

(** An instance: both optimizers resolve on the plate chain. *)
Lemma totalCrossFlow_matches_returned_assignment_witness :
  (exists run r,
      optimizeLayout 3 sampleEmbedding identityShuffler plateCatalog
        plateTargets 2 [] [] 2 = Some run
      /\ run_outcome run = Resolved r
      /\ totalCrossFlow (or_stats r) = crossFlowSpec (or_nodes r) (or_links r))
  /\ (exists run r,
        runGeneticOptimization 3 sampleRandom plateCatalog plateTargets
          sampleParams 2 = Some run
        /\ run_outcome run = Resolved r
        /\ totalCrossFlow (or_stats r) = crossFlowSpec (or_nodes r) (or_links r)).
Proof.
  destruct (totalCrossFlow_matches_returned_assignment 3 sampleEmbedding
              identityShuffler sampleRandom plateCatalog plateTargets 2 [] []
              sampleParams 2) as [H1 H2].
  split.
  - destruct (optimizeLayout 3 sampleEmbedding identityShuffler plateCatalog
                plateTargets 2 [] [] 2) as [run|] eqn:E;
      [|miscomputed E].
    destruct (run_outcome run) as [r|err] eqn:Er.
    + exists run, r. split; [reflexivity|]. split; [assumption|].
      now apply (H1 run r).
    + exfalso. vm_compute in E. injection E as <-. discriminate Er.
  - destruct (runGeneticOptimization 3 sampleRandom plateCatalog plateTargets
                sampleParams 2) as [run|] eqn:E;
      [|miscomputed E].
    destruct (run_outcome run) as [r|err] eqn:Er.
    + exists run, r. split; [reflexivity|]. split; [assumption|].
      now apply (H2 run r).
    + exfalso. vm_compute in E. injection E as <-. discriminate Er.
Defined.

(** ** k-means keeps every cluster id below k *)

Lemma nearestFrom_range :
  forall centroids idx node closest minDist,
    nearestFrom idx centroids node closest minDist = closest
    \/ (idx <= nearestFrom idx centroids node closest minDist
        < idx + Z.of_nat (List.length centroids))%Z.
Proof.
  induction centroids as [|c rest IH]; simpl; intros idx node closest minDist.
  - now left.
  - destruct (ltInf (sqDist node c) minDist).
    + right. destruct (IH (idx + 1)%Z node idx (Some (sqDist node c))) as [->|H]; lia.
    + destruct (IH (idx + 1)%Z node closest minDist) as [->|H]; [now left | right; lia].
Qed.

Lemma nearest_range centroids node :
  centroids <> [] ->
  (0 <= nearest centroids node < Z.of_nat (List.length centroids))%Z.
Proof.
  unfold nearest. destruct centroids as [|c rest]; [congruence|]. intros _.
  cbn [nearestFrom ltInf].
  destruct (nearestFrom_range rest (0 + 1)%Z node 0%Z (Some (sqDist node c)))
    as [->|H]; cbn [List.length]; lia.
Qed.

Lemma updateAt_Some {A : Type} (f : A -> A) :
  forall l i, i < List.length l ->
    exists l', updateAt i f l = Some l' /\ List.length l' = List.length l.
Proof.
  induction l as [|a l IH]; simpl; intros i Hi; [lia|].
  destruct i as [|i]; simpl.
  - eexists. split; [reflexivity|]. reflexivity.
  - destruct (IH i) as (l' & Hup & Hlen); [lia|]. rewrite Hup.
    eexists. split; [reflexivity|]. simpl. now rewrite Hlen.
Qed.

Lemma assignmentInRange_set k m key c :
  assignmentInRange k m -> inRange k c -> assignmentInRange k (JSMap.set m key c).
Proof.
  intros Hm Hc key' c' Hget. destruct (string_dec key key') as [->|Hne].
  - rewrite get_set_same in Hget. now injection Hget as <-.
  - rewrite get_set_other in Hget by assumption. eauto.
Qed.

Lemma assignmentInRange_empty k : assignmentInRange k JSMap.empty.
Proof. intros key c H. discriminate. Qed.

Lemma forEachO_total {A S : Type} (P : S -> Prop) (f : A -> S -> Outcome S) :
  forall xs s,
    P s ->
    (forall x t, In x xs -> P t -> exists t', f x t = Resolved t' /\ P t') ->
    exists s', forEachO f xs s = Resolved s' /\ P s'.
Proof.
  induction xs as [|x xs IH]; simpl; intros s Hs Hstep.
  - eauto.
  - destruct (Hstep x s) as (t & -> & Ht); auto. simpl. apply IH; auto.
Qed.

Section KMeansRange.
Variable k : nat.
Hypothesis Hk : 1 <= k.

Lemma assignNode_ok centroids prev node st :
  List.length centroids = k ->
  List.length (rs_clusterSums st) = k ->
  assignmentInRange k (rs_newClusters st) ->
  exists st',
    assignNode centroids prev node st = Resolved st'
    /\ List.length (rs_clusterSums st') = k
    /\ assignmentInRange k (rs_newClusters st').
Proof.
  intros Hc Hs Hm. unfold assignNode.
  assert (Hne : centroids <> []) by (destruct centroids; simpl in *; [lia|congruence]).
  pose proof (nearest_range centroids node Hne) as Hr. rewrite Hc in Hr.
  unfold addToSum.
  destruct (Z.ltb_spec (nearest centroids node) 0); [lia|].
  destruct (updateAt_Some
              (fun s => mkClusterSum (cs_x s + coord (mn_x node))%Qc
                          (cs_y s + coord (mn_y node))%Qc (S (cs_count s)))
              (rs_clusterSums st) (Z.to_nat (nearest centroids node)))
    as (sums & -> & Hlen); [lia|].
  eexists. split; [reflexivity|]. simpl. split; [congruence|].
  now apply assignmentInRange_set.
Qed.

Lemma kmeansRound_ok items centroids prev :
  List.length centroids = k ->
  exists r,
    kmeansRound items k centroids prev = Resolved r
    /\ List.length (r_centroids r) = k
    /\ assignmentInRange k (r_assignment r).
Proof.
  intro Hc. unfold kmeansRound.
  destruct (forEachO_total
              (fun st => List.length (rs_clusterSums st) = k
                         /\ assignmentInRange k (rs_newClusters st))
              (assignNode centroids prev) items
              (mkRoundState JSMap.empty (repeat (mkClusterSum 0%Qc 0%Qc 0) k) false))
    as (st & -> & Hlen & Hm).
  - simpl. split; [apply repeat_length | apply assignmentInRange_empty].
  - intros node t _ [Hl Hm].
    destruct (assignNode_ok centroids prev node t Hc Hl Hm) as (t' & ? & ? & ?).
    eauto.
  - simpl. eexists. split; [reflexivity|]. simpl.
    split; [now rewrite length_map | assumption].
Qed.

Lemma kmeansLoop_ok items :
  forall rounds centroids prev,
    List.length centroids = k ->
    assignmentInRange k prev ->
    exists a,
      kmeansLoop rounds items k centroids prev = Resolved a
      /\ assignmentInRange k a.
Proof.
  induction rounds as [|rounds IH]; simpl; intros centroids prev Hc Hprev.
  - eauto.
  - destruct (kmeansRound_ok items centroids prev Hc) as (r & -> & Hlen & Hm).
    simpl. destruct (r_hasChanged r); eauto.
Qed.

End KMeansRange.

Lemma kmeansPass_ok sh items k links splitCs pass best :
  1 <= k <= List.length items ->
  assignmentInRange k (bestNodeClusterMap best) ->
  exists best',
    kmeansPass sh items k links splitCs pass best = Resolved best'
    /\ assignmentInRange k (bestNodeClusterMap best').
Proof.
  intros Hk Hbest. unfold kmeansPass.
  destruct (kmeansLoop_ok k (proj1 Hk) items 50
              (map (fun n => mkPoint (coord (mn_x n)) (coord (mn_y n)))
                 (firstn k (shuffle sh pass items)))
              JSMap.empty) as (a & -> & Ha).
  - rewrite length_map, length_firstn.
    rewrite (Permutation_length (shuffle_perm sh pass items)). lia.
  - apply assignmentInRange_empty.
  - simpl. eexists. split; [reflexivity|].
    now destruct (ltInf _ (bestScore best)).
Qed.

Lemma kmeansPasses_ok sh items k links splitCs :
  1 <= k <= List.length items ->
  forall left pass best,
    assignmentInRange k (bestNodeClusterMap best) ->
    exists best',
      kmeansPasses sh items k links splitCs left pass best = Resolved best'
      /\ assignmentInRange k (bestNodeClusterMap best').
Proof.
  intro Hk. induction left as [|left IH]; simpl; intros pass best Hbest.
  - eauto.
  - destruct (kmeansPass_ok sh items k links splitCs pass best Hk Hbest)
      as (best' & -> & Hbest').
    simpl. now apply IH.
Qed.

Lemma clusterNodes_ok sh nodes links numClusters splitCs attempts :
  1 <= numClusters ->
  filter isItem nodes <> [] ->
  exists nodes',
    clusterNodes sh nodes links numClusters splitCs attempts = Resolved nodes'
    /\ clusteredBelow
         (Nat.min numClusters (List.length (filter isItem nodes))) nodes'.
Proof.
  intros Hk Hitems. unfold clusterNodes.
  destruct (filter isItem nodes) as [|it items] eqn:Hf; [congruence|].
  set (k := Nat.min numClusters (List.length (it :: items))).
  assert (Hk' : 1 <= k <= List.length (it :: items)) by (unfold k; simpl; lia).
  destruct (kmeansPasses_ok sh (it :: items) k links splitCs Hk' attempts 0
              (mkBest JSMap.empty None)) as (best & -> & Hbest).
  - apply assignmentInRange_empty.
  - simpl. eexists. split; [reflexivity|].
    intros n Hin. apply in_map_iff in Hin. destruct Hin as (n0 & <- & _).
    unfold applyBest. simpl. eexists. split; [reflexivity|].
    destruct (JSMap.get (bestNodeClusterMap best) (mn_id n0)) as [c|] eqn:Hget.
    + eapply Hbest; eauto.
    + unfold inRange. lia.
Qed.

(** ** The genetic search keeps every gene below the cluster count *)

Lemma randomBelow_range rnd c n :
  (0 <= randomBelow rnd c n)%Z
  /\ (1 <= n -> (randomBelow rnd c n < Z.of_nat n)%Z).
Proof.
  unfold randomBelow, floorQc, ofNat, ofZ.
  destruct (draw_range rnd c) as [H0 H1].
  unfold Qcle, Qclt in H0, H1. cbn [this Q2Qc Qcmult] in *.
  rewrite Qred_correct in H1.
  assert (E : (Qred (this (draw rnd c) * Qred (inject_Z (Z.of_nat n)))
               == this (draw rnd c) * inject_Z (Z.of_nat n))%Q)
    by (now rewrite !Qred_correct).
  rewrite E. split.
  - change 0%Z with (Qfloor 0). apply Qfloor_resp_le.
    apply Qmult_le_0_compat; [exact H0|].
    change 0%Q with (inject_Z 0). rewrite <- Zle_Qle. lia.
  - intro Hn. rewrite Zlt_Qlt.
    eapply Qle_lt_trans; [apply Qfloor_le|].
    rewrite <- (Qmult_1_l (inject_Z (Z.of_nat n))) at 2.
    apply Qmult_lt_compat_r; [|exact H1].
    change 0%Q with (inject_Z 0). rewrite <- Zlt_Qlt. lia.
Qed.

Lemma randomBelow_inRange rnd c n : 1 <= n -> inRange n (randomBelow rnd c n).
Proof.
  intro Hn. destruct (randomBelow_range rnd c n). unfold inRange. auto.
Qed.

Section GARange.
Variable nodes : list MachineNode.
Variable links : list MachineLink.
Variable params : GAParams.
Variable rnd : RandomSource.
Variable G : Gene -> Prop.
Hypothesis G_random :
  forall c, G (Some (randomBelow rnd c (numClusters params))).

Let WF := wellFormed G (List.length nodes).

Lemma randomIndividual_wf :
  forall ns c,
    wellFormed G (List.length ns)
      (fst (GeneticOptimizer.randomIndividual params rnd ns c)).
Proof.
  induction ns as [|n ns IH]; simpl; intro c.
  - split; [reflexivity | constructor].
  - specialize (IH (S c)).
    destruct (GeneticOptimizer.randomIndividual params rnd ns (S c)) as [tl c'].
    simpl in *. destruct IH as [Hlen Hall]. split; [simpl; congruence|].
    constructor; [|assumption].
    apply G_random.
Qed.

Lemma initializeFrom_wf :
  forall left c,
    Forall WF (fst (GeneticOptimizer.initializeFrom nodes params rnd left c)).
Proof.
  induction left as [|left IH]; simpl; intro c; [constructor|].
  pose proof (randomIndividual_wf nodes c) as Hi.
  destruct (GeneticOptimizer.randomIndividual params rnd nodes c) as [i c1].
  specialize (IH c1).
  destruct (GeneticOptimizer.initializeFrom nodes params rnd left c1) as [rest c2].
  simpl in *. now constructor.
Qed.

Lemma geneAt_wf i j :
  WF i -> j < List.length nodes -> G (geneAt i j).
Proof.
  intros [Hlen Hall] Hj. unfold geneAt.
  destruct (nth_error i j) as [g|] eqn:E.
  - rewrite Forall_forall in Hall. apply Hall. eapply nth_error_In; eauto.
  - apply nth_error_None in E. lia.
Qed.

Lemma crossoverFrom_wf parentB :
  WF parentB ->
  forall parentA s c,
    Forall (G) parentA ->
    s + List.length parentA <= List.length nodes ->
    let r := fst (GeneticOptimizer.crossoverFrom rnd s parentA parentB c) in
    List.length r = List.length parentA
    /\ Forall (G) r.
Proof.
  intros HB. induction parentA as [|g rest IH]; simpl; intros s c HA Hlen.
  - split; [reflexivity | constructor].
  - inversion HA as [|? ? Hg Hrest]; subst.
    specialize (IH (S s) (S c) Hrest ltac:(lia)).
    destruct (GeneticOptimizer.crossoverFrom rnd (S s) rest parentB (S c)) as [tl c'].
    simpl in *. destruct IH as [Hl Hall]. split; [congruence|].
    constructor; [|assumption].
    destruct (Qcltb (draw rnd c) GeneticOptimizer.half); [assumption|].
    apply geneAt_wf; [assumption | lia].
Qed.

Lemma crossover_wf parentA parentB c :
  WF parentA -> WF parentB ->
  WF (fst (GeneticOptimizer.crossover rnd parentA parentB c)).
Proof.
  intros [HlA HA] HB. unfold GeneticOptimizer.crossover.
  destruct (crossoverFrom_wf parentB HB parentA 0 c HA ltac:(lia)) as [Hl Hall].
  split; [congruence | assumption].
Qed.

Lemma mutate_wf :
  forall i c,
    Forall (G) i ->
    let r := fst (GeneticOptimizer.mutate params rnd i c) in
    List.length r = List.length i /\ Forall (G) r.
Proof.
  induction i as [|g rest IH]; simpl; intros c Hall.
  - split; [reflexivity | constructor].
  - inversion Hall as [|? ? Hg Hrest]; subst.
    destruct (Qcltb (draw rnd c) (mutationRate params)).
    + specialize (IH (S (S c)) Hrest).
      destruct (GeneticOptimizer.mutate params rnd rest (S (S c))) as [tl c'].
      simpl in *. destruct IH. split; [congruence|].
      constructor; [|assumption].
      apply G_random.
    + specialize (IH (S c) Hrest).
      destruct (GeneticOptimizer.mutate params rnd rest (S c)) as [tl c'].
      simpl in *. destruct IH. split; [congruence|]. now constructor.
Qed.

End GARange.

(** ** What one generation keeps *)

Lemma insertScored_In x l s :
  In s (GeneticOptimizer.insertScored x l) <-> s = x \/ In s l.
Proof.
  induction l as [|y l IH]; simpl.
  - intuition congruence.
  - destruct (Qcltb (fitness y) (fitness x)); simpl; rewrite ?IH; intuition congruence.
Qed.

Lemma sortByFitness_In l s : In s (GeneticOptimizer.sortByFitness l) <-> In s l.
Proof.
  unfold GeneticOptimizer.sortByFitness.
  induction l as [|x l IH]; simpl; [tauto|].
  rewrite insertScored_In, IH. intuition congruence.
Qed.

Lemma sortByFitness_nonempty l : l <> [] -> GeneticOptimizer.sortByFitness l <> [].
Proof.
  destruct l as [|x l]; [congruence|]. intros _ H.
  assert (Hin : In x (GeneticOptimizer.sortByFitness (x :: l)))
    by (apply sortByFitness_In; now left).
  rewrite H in Hin. contradiction.
Qed.

Lemma firstn_incl {A : Type} (n : nat) (l : list A) x :
  In x (firstn n l) -> In x l.
Proof.
  intro H. rewrite <- (firstn_skipn n l). apply in_or_app. now left.
Qed.

Section Generation.
Variable nodes : list MachineNode.
Variable links : list MachineLink.
Variable params : GAParams.
Variable rnd : RandomSource.

Lemma pick_In sp c s : GeneticOptimizer.pick rnd sp c = Some s -> In s sp.
Proof.
  unfold GeneticOptimizer.pick.
  destruct (randomBelow rnd c (List.length sp) <? 0)%Z; [discriminate|].
  apply nth_error_In.
Qed.

Lemma pick_total sp c : sp <> [] -> exists s, GeneticOptimizer.pick rnd sp c = Some s.
Proof.
  intro Hne. unfold GeneticOptimizer.pick.
  assert (Hlen : 1 <= List.length sp) by (destruct sp; simpl; [congruence|lia]).
  destruct (randomBelow_range rnd c (List.length sp)) as [H0 H1].
  specialize (H1 Hlen).
  destruct (Z.ltb_spec (randomBelow rnd c (List.length sp)) 0); [lia|].
  destruct (nth_error sp (Z.to_nat (randomBelow rnd c (List.length sp)))) eqn:E;
    [eauto|].
  apply nth_error_None in E. lia.
Qed.

Lemma tournamentRounds_In sp :
  forall left best c i c',
    (forall b, best = Some b -> In b sp) ->
    GeneticOptimizer.tournamentRounds rnd left sp best c = Resolved (i, c') ->
    In i (map ind sp).
Proof.
  induction left as [|left IH]; simpl; intros best c i c' Hbest H.
  - destruct best as [b|]; [|discriminate]. injection H as <- <-.
    apply in_map. now apply Hbest.
  - destruct (GeneticOptimizer.pick rnd sp c) as [cand|] eqn:Hp; [|discriminate].
    destruct best as [b|]; [|discriminate].
    eapply IH; [|exact H]. intros b' [= <-].
    destruct (Qcltb (fitness cand) (fitness b)); [eapply pick_In; eauto | auto].
Qed.

Lemma tournamentRounds_total sp :
  sp <> [] ->
  forall left b c,
    exists i c', GeneticOptimizer.tournamentRounds rnd left sp (Some b) c
                 = Resolved (i, c').
Proof.
  intro Hne. induction left as [|left IH]; simpl; intros b c.
  - eauto.
  - destruct (pick_total sp c Hne) as (cand & ->). apply IH.
Qed.

Lemma tournamentSelect_In sp c i c' :
  GeneticOptimizer.tournamentSelect rnd sp c = Resolved (i, c') ->
  In i (map ind sp).
Proof.
  unfold GeneticOptimizer.tournamentSelect. apply tournamentRounds_In.
  intros b Hb. eapply pick_In; eauto.
Qed.

Lemma tournamentSelect_total sp c :
  sp <> [] ->
  exists i c', GeneticOptimizer.tournamentSelect rnd sp c = Resolved (i, c').
Proof.
  intro Hne. unfold GeneticOptimizer.tournamentSelect.
  destruct (pick_total sp c Hne) as (b & ->).
  now apply tournamentRounds_total.
Qed.

Lemma breed_total sp :
  sp <> [] ->
  forall left np c,
    exists np' c', GeneticOptimizer.breed params rnd left sp np c
                   = Resolved (np', c').
Proof.
  intro Hne. induction left as [|left IH]; simpl; intros np c.
  - eauto.
  - destruct (tournamentSelect_total sp c Hne) as (a & c1 & ->). simpl.
    destruct (tournamentSelect_total sp c1 Hne) as (b & c2 & ->). simpl.
    destruct (GeneticOptimizer.crossover rnd a b c2) as [child c3].
    destruct (GeneticOptimizer.mutate params rnd child c3) as [child' c4].
    apply IH.
Qed.

Lemma breed_prefix sp :
  forall left np c np' c',
    GeneticOptimizer.breed params rnd left sp np c = Resolved (np', c') ->
    exists children, np' = np ++ children.
Proof.
  induction left as [|left IH]; simpl; intros np c np' c' H.
  - injection H as <- <-. exists []. now rewrite app_nil_r.
  - destruct (GeneticOptimizer.tournamentSelect rnd sp c) as [[a c1]|];
      simpl in H; [|discriminate].
    destruct (GeneticOptimizer.tournamentSelect rnd sp c1) as [[b c2]|];
      simpl in H; [|discriminate].
    destruct (GeneticOptimizer.crossover rnd a b c2) as [child c3].
    destruct (GeneticOptimizer.mutate params rnd child c3) as [child' c4].
    apply IH in H. destruct H as (children & ->).
    exists (child' :: children). now rewrite <- app_assoc.
Qed.

(** A property of individuals that crossover and mutation preserve. *)
Variable P : Individual -> Prop.
Hypothesis P_crossover :
  forall a b c, P a -> P b -> P (fst (GeneticOptimizer.crossover rnd a b c)).
Hypothesis P_mutate :
  forall i c, P i -> P (fst (GeneticOptimizer.mutate params rnd i c)).

Lemma breed_children sp :
  (forall s, In s sp -> P (ind s)) ->
  forall left np c np' c',
    GeneticOptimizer.breed params rnd left sp np c = Resolved (np', c') ->
    exists children, np' = np ++ children /\ Forall P children.
Proof.
  intro Hsp. induction left as [|left IH]; simpl; intros np c np' c' H.
  - injection H as <- <-. exists []. split; [now rewrite app_nil_r | constructor].
  - destruct (GeneticOptimizer.tournamentSelect rnd sp c) as [[a c1]|] eqn:Ha;
      simpl in H; [|discriminate].
    destruct (GeneticOptimizer.tournamentSelect rnd sp c1) as [[b c2]|] eqn:Hb;
      simpl in H; [|discriminate].
    pose proof (P_crossover a b c2) as Hc.
    destruct (GeneticOptimizer.crossover rnd a b c2) as [child c3].
    pose proof (P_mutate child c3) as Hm.
    destruct (GeneticOptimizer.mutate params rnd child c3) as [child' c4].
    apply IH in H. destruct H as (children & -> & Hall).
    exists (child' :: children). split; [now rewrite <- app_assoc|].
    constructor; [|assumption]. simpl in *. apply Hm, Hc.
    + apply tournamentSelect_In in Ha. apply in_map_iff in Ha.
      destruct Ha as (s & <- & Hs). auto.
    + apply tournamentSelect_In in Hb. apply in_map_iff in Hb.
      destruct Hb as (s & <- & Hs). auto.
Qed.

Lemma evolve_children population c pop' c' :
  Forall P population ->
  GeneticOptimizer.evolve nodes links params rnd population c = Resolved (pop', c') ->
  exists children,
    pop' = map ind
             (firstn (GeneticOptimizer.eliteCount params)
                (GeneticOptimizer.sortByFitness
                   (map (fun i => mkScored i
                                    (GeneticOptimizer.calculateFitness nodes links params i))
                      population)))
           ++ children
    /\ Forall P pop'.
Proof.
  intros Hpop H. unfold GeneticOptimizer.evolve in H.
  assert (Hsp : forall s,
             In s (GeneticOptimizer.sortByFitness
                     (map (fun i => mkScored i
                                      (GeneticOptimizer.calculateFitness nodes links params i))
                        population)) -> P (ind s)).
  { intros s Hs. apply (proj1 (sortByFitness_In _ _)) in Hs.
    apply in_map_iff in Hs.
    destruct Hs as (i & <- & Hi). simpl. rewrite Forall_forall in Hpop. auto. }
  apply (breed_children _ Hsp) in H. destruct H as (children & -> & Hall).
  exists children. split; [reflexivity|].
  apply Forall_app. split; [|assumption].
  rewrite Forall_forall. intros i Hi. apply in_map_iff in Hi.
  destruct Hi as (s & <- & Hs). apply Hsp. eapply firstn_incl; eauto.
Qed.

Lemma evolve_total population c :
  population <> [] ->
  exists pop' c',
    GeneticOptimizer.evolve nodes links params rnd population c = Resolved (pop', c')
    /\ pop' <> [].
Proof.
  intro Hne. unfold GeneticOptimizer.evolve.
  set (sp := GeneticOptimizer.sortByFitness _).
  assert (Hsp : sp <> []).
  { apply sortByFitness_nonempty. destruct population; simpl; congruence. }
  destruct (breed_total sp Hsp
              (populationSize params
               - List.length (map ind (firstn (GeneticOptimizer.eliteCount params) sp)))
              (map ind (firstn (GeneticOptimizer.eliteCount params) sp)) c)
    as (np' & c' & H).
  exists np', c'. split; [exact H|].
  destruct (breed_prefix _ _ _ _ _ _ H) as (children & Heq).
  rewrite Heq. clear H Heq.
  unfold GeneticOptimizer.eliteCount.
  destruct sp as [|s sp']; [congruence|].
  destruct (Nat.max 2 (populationSize params / 10)) eqn:E; [lia|].
  simpl. discriminate.
Qed.

End Generation.

Section Search.
Variable nodes : list MachineNode.
Variable links : list MachineLink.
Variable params : GAParams.
Variable rnd : RandomSource.


Lemma getBestResult_In population i :
  br_individual (GeneticOptimizer.getBestResult nodes links params population)
  = Some i ->
  In i population.
Proof.
  unfold GeneticOptimizer.getBestResult.
  assert (Hgen : forall pop best,
             (forall j, br_individual best = Some j -> In j population) ->
             incl pop population ->
             br_individual
               (fold_left
                  (fun best individual =>
                     if ltInf (GeneticOptimizer.calculateFitness nodes links params individual)
                          (br_fitness best)
                     then mkBestResult (Some individual)
                            (Some (GeneticOptimizer.calculateFitness nodes links params individual))
                     else best)
                  pop best) = Some i ->
             In i population).
  { induction pop as [|x pop IH]; simpl; intros best Hbest Hincl H.
    - auto.
    - eapply IH; [| |exact H].
      + intros j. destruct (ltInf _ (br_fitness best)); simpl; [|auto].
        intros [= <-]. apply Hincl. now left.
      + intros y Hy. apply Hincl. now right. }
  apply Hgen.
  - cbn [br_individual]. intros j Hj. eapply nth_error_In; exact Hj.
  - apply incl_refl.
Qed.





(** A property of individuals that initialisation establishes and the
    operators preserve holds of the candidate the search returns. *)
Variable P : Individual -> Prop.
Hypothesis P_crossover :
  forall a b c, P a -> P b -> P (fst (GeneticOptimizer.crossover rnd a b c)).
Hypothesis P_mutate :
  forall i c, P i -> P (fst (GeneticOptimizer.mutate params rnd i c)).
Hypothesis P_initialize :
  forall c, Forall P (fst (GeneticOptimizer.initialize nodes params rnd c)).

Lemma evolveTimes_keeps :
  forall left population c pop' c',
    Forall P population ->
    GeneticOptimizer.evolveTimes nodes links params rnd left population c
    = Resolved (pop', c') ->
    Forall P pop'.
Proof.
  induction left as [|left IH]; simpl; intros population c pop' c' Hpop H.
  - now injection H as <- <-.
  - destruct (GeneticOptimizer.evolve nodes links params rnd population c)
      as [[pop1 c1]|] eqn:E; simpl in H; [|discriminate].
    eapply IH; [|exact H].
    destruct (evolve_children nodes links params rnd P P_crossover P_mutate
                population c pop1 c1 Hpop E) as (_ & _ & Hall).
    exact Hall.
Qed.

Lemma attempt_keeps bestResult c bestResult' c' :
  candidateHas P bestResult ->
  GeneticOptimizer.attempt nodes links params rnd bestResult c
  = Resolved (bestResult', c') ->
  candidateHas P bestResult'.
Proof.
  intros Hbest. unfold GeneticOptimizer.attempt.
  pose proof (P_initialize c) as Hinit.
  destruct (GeneticOptimizer.initialize nodes params rnd c) as [population c1].
  simpl in Hinit.
  destruct (GeneticOptimizer.evolveTimes nodes links params rnd
              (generations params) population c1) as [[pop' c2]|] eqn:E;
    simpl; [|intro; discriminate].
  pose proof (evolveTimes_keeps _ _ _ _ _ Hinit E) as Hpop'.
  intros [= <- <-].
  assert (Hres : forall i,
             br_individual (GeneticOptimizer.getBestResult nodes links params pop')
             = Some i -> P i).
  { intros i Hi. apply getBestResult_In in Hi.
    rewrite Forall_forall in Hpop'. auto. }
  intros b i Hb Hi. destruct bestResult as [b0|].
  - destruct (ltExt _ (br_fitness b0)); injection Hb as <-; eauto.
  - injection Hb as <-. auto.
Qed.

Lemma attemptLoop_keeps :
  forall left bestResult c bestResult' c',
    candidateHas P bestResult ->
    GeneticOptimizer.attemptLoop nodes links params rnd left bestResult c
    = Resolved (bestResult', c') ->
    candidateHas P bestResult'.
Proof.
  induction left as [|left IH]; simpl; intros bestResult c bestResult' c' Hbest H.
  - now injection H as <- <-.
  - destruct (GeneticOptimizer.attempt nodes links params rnd bestResult c)
      as [[b1 c1]|] eqn:E; simpl in H; [|discriminate].
    eapply IH; [|exact H]. eapply attempt_keeps; eauto.
Qed.

End Search.

(** ** From the candidate to the result *)

Lemma nth_error_lt {A : Type} (l : list A) j x :
  nth_error l j = Some x -> j < List.length l.
Proof. intro H. apply nth_error_Some. congruence. Qed.

Lemma assignGenes_genes G nodes i nodes' :
  wellFormed G (List.length nodes) i ->
  assignGenes (Some i) nodes = Resolved nodes' ->
  List.length nodes' = List.length nodes
  /\ forall n, In n nodes' -> G (mn_clusterId n).
Proof.
  intros Hwf [= <-]. split; [apply length_mapiFrom|].
  intros n Hin. apply In_mapi in Hin. destruct Hin as (j & x & Hj & ->).
  simpl. apply nth_error_lt in Hj. destruct Hwf as [Hlen Hall].
  unfold geneAt. destruct (nth_error i j) as [g|] eqn:E.
  - rewrite Forall_forall in Hall. apply Hall. eapply nth_error_In; eauto.
  - apply nth_error_None in E. lia.
Qed.


Lemma gaAssemble_genes G nodes links bestResult r :
  candidateHas (wellFormed G (List.length nodes)) bestResult ->
  gaAssemble nodes links bestResult = Resolved r ->
  List.length (or_nodes r) = List.length nodes
  /\ forall n, In n (or_nodes r) -> G (mn_clusterId n).
Proof.
  intros Hcand. unfold gaAssemble.
  destruct bestResult as [best|]; [|intro; discriminate].
  destruct (assignGenes (br_individual best) nodes) as [nodes'|] eqn:Ha;
    simpl; [|intro; discriminate].
  destruct (gaCrossFlow nodes' links (br_individual best)) as [total|];
    simpl; [|intro; discriminate].
  intros [= <-]. simpl.
  destruct (br_individual best) as [i|] eqn:Hi.
  - eapply assignGenes_genes; eauto.
  - destruct nodes; [|discriminate]. injection Ha as <-.
    split; [reflexivity | intros n []].
Qed.


Lemma gaSearch_candidate G rnd nodes links params attempts bestResult :
  (forall c, G (Some (randomBelow rnd c (numClusters params)))) ->
  gaSearch rnd nodes links params attempts = Resolved bestResult ->
  candidateHas (wellFormed G (List.length nodes)) bestResult.
Proof.
  intros HG. unfold gaSearch.
  destruct (GeneticOptimizer.attemptLoop nodes links params rnd attempts None 0)
    as [[best c]|] eqn:E; simpl; [|intro; discriminate].
  intros [= <-].
  assert (Hc : forall a b c0,
             wellFormed G (List.length nodes) a ->
             wellFormed G (List.length nodes) b ->
             wellFormed G (List.length nodes)
               (fst (GeneticOptimizer.crossover rnd a b c0))).
  { intros a b c0 Ha Hb. now apply crossover_wf. }
  assert (Hm : forall i c0,
             wellFormed G (List.length nodes) i ->
             wellFormed G (List.length nodes)
               (fst (GeneticOptimizer.mutate params rnd i c0))).
  { intros i c0 [Hlen Hall].
    destruct (mutate_wf params rnd G HG i c0 Hall) as [Hl Hall'].
    split; [congruence | assumption]. }
  assert (Hi : forall c0,
             Forall (wellFormed G (List.length nodes))
               (fst (GeneticOptimizer.initialize nodes params rnd c0))).
  { intro c0. apply initializeFrom_wf. exact HG. }
  apply (attemptLoop_keeps nodes links params rnd
           (wellFormed G (List.length nodes)) Hc Hm Hi attempts None 0 best c);
    [|exact E].
  intros b i Hb. discriminate.
Qed.

Lemma items_of_positioned (p : nat -> Qc * Qc) (ns : list SankeyNode) :
  forall s,
    List.length
      (filter isItem
         (mapiFrom s (fun n i => setPosition n (p i)) (map toMachineNode ns)))
    = List.length
        (filter (fun n => negb (String.eqb (sn_category n) "sink")) ns).
Proof.
  induction ns as [|n ns IH]; simpl; intro s; [reflexivity|].
  unfold isItem at 1. simpl.
  destruct (negb (String.eqb (sn_category n) "sink")); simpl; now rewrite IH.
Qed.

Lemma items_of_settle embed (ns : list SankeyNode) sl :
  List.length (filter isItem (settle embed (map toMachineNode ns) sl))
  = List.length
      (filter (fun n => negb (String.eqb (sn_category n) "sink")) ns).
Proof. unfold settle, mapi. apply items_of_positioned. Qed.

Lemma clusteredBelow_weaken k k' nodes :
  k <= k' -> clusteredBelow k nodes -> clusteredBelow k' nodes.
Proof.
  intros Hk H n Hin. destruct (H n Hin) as (c & Hc & Hr).
  exists c. split; [assumption|]. unfold inRange in *. lia.
Qed.

Lemma calculateRequirements_Some fuel b targets d :
  calculateRequirements fuel b targets = Some d ->
  exists e, resolveTargets fuel (initEnv b targets) = Some e /\ d = dataOf e.
Proof.
  unfold calculateRequirements.
  destruct (resolveTargets fuel (initEnv b targets)) as [e|]; [|discriminate].
  intros [= <-]. eauto.
Qed.

(** C3: with a requested cluster count of at least 1, every node that
    either optimizer returns carries a cluster id that is a non-negative
    integer below the requested count: every result of [optimizeLayout] on
    a non-empty item set has its ids below the clamped count
    min(numClusters, number of items); every result of
    [runGeneticOptimization] has its ids below [numClusters] (the bound on
    the population size is not needed for this). *)
Theorem cluster_ids_are_below_cluster_count fuel embed sh rnd b targets k
  splitCs cs params attempts d :
  calculateRequirements fuel b targets = Some d ->
  (1 <= k -> itemsOf d <> [] ->
   forall run r,
     optimizeLayout fuel embed sh b targets k splitCs cs attempts = Some run ->
     run_outcome run = Resolved r ->
     clusteredBelow (Nat.min k (List.length (itemsOf d))) (or_nodes r)
     /\ clusteredBelow k (or_nodes r))
  /\ (1 <= numClusters params ->
      forall run r,
        runGeneticOptimization fuel rnd b targets params attempts = Some run ->
        run_outcome run = Resolved r ->
        clusteredBelow (numClusters params) (or_nodes r)).
Proof.
  intro Hcalc. apply calculateRequirements_Some in Hcalc.
  destruct Hcalc as (e & Hrun & ->).
  unfold optimizeLayout, runGeneticOptimization. rewrite Hrun. split.
  - intros Hk Hitems.
    pose proof (items_of_settle embed (sd_nodes (dataOf e))
                  (simLinksOf (map toMachineNode (sd_nodes (dataOf e)))
                     (map toMachineLink (sd_links (dataOf e))) cs)) as Hlen.
    fold (itemsOf (dataOf e)) in Hlen.
    destruct (clusterNodes_ok sh
                (settle embed (map toMachineNode (sd_nodes (dataOf e)))
                   (simLinksOf (map toMachineNode (sd_nodes (dataOf e)))
                      (map toMachineLink (sd_links (dataOf e))) cs))
                (map toMachineLink (sd_links (dataOf e))) k splitCs attempts Hk)
      as (nodes' & Hcl & Hbelow).
    + intro Hnil. rewrite Hnil in Hlen. simpl in Hlen.
      destruct (itemsOf (dataOf e)); [congruence | discriminate].
    + rewrite Hlen in Hbelow.
      intros run r Heq. injection Heq as <-. cbn [run_outcome].
      intro Hres. apply simulate_settled in Hres.
      cbn [dataOf sd_nodes sd_links] in Hcl, Hres.
      rewrite Hcl in Hres. cbn [bindO] in Hres. injection Hres as <-.
      cbn [or_nodes assemble]. split; [exact Hbelow|].
      eapply clusteredBelow_weaken; [|exact Hbelow]. lia.
  - intros Hk run r Heq. injection Heq as <-. cbn [run_outcome].
    destruct (gaSearch rnd _ _ params attempts) as [bestResult|] eqn:Hs;
      cbn [bindO]; [|intro; discriminate].
    intro Hres.
    apply (gaSearch_candidate (geneInRange (numClusters params))) in Hs.
    + destruct (gaAssemble_genes _ _ _ _ _ Hs Hres) as [_ Hgenes].
      intros n Hin. exact (Hgenes n Hin).
    + intro c. eexists. split; [reflexivity|]. now apply randomBelow_inRange.
Qed.




(** An instance: two clusters requested for the plate chain. *)
Lemma cluster_ids_are_below_cluster_count_witness :
  exists d,
    calculateRequirements 3 plateCatalog plateTargets = Some d
    /\ itemsOf d <> []
    /\ (exists run r,
          optimizeLayout 3 sampleEmbedding identityShuffler plateCatalog
            plateTargets 2 [] [] 3 = Some run
          /\ run_outcome run = Resolved r
          /\ clusteredBelow (Nat.min 2 (List.length (itemsOf d))) (or_nodes r)
          /\ clusteredBelow 2 (or_nodes r))
    /\ (exists run r,
          runGeneticOptimization 3 sampleRandom plateCatalog plateTargets
            sampleParams 3 = Some run
          /\ run_outcome run = Resolved r
          /\ clusteredBelow (numClusters sampleParams) (or_nodes r)).
Proof.
  destruct (calculateRequirements 3 plateCatalog plateTargets) as [d|] eqn:Hd;
    [|miscomputed Hd].
  exists d. split; [reflexivity|].
  assert (Hitems : itemsOf d <> []).
  { vm_compute in Hd. injection Hd as <-. vm_compute. discriminate. }
  split; [exact Hitems|].
  destruct (cluster_ids_are_below_cluster_count 3 sampleEmbedding
              identityShuffler sampleRandom plateCatalog plateTargets 2 [] []
              sampleParams 3 d Hd) as [Hk Hga].
  split.
  - destruct (optimizeLayout 3 sampleEmbedding identityShuffler plateCatalog
                plateTargets 2 [] [] 3) as [run|] eqn:E;
      [|miscomputed E].
    destruct (run_outcome run) as [r|err] eqn:Er.
    + exists run, r. split; [reflexivity|]. split; [assumption|].
      apply (Hk ltac:(lia) Hitems run r); [reflexivity | assumption].
    + exfalso. vm_compute in E. injection E as <-. discriminate Er.
  - destruct (runGeneticOptimization 3 sampleRandom plateCatalog plateTargets
                sampleParams 3) as [run|] eqn:E;
      [|miscomputed E].
    destruct (run_outcome run) as [r|err] eqn:Er.
    + exists run, r. split; [reflexivity|]. split; [assumption|].
      apply (Hga ltac:(vm_compute; lia) run r); [reflexivity | assumption].
    + exfalso. vm_compute in E. injection E as <-. discriminate Er.
Defined.


(** ** One k-means round *)

Lemma updateAt_nth {A : Type} (f : A -> A) :
  forall l i l' j,
    updateAt i f l = Some l' ->
    nth_error l' j
    = if Nat.eqb j i then option_map f (nth_error l j) else nth_error l j.
Proof.
  induction l as [|a l IH]; intros i l' j H.
  - destruct i; discriminate.
  - destruct i as [|i]; simpl in H.
    + injection H as <-. now destruct j.
    + destruct (updateAt i f l) as [l0|] eqn:E; [|discriminate].
      injection H as <-. destruct j as [|j]; simpl; [reflexivity|].
      now apply IH.
Qed.

Lemma nth_error_repeat_lt {A : Type} (x : A) k j :
  j < k -> nth_error (repeat x k) j = Some x.
Proof.
  revert j. induction k as [|k IH]; intros j Hj; [lia|].
  destruct j as [|j]; simpl; [reflexivity|]. apply IH. lia.
Qed.

Section Round.
Variable centroids : list Point.
Variable prev : JSMap.t Z.

Lemma assign_sums :
  forall items st st',
    forEachO (assignNode centroids prev) items st = Resolved st' ->
    forall j s,
      nth_error (rs_clusterSums st) j = Some s ->
      nth_error (rs_clusterSums st') j
      = Some (mkClusterSum
                (cs_x s + sumQc (map (fun n => coord (mn_x n))
                                   (membersOf centroids items j)))%Qc
                (cs_y s + sumQc (map (fun n => coord (mn_y n))
                                   (membersOf centroids items j)))%Qc
                (cs_count s + List.length (membersOf centroids items j))).
Proof.
  induction items as [|node items IH]; simpl; intros st st' H j s Hs.
  - injection H as <-. rewrite Hs. destruct s as [x y n]. simpl.
    rewrite Nat.add_0_r. f_equal. f_equal; ring.
  - unfold assignNode at 1 in H.
    destruct (addToSum (rs_clusterSums st) (nearest centroids node) node)
      as [sums|] eqn:Hadd; [|discriminate].
    simpl in H. unfold addToSum in Hadd.
    destruct (Z.ltb_spec (nearest centroids node) 0) as [|Hpos]; [discriminate|].
    pose proof (updateAt_nth _ _ _ _ j Hadd) as Hnth.
    unfold membersOf. simpl. fold (membersOf centroids items j).
    destruct (Z.eqb_spec (nearest centroids node) (Z.of_nat j)) as [Heq|Hne].
    + assert (Hj : Nat.eqb j (Z.to_nat (nearest centroids node)) = true)
        by (apply Nat.eqb_eq; lia).
      rewrite Hj, Hs in Hnth. simpl in Hnth.
      rewrite (IH _ _ H j _ Hnth). simpl. apply f_equal.
      f_equal; try ring; lia.
    + assert (Hj : Nat.eqb j (Z.to_nat (nearest centroids node)) = false)
        by (apply Nat.eqb_neq; lia).
      rewrite Hj, Hs in Hnth.
      now rewrite (IH _ _ H j _ Hnth).
Qed.

End Round.

Lemma assign_clusters centroids prev :
  forall items st st',
    forEachO (assignNode centroids prev) items st = Resolved st' ->
    NoDup (map mn_id items) ->
    (forall n, In n items ->
       JSMap.get (rs_newClusters st') (mn_id n) = Some (nearest centroids n))
    /\ (forall key, ~ In key (map mn_id items) ->
          JSMap.get (rs_newClusters st') key = JSMap.get (rs_newClusters st) key).
Proof.
  induction items as [|node items IH]; simpl; intros st st' H Hnd.
  - injection H as <-. split; [intros n [] | reflexivity].
  - inversion Hnd as [|? ? Hnotin Hnd']; subst.
    unfold assignNode at 1 in H.
    destruct (addToSum (rs_clusterSums st) (nearest centroids node) node)
      as [sums|]; [|discriminate].
    simpl in H. destruct (IH _ _ H Hnd') as [Hin Hout]. split.
    + intros n [<-|Hn]; [|auto].
      rewrite (Hout _ Hnotin). simpl. apply get_set_same.
    + intros key Hkey. rewrite Hout by tauto. simpl.
      apply get_set_other. tauto.
Qed.

(** C6, as the code has it: in a k-means round every item is assigned to
    its nearest centroid; every centroid with at least one member becomes
    the mean position of the nodes assigned to it, and a centroid whose
    cluster received no member is put at the origin (0, 0), whatever its
    value in the prior iteration. *)
Theorem round_recomputes_every_centroid items k centroids prev r :
  kmeansRound items k centroids prev = Resolved r ->
  (forall j, j < k ->
     nth_error (r_centroids r) j = Some (recomputed centroids items j))
  /\ (NoDup (map mn_id items) ->
      forall n, In n items ->
        JSMap.get (r_assignment r) (mn_id n) = Some (nearest centroids n)).
Proof.
  unfold kmeansRound. intros H.
  destruct (forEachO (assignNode centroids prev) items _) as [st|] eqn:E;
    simpl in H; [|discriminate].
  injection H as <-. simpl. split.
  - intros j Hj.
    pose proof (assign_sums centroids prev items _ _ E j (mkClusterSum 0%Qc 0%Qc 0))
      as Hsum.
    simpl in Hsum. rewrite (nth_error_repeat_lt _ k j Hj) in Hsum.
    specialize (Hsum eq_refl).
    rewrite nth_error_map, Hsum. simpl. f_equal.
    unfold recomputed, newCentroid. simpl.
    destruct (membersOf centroids items j) as [|m ms]; simpl; [reflexivity|].
    unfold meanPosition. simpl. f_equal; f_equal; ring.
  - intros Hnd n Hn.
    now apply (proj1 (assign_clusters centroids prev items _ _ E Hnd)).
Qed.

(** An instance: the first round on the seven items on a line. *)
Lemma round_recomputes_every_centroid_witness :
  exists r,
    kmeansRound lineItems 3 lineSeeds JSMap.empty = Resolved r
    /\ (forall j, j < 3 ->
          nth_error (r_centroids r) j = Some (recomputed lineSeeds lineItems j))
    /\ (NoDup (map mn_id lineItems) ->
        forall n, In n lineItems ->
          JSMap.get (r_assignment r) (mn_id n) = Some (nearest lineSeeds n)).
Proof.
  destruct (kmeansRound lineItems 3 lineSeeds JSMap.empty) as [r|] eqn:E;
    [|miscomputed E].
  exists r. split; [reflexivity|].
  exact (round_recomputes_every_centroid lineItems 3 lineSeeds JSMap.empty r E).
Defined.

(** C6 as stated fails: seeded with the first three of seven items on a
    line, the first round puts the centroid of cluster 1 at (79/2, 0); in
    the second round no item is nearest to it, and the round leaves it at
    the origin and not where it was. *)
Lemma empty_cluster_centroid_does_not_keep_its_value :
  exists r1 r2 p,
    kmeansRound lineItems 3 lineSeeds JSMap.empty = Resolved r1
    /\ kmeansRound lineItems 3 (r_centroids r1) (r_assignment r1) = Resolved r2
    /\ membersOf (r_centroids r1) lineItems 1 = []
    /\ nth_error (r_centroids r1) 1 = Some p
    /\ this (p_x p) = (79 # 2)%Q
    /\ nth_error (r_centroids r2) 1 = Some origin
    /\ nth_error (r_centroids r2) 1 <> nth_error (r_centroids r1) 1.
Proof.
  eexists. eexists. eexists.
  split; [computed|].
  split; [computed|].
  split; [computed|].
  split; [computed|].
  split; [computed|].
  split; [computed|].
  intro H.
  apply (f_equal (fun o => match o with
                           | Some p => this (p_x p)
                           | None => 0%Q
                           end)) in H.
  miscomputed H.
Qed.

(** ** Elitism *)

Lemma Qcltb_lt a b : Qcltb a b = true <-> (a < b)%Qc.
Proof.
  unfold Qcltb, Qclt. rewrite Qlt_alt.
  destruct (this a ?= this b)%Q; split; intro H; congruence.
Qed.

Lemma Qcltb_ge a b : Qcltb a b = false <-> (b <= a)%Qc.
Proof.
  rewrite <- not_true_iff_false, Qcltb_lt. split.
  - apply Qcnot_lt_le.
  - apply Qcle_not_lt.
Qed.

Lemma leExt_refl a : leExt a a.
Proof. destruct a; simpl; [apply Qcle_refl | exact I]. Qed.

Section Elitism.
Variable nodes : list MachineNode.
Variable links : list MachineLink.
Variable params : GAParams.

Let f := GeneticOptimizer.calculateFitness nodes links params.

Lemma minFitness_le population i :
  In i population ->
  exists m, minFitness nodes links params population = Some m /\ (m <= f i)%Qc.
Proof.
  unfold minFitness. fold f.
  induction population as [|x pop IH]; cbn [In fold_right]; [tauto|].
  intros [->|Hin].
  - destruct (fold_right (fun i m => minExt (f i) m) None pop) as [m|];
      cbn [minExt].
    + eexists. split; [reflexivity|].
      destruct (Qcltb (f i) m) eqn:E.
      * apply Qcle_refl.
      * now apply Qcltb_ge.
    + eexists. split; [reflexivity | apply Qcle_refl].
  - destruct (IH Hin) as (m & -> & Hm). cbn [minExt].
    eexists. split; [reflexivity|].
    destruct (Qcltb (f x) m) eqn:E; [|assumption].
    apply Qcltb_lt in E. apply Qclt_le_weak in E.
    eapply Qcle_trans; eauto.
Qed.

Lemma minFitness_attained population :
  population <> [] ->
  exists i, In i population
            /\ minFitness nodes links params population = Some (f i).
Proof.
  unfold minFitness. fold f.
  induction population as [|x pop IH]; [congruence|]. intros _.
  cbn [In fold_right].
  destruct pop as [|y pop].
  - exists x. split; [now left | reflexivity].
  - destruct IH as (i & Hin & Hmin); [discriminate|].
    rewrite Hmin. cbn [minExt].
    destruct (Qcltb (f x) (f i)); [exists x | exists i]; split; auto.
Qed.

Lemma sorted_head_least l :
  match GeneticOptimizer.sortByFitness l with
  | [] => l = []
  | h :: _ => In h l /\ forall y, In y l -> (fitness h <= fitness y)%Qc
  end.
Proof.
  unfold GeneticOptimizer.sortByFitness.
  induction l as [|x l IH]; simpl; [reflexivity|].
  destruct (fold_right GeneticOptimizer.insertScored [] l) as [|h rest]; simpl.
  - subst l. split; [now left|]. intros y [<-|[]]. apply Qcle_refl.
  - destruct IH as [Hh Hleast].
    destruct (Qcltb (fitness h) (fitness x)) eqn:E.
    + split; [now right|]. intros y [<-|Hy]; [|auto].
      apply Qcltb_lt in E. now apply Qclt_le_weak.
    + apply Qcltb_ge in E. split; [now left|].
      intros y [<-|Hy]; [apply Qcle_refl|].
      eapply Qcle_trans; [exact E | auto].
Qed.

End Elitism.

(** C5: one step of [evolve] never worsens the best fitness. On a non-empty
    population [evolve] returns; whenever it returns, the new population
    begins with the elite, the first max(2, floor(populationSize / 10))
    individuals of the ascending sort copied unchanged, and its lowest
    fitness is at most the lowest fitness before, whatever the random
    draws. *)
Theorem evolve_never_worsens_the_best nodes links params rnd population c :
  (population <> [] ->
   exists pop' c',
     GeneticOptimizer.evolve nodes links params rnd population c
     = Resolved (pop', c'))
  /\ forall pop' c',
       GeneticOptimizer.evolve nodes links params rnd population c
       = Resolved (pop', c') ->
       (exists children, pop' = elite nodes links params population ++ children)
       /\ leExt (minFitness nodes links params pop')
            (minFitness nodes links params population).
Proof.
  split.
  - intro Hne.
    destruct (evolve_total nodes links params rnd population c Hne)
      as (pop' & c' & H & _).
    eauto.
  - intros pop' c' H.
    destruct (evolve_children nodes links params rnd (fun _ => True)
                (fun _ _ _ _ _ => I) (fun _ _ _ => I) population c pop' c')
      as (children & Hpop' & _); [now apply Forall_forall | exact H |].
    fold (scoredPopulation nodes links params population) in Hpop'.
    fold (elite nodes links params population) in Hpop'.
    split; [eauto|].
    destruct population as [|x pop];
      [simpl; now destruct (minFitness nodes links params pop')|].
    destruct (minFitness_attained nodes links params (x :: pop))
      as (i0 & Hi0 & Hmin); [discriminate|].
    rewrite Hmin.
    pose proof (sorted_head_least
                  (scoredPopulation nodes links params (x :: pop))) as Hhead.
    unfold elite in Hpop'.
    destruct (GeneticOptimizer.sortByFitness
                (scoredPopulation nodes links params (x :: pop)))
      as [|h rest]; [discriminate|].
    destruct Hhead as [Hh Hleast].
    assert (Hfh : fitness h
                  = GeneticOptimizer.calculateFitness nodes links params (ind h)).
    { unfold scoredPopulation in Hh. apply in_map_iff in Hh.
      now destruct Hh as (ih & <- & _). }
    assert (Hle0 : (fitness h
                    <= GeneticOptimizer.calculateFitness nodes links params i0)%Qc).
    { apply (Hleast (mkScored i0
                       (GeneticOptimizer.calculateFitness nodes links params i0))).
      unfold scoredPopulation.
      exact (in_map (fun i => mkScored i
                                (GeneticOptimizer.calculateFitness nodes links params i))
               _ _ Hi0). }
    assert (Hin : In (ind h) pop').
    { rewrite Hpop'. apply in_or_app. left.
      unfold GeneticOptimizer.eliteCount.
      destruct (Nat.max 2 (populationSize params / 10)) eqn:E; [lia|].
      cbn [firstn map]. now left. }
    destruct (minFitness_le nodes links params pop' (ind h) Hin)
      as (m & -> & Hm).
    cbn [leExt]. rewrite <- Hfh in Hm. eapply Qcle_trans; eauto.
Qed.

(** An instance: one generation from a population of three. *)
Lemma evolve_never_worsens_the_best_witness :
  samplePopulation <> []
  /\ exists pop' c',
       GeneticOptimizer.evolve plateNodes plateLinks sampleParams sampleRandom
         samplePopulation 0 = Resolved (pop', c')
       /\ leExt (minFitness plateNodes plateLinks sampleParams pop')
            (minFitness plateNodes plateLinks sampleParams samplePopulation).
Proof.
  split; [discriminate|].
  destruct (evolve_never_worsens_the_best plateNodes plateLinks sampleParams
              sampleRandom samplePopulation 0) as [Htot Hle].
  destruct Htot as (pop' & c' & H); [discriminate|].
  exists pop', c'. split; [exact H|]. now apply (Hle pop' c').
Defined.

(** ** The link keys decode to what they were built from *)

Lemma split_pipe_parts s : Forall (fun p => pipeFree p = true) (split_pipe s).
Proof.
  induction s as [|c rest IH]; simpl.
  - constructor; [reflexivity | constructor].
  - destruct (Ascii.eqb c pipe) eqn:Hc.
    + constructor; [reflexivity | exact IH].
    + destruct (split_pipe rest) as [|h tl].
      * constructor; [|constructor]. simpl. now rewrite Hc.
      * inversion IH as [|? ? Hh Htl]; subst.
        constructor; [|exact Htl]. simpl. now rewrite Hc, Hh.
Qed.

Lemma nth_split_pipe_free s n : pipeFree (nth n (split_pipe s) "") = true.
Proof.
  destruct (nth_in_or_default n (split_pipe s) "") as [Hin | ->];
    [|reflexivity].
  pose proof (split_pipe_parts s) as Hall.
  rewrite Forall_forall in Hall. now apply Hall.
Qed.

(** X2: decoding the key built for a link from [i] to [x] gives back [i]
    and [x] exactly when neither id contains the separator '|'. *)
Theorem decodeLink_inverts_linkKey_iff_ids_are_pipe_free i x v :
  decodeLink (linkKey i x, v) = mkSankeyLink i x v
  <-> pipeFree i = true /\ pipeFree x = true.
Proof.
  split.
  - intro H. unfold decodeLink in H. cbn [fst snd] in H.
    injection H as Hs Ht.
    pose proof (nth_split_pipe_free (linkKey i x) 0) as P0.
    pose proof (nth_split_pipe_free (linkKey i x) 1) as P1.
    rewrite Hs in P0. rewrite Ht in P1. now split.
  - intros [Hi Hx]. unfold decodeLink. cbn [fst snd].
    fold (keySource (linkKey i x)) (keyTarget (linkKey i x)).
    now rewrite keySource_linkKey, keyTarget_linkKey.
Qed.

(** ** The nodes are the items the targets reach *)

Lemma reaches_unfold b x n :
  reaches b x n <-> n = x \/ exists i, dependsOn b x i /\ reaches b i n.
Proof.
  unfold reaches. split.
  - intro H. apply clos_rt_rt1n in H. inversion H as [|i ? Hxi Hin]; subst.
    + now left.
    + right. exists i. split; [exact Hxi|]. now apply clos_rt1n_rt.
  - intros [-> | (i & Hxi & Hin)].
    + apply rt_refl.
    + eapply rt_trans; [apply rt_step; exact Hxi | exact Hin].
Qed.

Lemma reaches_raw b x n : findRecipe b x = None -> (reaches b x n <-> n = x).
Proof.
  intro HF. rewrite reaches_unfold. split; [|now left].
  intros [H | (i & (r & Hr & _) & _)]; [exact H | congruence].
Qed.

Lemma reaches_crafted b x r n :
  findRecipe b x = Some r ->
  (reaches b x n
   <-> n = x \/ exists i, In i (inputs (recipe r)) /\ reaches b (ir_id i) n).
Proof.
  intro HF. rewrite reaches_unfold. split.
  - intros [H | (y & (r' & Hr' & Hy) & Hn)]; [now left|].
    right. assert (r' = r) by congruence. subst r'.
    apply in_map_iff in Hy. destruct Hy as (i & <- & Hi). now exists i.
  - intros [H | (i & Hi & Hn)]; [now left|].
    right. exists (ir_id i). split; [|exact Hn].
    exists r. split; [exact HF | now apply in_map].
Qed.

Lemma hasNode_addLink x i v e n : hasNode (addLink x i v e) n <-> hasNode e n.
Proof. reflexivity. Qed.

Lemma traverse_nodes :
  forall fuel x a e e',
    traverse fuel x a e = Some e' ->
    forall n, hasNode e' n <-> hasNode e n \/ reaches (env_buildings e) x n.
Proof.
  induction fuel as [|fuel IH]; intros x a e e' H n; [discriminate|].
  simpl in H.
  destruct (findRecipe (env_buildings e) x) as [r|] eqn:HF.
  - rewrite (reaches_crafted _ _ _ n HF).
    assert (Hloop :
      forall l e1 e2,
        env_buildings e1 = env_buildings e ->
        forEachM
          (fun input e' =>
             traverse fuel (ir_id input)
               (amount_per_minute input
                * (a / amount_per_minute (output (recipe r))))%Qc
               (addLink x input
                  (amount_per_minute input
                   * (a / amount_per_minute (output (recipe r))))%Qc e'))
          l e1 = Some e2 ->
        (hasNode e2 n
         <-> hasNode e1 n
             \/ exists i, In i l /\ reaches (env_buildings e) (ir_id i) n)).
    { induction l as [|i l IHl]; intros e1 e2 Hb Hl; simpl in Hl.
      - injection Hl as <-. split; [now left|].
        intros [Hn | (i & [] & _)]. exact Hn.
      - match type of Hl with
        | match ?t with _ => _ end = _ => destruct t as [e3|] eqn:Ht
        end; [|discriminate].
        pose proof (traverse_buildings _ _ _ _ _ Ht) as Hb3.
        simpl in Hb3. rewrite Hb in Hb3.
        rewrite (IHl e3 e2 Hb3 Hl).
        rewrite (IH _ _ _ _ Ht n). simpl env_buildings. rewrite Hb.
        rewrite hasNode_addLink. split.
        + intros [[Hn | Hn] | (j & Hj & Hn)].
          * now left.
          * right. exists i. split; [now left | exact Hn].
          * right. exists j. split; [now right | exact Hn].
        + intros [Hn | (j & [<- | Hj] & Hn)].
          * left. now left.
          * left. now right.
          * right. now exists j. }
    rewrite (Hloop (inputs (recipe r)) (visit x a e) e' eq_refl H).
    rewrite hasNode_visit. tauto.
  - injection H as <-. rewrite hasNode_visit.
    rewrite (reaches_raw _ _ n HF). tauto.
Qed.

Lemma targets_nodes fuel :
  forall ts e e',
    forEachM (fun t e' => traverse fuel (t_id t) (t_amount t) e') ts e = Some e' ->
    forall n,
      hasNode e' n
      <-> hasNode e n
          \/ exists t, In t ts /\ reaches (env_buildings e) (t_id t) n.
Proof.
  induction ts as [|t ts IH]; intros e e' H n; simpl in H.
  - injection H as <-. split; [now left|].
    intros [Hn | (t & [] & _)]. exact Hn.
  - destruct (traverse fuel (t_id t) (t_amount t) e) as [e1|] eqn:Ht;
      [|discriminate].
    rewrite (IH e1 e' H n), (traverse_nodes _ _ _ _ _ Ht n).
    rewrite (traverse_buildings _ _ _ _ _ Ht). split.
    + intros [[Hn | Hn] | (u & Hu & Hn)].
      * now left.
      * right. exists t. split; [now left | exact Hn].
      * right. exists u. split; [now right | exact Hn].
    + intros [Hn | (u & [<- | Hu] & Hn)].
      * left. now left.
      * left. now right.
      * right. now exists u.
Qed.

(** X3: [calculateRequirements] returns exactly one node for every item
    that some target reaches along recipe inputs (the target itself
    included), and no other node. *)
Theorem nodes_are_the_items_the_targets_reach fuel b targets d :
  calculateRequirements fuel b targets = Some d ->
  NoDup (map sn_name (sd_nodes d))
  /\ forall x,
       In x (map sn_name (sd_nodes d))
       <-> exists t, In t targets /\ reaches b (t_id t) x.
Proof.
  intro Hcalc. apply calculateRequirements_Some in Hcalc.
  destruct Hcalc as (e & Hrun & ->).
  pose proof (resolveTargets_nodesOk _ _ _ _ Hrun) as Hok.
  rewrite (nodes_names e Hok). split; [exact (proj1 Hok)|].
  intro x. unfold resolveTargets in Hrun. simpl in Hrun.
  pose proof (targets_nodes fuel targets (initEnv b targets) e Hrun x) as H.
  unfold hasNode in H at 1. rewrite H. simpl. split.
  - intros [[] | Ht]. exact Ht.
  - intro Ht. now right.
Qed.

(** An instance: the plate chain. *)
Lemma nodes_are_the_items_the_targets_reach_witness :
  exists d,
    calculateRequirements 3 plateCatalog plateTargets = Some d
    /\ NoDup (map sn_name (sd_nodes d))
    /\ forall x,
         In x (map sn_name (sd_nodes d))
         <-> exists t, In t plateTargets /\ reaches plateCatalog (t_id t) x.
Proof.
  eexists. split; [computed|].
  apply (nodes_are_the_items_the_targets_reach 3 plateCatalog plateTargets).
  computed.
Defined.

(** ** What a node says about its producer *)

Lemma describedBy_accumulate b node a :
  describedBy b node -> describedBy b (accumulate node a).
Proof.
  unfold describedBy, accumulate.
  destruct (sn_requiredAmount node); [|auto]. simpl. auto.
Qed.

Lemma describedBy_newNode b x : describedBy b (newNode x (findRecipe b x)).
Proof.
  unfold describedBy, newNode. simpl.
  destruct (findRecipe b x); auto.
Qed.

Lemma visit_described x a e :
  nodesDescribed (env_buildings e) (env_nodes e) ->
  nodesDescribed (env_buildings e) (env_nodes (visit x a e)).
Proof.
  intros Hd k node Hin. unfold visit in Hin. simpl in Hin.
  apply set_In in Hin. destruct Hin as [[-> ->] | Hin]; [|now apply Hd].
  rewrite accumulate_name.
  destruct (JSMap.get (env_nodes e) x) as [n0|] eqn:Hg.
  - apply get_Some_In in Hg. destruct (Hd _ _ Hg) as [Hn Hdn].
    split; [exact Hn | now apply describedBy_accumulate].
  - split; [reflexivity|]. apply describedBy_accumulate, describedBy_newNode.
Qed.

Lemma traverse_described :
  forall fuel x a e e',
    nodesDescribed (env_buildings e) (env_nodes e) ->
    traverse fuel x a e = Some e' ->
    nodesDescribed (env_buildings e) (env_nodes e').
Proof.
  induction fuel as [|fuel IH]; intros x a e e' Hd H; [discriminate|].
  simpl in H. pose proof (visit_described x a e Hd) as Hv.
  destruct (findRecipe (env_buildings e) x) as [r|];
    [|now injection H as <-].
  revert H.
  apply (forEachM_inv
           (fun t => env_buildings t = env_buildings e
                     /\ nodesDescribed (env_buildings e) (env_nodes t))).
  - split; [reflexivity | exact Hv].
  - intros i t t' _ [Hb Ht] Hstep.
    pose proof (traverse_buildings _ _ _ _ _ Hstep) as Hb'.
    apply IH in Hstep.
    + simpl in Hb', Hstep. rewrite Hb in Hb', Hstep. now split.
    + simpl. now rewrite Hb.
Qed.

Lemma resolveTargets_described fuel b targets e :
  resolveTargets fuel (initEnv b targets) = Some e ->
  nodesDescribed b (env_nodes e).
Proof.
  unfold resolveTargets. simpl. intro H.
  enough (env_buildings e = b /\ nodesDescribed b (env_nodes e)) by tauto.
  revert H.
  apply (forEachM_inv
           (fun t => env_buildings t = b /\ nodesDescribed b (env_nodes t))).
  - split; [reflexivity | intros k node []].
  - intros t s s' _ [Hb Hs] Hstep.
    pose proof (traverse_buildings _ _ _ _ _ Hstep) as Hb'.
    apply traverse_described in Hstep.
    + rewrite Hb in Hb', Hstep. now split.
    + now rewrite Hb.
Qed.

(** X4: every node [calculateRequirements] returns carries a required
    amount and names the producer the first-match lookup finds for its
    item: the id and name of the first building holding a recipe for it
    and that recipe's output rate, or 'raw', 'Source' and no rate when no
    recipe produces the item. *)
Theorem nodes_name_the_first_producer_of_their_item fuel b targets d n :
  calculateRequirements fuel b targets = Some d ->
  In n (sd_nodes d) ->
  (exists a, sn_requiredAmount n = Some a)
  /\ match findRecipe b (sn_name n) with
     | Some r =>
         sn_category n = buildingId r
         /\ sn_machineName n = buildingName r
         /\ sn_outputPerMachine n = Some (amount_per_minute (output (recipe r)))
     | None =>
         sn_category n = "raw"
         /\ sn_machineName n = "Source"
         /\ sn_outputPerMachine n = None
     end.
Proof.
  intros Hcalc Hn. apply calculateRequirements_Some in Hcalc.
  destruct Hcalc as (e & Hrun & ->).
  simpl in Hn. unfold JSMap.values in Hn. apply in_map_iff in Hn.
  destruct Hn as ([k node] & <- & Hin). simpl.
  split.
  - destruct (resolveTargets_nodesOk _ _ _ _ Hrun) as [_ Hok].
    now destruct (Hok _ _ Hin).
  - now destruct (resolveTargets_described _ _ _ _ Hrun _ _ Hin).
Qed.

(** An instance: the node of the bars in the plate chain. *)
Lemma nodes_name_the_first_producer_of_their_item_witness :
  exists d n,
    calculateRequirements 3 plateCatalog plateTargets = Some d
    /\ In n (sd_nodes d)
    /\ sn_name n = "bar"
    /\ (exists a, sn_requiredAmount n = Some a)
    /\ match findRecipe plateCatalog (sn_name n) with
       | Some r =>
           sn_category n = buildingId r
           /\ sn_machineName n = buildingName r
           /\ sn_outputPerMachine n = Some (amount_per_minute (output (recipe r)))
       | None =>
           sn_category n = "raw"
           /\ sn_machineName n = "Source"
           /\ sn_outputPerMachine n = None
       end.
Proof.
  eexists.
  exists (mkSankeyNode "bar" "smelter" "Smelter" (Some (qz 1)) (Some (qz 19))).
  split; [computed|].
  split; [vm_compute; right; left; reflexivity|].
  split; [reflexivity|].
  eapply (nodes_name_the_first_producer_of_their_item 3 plateCatalog plateTargets).
  - computed.
  - vm_compute. right. left. reflexivity.
Defined.

(** ** The links are the input edges of the nodes *)

Lemma linkKeys_addLink x i v e key :
  In key (JSMap.keys (env_linksMap (addLink x i v e)))
  <-> key = linkKey (ir_id i) x \/ In key (JSMap.keys (env_linksMap e)).
Proof. unfold addLink. simpl. apply keys_set_In. Qed.

Lemma traverse_linkKeys :
  forall fuel x a e e',
    traverse fuel x a e = Some e' ->
    forall key,
      In key (JSMap.keys (env_linksMap e'))
      <-> In key (JSMap.keys (env_linksMap e))
          \/ exists t i,
               reaches (env_buildings e) x t
               /\ dependsOn (env_buildings e) t i
               /\ key = linkKey i t.
Proof.
  induction fuel as [|fuel IH]; intros x a e e' H key; [discriminate|].
  simpl in H.
  destruct (findRecipe (env_buildings e) x) as [r|] eqn:HF.
  - assert (Hloop :
      forall l e1 e2,
        env_buildings e1 = env_buildings e ->
        forEachM
          (fun input e' =>
             traverse fuel (ir_id input)
               (amount_per_minute input
                * (a / amount_per_minute (output (recipe r))))%Qc
               (addLink x input
                  (amount_per_minute input
                   * (a / amount_per_minute (output (recipe r))))%Qc e'))
          l e1 = Some e2 ->
        (In key (JSMap.keys (env_linksMap e2))
         <-> In key (JSMap.keys (env_linksMap e1))
             \/ exists i, In i l
                  /\ (key = linkKey (ir_id i) x
                      \/ exists t j,
                           reaches (env_buildings e) (ir_id i) t
                           /\ dependsOn (env_buildings e) t j
                           /\ key = linkKey j t))).
    { induction l as [|i l IHl]; intros e1 e2 Hb Hl; simpl in Hl.
      - injection Hl as <-. split; [now left|].
        intros [Hn | (i & [] & _)]. exact Hn.
      - match type of Hl with
        | match ?t with _ => _ end = _ => destruct t as [e3|] eqn:Ht
        end; [|discriminate].
        pose proof (traverse_buildings _ _ _ _ _ Ht) as Hb3.
        simpl in Hb3. rewrite Hb in Hb3.
        rewrite (IHl e3 e2 Hb3 Hl).
        rewrite (IH _ _ _ _ Ht key). simpl env_buildings. rewrite Hb.
        rewrite linkKeys_addLink. split.
        + intros [[[Hk | Hk] | Hk] | (j & Hj & Hk)].
          * right. exists i. split; [now left | now left].
          * now left.
          * right. exists i. split; [now left | now right].
          * right. exists j. split; [now right | exact Hk].
        + intros [Hk | (j & [<- | Hj] & [Hk | Hk])].
          * left. left. now right.
          * left. left. now left.
          * left. now right.
          * right. exists j. split; [exact Hj | now left].
          * right. exists j. split; [exact Hj | now right]. }
    rewrite (Hloop (inputs (recipe r)) (visit x a e) e' eq_refl H).
    change (env_linksMap (visit x a e)) with (env_linksMap e).
    split.
    + intros [Hk | (i & Hi & [Hk | (t & j & Ht & Hd & Hk)])].
      * now left.
      * right. exists x, (ir_id i). split; [apply rt_refl|].
        split; [|exact Hk]. exists r. split; [exact HF | now apply in_map].
      * right. exists t, j. split; [|now split].
        apply (reaches_crafted _ _ _ t HF). right. now exists i.
    + intros [Hk | (t & j & Ht & Hd & Hk)]; [now left|]. right.
      apply (reaches_crafted _ _ _ t HF) in Ht.
      destruct Ht as [-> | (i & Hi & Ht)].
      * destruct Hd as (r' & Hr' & Hj).
        assert (r' = r) by congruence. subst r'.
        apply in_map_iff in Hj. destruct Hj as (i & <- & Hi).
        exists i. split; [exact Hi | now left].
      * exists i. split; [exact Hi|]. right. now exists t, j.
  - injection H as <-.
    change (env_linksMap (visit x a e)) with (env_linksMap e).
    split; [now left|].
    intros [Hk | (t & j & Ht & Hd & _)]; [exact Hk|].
    apply (reaches_raw _ _ t HF) in Ht. subst t.
    destruct Hd as (r' & Hr' & _). congruence.
Qed.

Lemma targets_linkKeys fuel :
  forall ts e e',
    forEachM (fun t e' => traverse fuel (t_id t) (t_amount t) e') ts e = Some e' ->
    forall key,
      In key (JSMap.keys (env_linksMap e'))
      <-> In key (JSMap.keys (env_linksMap e))
          \/ exists tg t i,
               In tg ts
               /\ reaches (env_buildings e) (t_id tg) t
               /\ dependsOn (env_buildings e) t i
               /\ key = linkKey i t.
Proof.
  induction ts as [|tg ts IH]; intros e e' H key; simpl in H.
  - injection H as <-. split; [now left|].
    intros [Hn | (tg & t & i & [] & _)]. exact Hn.
  - destruct (traverse fuel (t_id tg) (t_amount tg) e) as [e1|] eqn:Ht;
      [|discriminate].
    rewrite (IH e1 e' H key), (traverse_linkKeys _ _ _ _ _ Ht key).
    rewrite (traverse_buildings _ _ _ _ _ Ht). split.
    + intros [[Hk | (t & i & Hk)] | (u & t & i & Hu & Hk)].
      * now left.
      * right. exists tg, t, i. split; [now left | exact Hk].
      * right. exists u, t, i. split; [now right | exact Hk].
    + intros [Hk | (u & t & i & [<- | Hu] & Hk)].
      * left. now left.
      * left. right. now exists t, i.
      * right. now exists u, t, i.
Qed.

Lemma reaches_pipeFree b targets tg t :
  pipeFreeIds b targets = true -> In tg targets -> reaches b (t_id tg) t ->
  pipeFree t = true.
Proof.
  intros Hpf Htg Hr. unfold reaches in Hr. apply clos_rt_rtn1 in Hr.
  inversion Hr as [|y ? (r & HF & Hin) _]; subst.
  - now apply (pipeFreeIds_targets _ _ Hpf).
  - apply in_map_iff in Hin. destruct Hin as (i & <- & Hi).
    now apply (findRecipe_inputsPipeFree b y r i (pipeFreeIds_inputs _ _ Hpf)).
Qed.

Lemma dependsOn_pipeFree b targets t i :
  pipeFreeIds b targets = true -> dependsOn b t i -> pipeFree i = true.
Proof.
  intros Hpf (r & HF & Hin). apply in_map_iff in Hin.
  destruct Hin as (j & <- & Hj).
  now apply (findRecipe_inputsPipeFree b t r j (pipeFreeIds_inputs _ _ Hpf)).
Qed.

Lemma linkEnds_dataOf e :
  map linkEnds (sd_links (dataOf e))
  = map endpoints (JSMap.keys (env_linksMap e)).
Proof.
  simpl. unfold JSMap.keys. rewrite !map_map. apply map_ext.
  intros [key v]. reflexivity.
Qed.

(** X5: provided no item id contains '|', the links
    [calculateRequirements] returns are exactly the input edges of its
    nodes: there is a link from [s] to [t] if and only if [t] is a returned
    node and [s] is an input of the first recipe that produces [t]. *)
Theorem links_are_the_input_edges_of_the_nodes fuel b targets d :
  pipeFreeIds b targets = true ->
  calculateRequirements fuel b targets = Some d ->
  forall s t,
    In (s, t) (map linkEnds (sd_links d))
    <-> In t (map sn_name (sd_nodes d)) /\ dependsOn b t s.
Proof.
  intros Hpf Hcalc s t. apply calculateRequirements_Some in Hcalc.
  destruct Hcalc as (e & Hrun & ->).
  pose proof (resolveTargets_nodesOk _ _ _ _ Hrun) as Hok.
  rewrite (nodes_names e Hok), linkEnds_dataOf.
  unfold resolveTargets in Hrun. simpl in Hrun.
  pose proof (targets_nodes fuel targets (initEnv b targets) e Hrun) as Hnodes.
  pose proof (targets_linkKeys fuel targets (initEnv b targets) e Hrun) as Hkeys.
  simpl in Hnodes, Hkeys. unfold hasNode in Hnodes.
  split.
  - intro Hin. apply in_map_iff in Hin. destruct Hin as (key & Hends & Hkey).
    apply Hkeys in Hkey.
    destruct Hkey as [[] | (tg & t' & i & Htg & Hr & Hd & ->)].
    rewrite (endpoints_linkKey _ i t' eq_refl) in Hends.
    + injection Hends as <- <-. split; [|exact Hd].
      apply Hnodes. right. now exists tg.
    + now apply (dependsOn_pipeFree b targets t').
    + now apply (reaches_pipeFree b targets tg).
  - intros [Hn Hd]. apply Hnodes in Hn.
    destruct Hn as [[] | (tg & Htg & Hr)].
    apply in_map_iff. exists (linkKey s t). split.
    + apply endpoints_linkKey; [reflexivity | |].
      * now apply (dependsOn_pipeFree b targets t).
      * now apply (reaches_pipeFree b targets tg).
    + apply Hkeys. right. now exists tg, t, s.
Qed.

(** An instance: the plate chain. *)
Lemma links_are_the_input_edges_of_the_nodes_witness :
  exists d,
    pipeFreeIds plateCatalog plateTargets = true
    /\ calculateRequirements 3 plateCatalog plateTargets = Some d
    /\ forall s t,
         In (s, t) (map linkEnds (sd_links d))
         <-> In t (map sn_name (sd_nodes d)) /\ dependsOn plateCatalog t s.
Proof.
  eexists. split; [computed|]. split; [computed|].
  apply (links_are_the_input_edges_of_the_nodes 3 plateCatalog plateTargets).
  - computed.
  - computed.
Defined.

(** ** Positive demand gives positive amounts *)

Lemma Qc_pos_plus a b : (0 < a)%Qc -> (0 <= b)%Qc -> (0 < a + b)%Qc.
Proof.
  intros Ha Hb. apply Qclt_le_trans with a; [exact Ha|].
  rewrite <- (Qcplus_0_r a) at 1.
  apply Qcplus_le_compat; [apply Qcle_refl | exact Hb].
Qed.

Lemma Qc_pos_mult a b : (0 < a)%Qc -> (0 < b)%Qc -> (0 < a * b)%Qc.
Proof.
  intros Ha Hb. rewrite <- (Qcmult_0_l b). now apply Qcmult_lt_compat_r.
Qed.

Lemma Qc_pos_inv a : (0 < a)%Qc -> (0 < / a)%Qc.
Proof.
  unfold Qclt. intro Ha.
  change (this (/ a)%Qc) with (Qred (/ this a)). rewrite Qred_correct.
  change (this 0%Qc) with 0%Q in *. now apply Qinv_lt_0_compat.
Qed.

Lemma Qc_pos_div a b : (0 < a)%Qc -> (0 < b)%Qc -> (0 < a / b)%Qc.
Proof. intros Ha Hb. apply Qc_pos_mult; [exact Ha | now apply Qc_pos_inv]. Qed.

Lemma Qcltb_true_lt a b : Qcltb a b = true -> (a < b)%Qc.
Proof. apply Qcltb_lt. Qed.

Lemma positiveRatesCheck_sound b : positiveRatesCheck b = true -> positiveRates b.
Proof.
  unfold positiveRatesCheck, positiveRates. rewrite forallb_forall.
  intros H r Hr. apply H in Hr. apply andb_true_iff in Hr.
  destruct Hr as [Ho Hi]. split; [now apply Qcltb_true_lt|].
  rewrite forallb_forall in Hi. intros i Hin. now apply Qcltb_true_lt, Hi.
Qed.

Lemma positiveTargetsCheck_sound ts :
  positiveTargetsCheck ts = true -> positiveTargets ts.
Proof.
  unfold positiveTargetsCheck, positiveTargets. rewrite forallb_forall.
  intros H t Ht. now apply Qcltb_true_lt, H.
Qed.

Lemma visit_positive x a e :
  (0 < a)%Qc -> positiveEnv e -> positiveEnv (visit x a e).
Proof.
  intros Ha [Hn Hl]. split; [|exact Hl].
  intros k node Hin. unfold visit in Hin. simpl in Hin.
  apply set_In in Hin. destruct Hin as [[-> ->] | Hin]; [|now apply (Hn k)].
  destruct (JSMap.get (env_nodes e) x) as [n0|] eqn:Hg.
  - apply get_Some_In in Hg. destruct (Hn _ _ Hg) as (r & Hr & Hpos).
    unfold accumulate. rewrite Hr. simpl. eexists. split; [reflexivity|].
    rewrite Qcplus_comm. apply Qc_pos_plus; [exact Ha|].
    now apply Qclt_le_weak.
  - unfold accumulate. simpl. eexists. split; [reflexivity|].
    now rewrite Qcplus_0_l.
Qed.

Lemma addLink_positive x i v e :
  (0 < v)%Qc -> positiveEnv e -> positiveEnv (addLink x i v e).
Proof.
  intros Hv [Hn Hl]. split; [exact Hn|].
  intros k w Hin. unfold addLink in Hin. simpl in Hin.
  apply set_In in Hin. destruct Hin as [[-> ->] | Hin]; [|now apply (Hl k)].
  rewrite Qcplus_comm. apply Qc_pos_plus; [exact Hv|].
  destruct (JSMap.get (env_linksMap e) (linkKey (ir_id i) x)) as [w|] eqn:Hg.
  - rewrite orZero_Some. apply Qclt_le_weak. apply get_Some_In in Hg.
    now apply (Hl _ _ Hg).
  - simpl. apply Qcle_refl.
Qed.

Lemma traverse_positive :
  forall fuel x a e e',
    positiveRates (env_buildings e) ->
    (0 < a)%Qc ->
    positiveEnv e ->
    traverse fuel x a e = Some e' ->
    positiveEnv e'.
Proof.
  induction fuel as [|fuel IH]; intros x a e e' Hrates Ha He H; [discriminate|].
  simpl in H. pose proof (visit_positive x a e Ha He) as Hv.
  destruct (findRecipe (env_buildings e) x) as [r|] eqn:HF;
    [|now injection H as <-].
  destruct (findRecipe_Some _ _ _ HF) as [Hr _].
  destruct (Hrates _ Hr) as [Hout Hin].
  revert H.
  apply (forEachM_inv
           (fun t => env_buildings t = env_buildings e /\ positiveEnv t)).
  - split; [reflexivity | exact Hv].
  - intros i t t' Hi [Hb Ht] Hstep.
    pose proof (traverse_buildings _ _ _ _ _ Hstep) as Hb'.
    simpl in Hb'. rewrite Hb in Hb'. split; [exact Hb'|].
    assert (Hamount :
      (0 < amount_per_minute i * (a / amount_per_minute (output (recipe r))))%Qc).
    { apply Qc_pos_mult; [now apply Hin | now apply Qc_pos_div]. }
    apply IH in Hstep; [exact Hstep | | exact Hamount |].
    + simpl. now rewrite Hb.
    + now apply addLink_positive.
Qed.

(** X6: when every rate of every recipe and every target amount is
    positive, every node [calculateRequirements] returns has a positive
    required amount and every link a positive value. *)
Theorem positive_demand_gives_positive_amounts fuel b targets d :
  positiveRates b ->
  positiveTargets targets ->
  calculateRequirements fuel b targets = Some d ->
  (forall n, In n (sd_nodes d) ->
     exists a, sn_requiredAmount n = Some a /\ (0 < a)%Qc)
  /\ (forall l, In l (sd_links d) -> (0 < sl_value l)%Qc).
Proof.
  intros Hrates Htargets Hcalc. apply calculateRequirements_Some in Hcalc.
  destruct Hcalc as (e & Hrun & ->).
  assert (He : env_buildings e = b /\ positiveEnv e).
  { unfold resolveTargets in Hrun. simpl in Hrun. revert Hrun.
    apply (forEachM_inv (fun t => env_buildings t = b /\ positiveEnv t)).
    - split; [reflexivity|]. split; intros k v [].
    - intros t s s' Ht [Hb Hs] Hstep.
      pose proof (traverse_buildings _ _ _ _ _ Hstep) as Hb'.
      rewrite Hb in Hb'. split; [exact Hb'|].
      apply traverse_positive in Hstep; [exact Hstep | | | exact Hs].
      + now rewrite Hb.
      + now apply Htargets. }
  destruct He as [_ [Hn Hl]]. split.
  - intros n Hin. simpl in Hin. unfold JSMap.values in Hin.
    apply in_map_iff in Hin. destruct Hin as ([k node] & <- & Hin).
    now apply (Hn k).
  - intros l Hin. simpl in Hin. apply in_map_iff in Hin.
    destruct Hin as ([k v] & <- & Hin). simpl. now apply (Hl k).
Qed.

(** An instance: the plate chain. *)
Lemma positive_demand_gives_positive_amounts_witness :
  exists d,
    positiveRates plateCatalog
    /\ positiveTargets plateTargets
    /\ calculateRequirements 3 plateCatalog plateTargets = Some d
    /\ (forall n, In n (sd_nodes d) ->
          exists a, sn_requiredAmount n = Some a /\ (0 < a)%Qc)
    /\ (forall l, In l (sd_links d) -> (0 < sl_value l)%Qc).
Proof.
  eexists.
  split; [apply positiveRatesCheck_sound; computed|].
  split; [apply positiveTargetsCheck_sound; computed|].
  split; [computed|].
  apply (positive_demand_gives_positive_amounts 3 plateCatalog plateTargets).
  - apply positiveRatesCheck_sound. computed.
  - apply positiveTargetsCheck_sound. computed.
  - computed.
Defined.

(** ** The nearest centroid *)

Lemma ltInf_Some a m : ltInf a (Some m) = Qcltb a m.
Proof. reflexivity. Qed.

Lemma nearestFrom_firstClosest node :
  forall rest seen closest minDist,
    firstClosest node seen closest minDist ->
    exists minDist',
      firstClosest node (seen ++ rest)
        (nearestFrom (Z.of_nat (List.length seen)) rest node closest minDist)
        minDist'.
Proof.
  induction rest as [|c rest IH]; intros seen closest minDist Hinv.
  - simpl. rewrite app_nil_r. now exists minDist.
  - simpl.
    assert (Hidx : (Z.of_nat (List.length seen) + 1)%Z
                   = Z.of_nat (List.length (seen ++ [c]))).
    { rewrite length_app. simpl. lia. }
    assert (Hlast : nth_error (seen ++ [c]) (List.length seen) = Some c).
    { rewrite nth_error_app2 by lia. now rewrite Nat.sub_diag. }
    assert (Hsplit : forall i c',
               nth_error (seen ++ [c]) i = Some c' ->
               (i < List.length seen /\ nth_error seen i = Some c')
               \/ (i = List.length seen /\ c' = c)).
    { intros i c' Hi. destruct (Nat.lt_ge_cases i (List.length seen)) as [Hlt | Hge].
      - left. split; [exact Hlt|]. now rewrite nth_error_app1 in Hi.
      - right. rewrite nth_error_app2 in Hi by exact Hge.
        destruct (i - List.length seen) as [|d] eqn:Hd.
        + simpl in Hi. split; [lia | congruence].
        + simpl in Hi. destruct d; discriminate. }
    rewrite Hidx.
    replace (seen ++ c :: rest) with ((seen ++ [c]) ++ rest)
      by (now rewrite <- app_assoc).
    destruct (ltInf (sqDist node c) minDist) eqn:Hlt; apply IH.
    + right. exists (List.length seen), c.
      split; [reflexivity|]. split; [exact Hlast|]. split; [reflexivity|].
      destruct Hinv as [(-> & _ & _) | (j & cj & _ & Hj & -> & Hmin & _)].
      * split.
        -- intros i c' Hi. destruct (Hsplit i c' Hi) as [[Hi' _] | [_ ->]].
           ++ simpl in Hi'. lia.
           ++ apply Qcle_refl.
        -- intros i c' Hi'. simpl in Hi'. lia.
      * rewrite ltInf_Some in Hlt. apply Qcltb_lt in Hlt.
        assert (Hstrict : forall i c', nth_error seen i = Some c' ->
                            (sqDist node c < sqDist node c')%Qc).
        { intros i c' Hi. eapply Qclt_le_trans; [exact Hlt|].
          now apply (Hmin i). }
        split.
        -- intros i c' Hi. destruct (Hsplit i c' Hi) as [[_ Hi'] | [_ ->]].
           ++ apply Qclt_le_weak. now apply (Hstrict i).
           ++ apply Qcle_refl.
        -- intros i c' Hlti Hi. destruct (Hsplit i c' Hi) as [[_ Hi'] | [Heq _]].
           ++ now apply (Hstrict i).
           ++ lia.
    + destruct Hinv as [(_ & _ & ->) | (j & cj & -> & Hj & -> & Hmin & Hfirst)];
        [discriminate|].
      rewrite ltInf_Some in Hlt. apply Qcltb_ge in Hlt.
      right. exists j, cj. split; [reflexivity|].
      assert (Hjlt : j < List.length seen) by (eapply nth_error_lt; eauto).
      split; [now rewrite nth_error_app1|]. split; [reflexivity|]. split.
      * intros i c' Hi. destruct (Hsplit i c' Hi) as [[_ Hi'] | [_ ->]].
        -- now apply (Hmin i).
        -- exact Hlt.
      * intros i c' Hlti Hi. destruct (Hsplit i c' Hi) as [[_ Hi'] | [Heq _]].
        -- now apply (Hfirst i).
        -- lia.
Qed.

(** X7: among one or more centroids, [nearest] answers the index of a
    centroid no other centroid is closer to the node than, and of those the
    one with the lowest index: every centroid before it is strictly
    farther. *)
Theorem nearest_is_the_first_closest_centroid centroids node :
  centroids <> [] ->
  exists j c,
    nearest centroids node = Z.of_nat j
    /\ nth_error centroids j = Some c
    /\ (forall i c', nth_error centroids i = Some c' ->
          (sqDist node c <= sqDist node c')%Qc)
    /\ (forall i c', i < j -> nth_error centroids i = Some c' ->
          (sqDist node c < sqDist node c')%Qc).
Proof.
  intro Hne. unfold nearest.
  destruct (nearestFrom_firstClosest node centroids [] (-1)%Z None)
    as (md & [(Hnil & _) | (j & c & Hj & Hc & _ & Hmin & Hfirst)]).
  - left. repeat split.
  - simpl in Hnil. contradiction.
  - simpl in Hj, Hc, Hmin, Hfirst. exists j, c. repeat split; assumption.
Qed.

(** An instance: the item at 59 among the three seeds of the line. *)
Lemma nearest_is_the_first_closest_centroid_witness :
  lineSeeds <> []
  /\ exists j c,
       nearest lineSeeds (itemAt "e" 59 0) = Z.of_nat j
       /\ nth_error lineSeeds j = Some c
       /\ (forall i c', nth_error lineSeeds i = Some c' ->
             (sqDist (itemAt "e" 59 0) c <= sqDist (itemAt "e" 59 0) c')%Qc)
       /\ (forall i c', i < j -> nth_error lineSeeds i = Some c' ->
             (sqDist (itemAt "e" 59 0) c < sqDist (itemAt "e" 59 0) c')%Qc).
Proof.
  assert (Hne : lineSeeds <> []) by (vm_compute; discriminate).
  split; [exact Hne|].
  exact (nearest_is_the_first_closest_centroid lineSeeds (itemAt "e" 59 0) Hne).
Defined.

(** ** When a round reports a change *)

Lemma sameCluster_Some c o : sameCluster (Some c) o = true <-> o = Some c.
Proof.
  destruct o as [c'|]; simpl.
  - rewrite Z.eqb_eq. split; congruence.
  - split; discriminate.
Qed.

Lemma assignNode_hasChanged centroids prev n st st1 :
  assignNode centroids prev n st = Resolved st1 ->
  rs_hasChanged st1 = rs_hasChanged st || moves centroids prev n.
Proof.
  unfold assignNode, moves.
  destruct (addToSum (rs_clusterSums st) (nearest centroids n) n);
    [|discriminate].
  destruct (sameCluster (Some (nearest centroids n)) (JSMap.get prev (mn_id n)));
    intro H; injection H as <-; simpl.
  - now rewrite orb_false_r.
  - now rewrite orb_true_r.
Qed.

Lemma assign_hasChanged centroids prev :
  forall items st st',
    forEachO (assignNode centroids prev) items st = Resolved st' ->
    rs_hasChanged st'
    = rs_hasChanged st || existsb (moves centroids prev) items.
Proof.
  induction items as [|n items IH]; intros st st' H; simpl in H.
  - injection H as <-. simpl. now rewrite orb_false_r.
  - destruct (assignNode centroids prev n st) as [st1|] eqn:Hstep;
      [|discriminate].
    simpl in H.
    rewrite (IH _ _ H), (assignNode_hasChanged _ _ _ _ _ Hstep).
    simpl. now rewrite orb_assoc.
Qed.

(** X8: a k-means round reports a change exactly when, for some item, the
    nearest centroid is not the cluster the previous assignment holds for
    it (an item the previous assignment does not hold counts as moved). *)
Theorem round_reports_a_change_iff_an_item_moves items k centroids prev r :
  kmeansRound items k centroids prev = Resolved r ->
  (r_hasChanged r = true
   <-> exists n, In n items
         /\ JSMap.get prev (mn_id n) <> Some (nearest centroids n)).
Proof.
  unfold kmeansRound. intro H.
  destruct (forEachO (assignNode centroids prev) items
              (mkRoundState JSMap.empty (repeat (mkClusterSum 0 0 0) k) false))
    as [st|] eqn:Hloop; [|discriminate].
  simpl in H. injection H as <-. simpl.
  rewrite (assign_hasChanged _ _ _ _ _ Hloop). simpl.
  rewrite existsb_exists. split.
  - intros (n & Hin & Hm). exists n. split; [exact Hin|].
    unfold moves in Hm. apply negb_true_iff in Hm.
    intro Heq. apply sameCluster_Some in Heq. congruence.
  - intros (n & Hin & Hm). exists n. split; [exact Hin|].
    unfold moves. apply negb_true_iff.
    destruct (sameCluster (Some (nearest centroids n))
                (JSMap.get prev (mn_id n))) eqn:Hs; [|reflexivity].
    apply sameCluster_Some in Hs. contradiction.
Qed.

(** An instance: the first round on the line, which starts from the empty
    assignment. *)
Lemma round_reports_a_change_iff_an_item_moves_witness :
  exists r,
    kmeansRound lineItems 3 lineSeeds JSMap.empty = Resolved r
    /\ (r_hasChanged r = true
        <-> exists n, In n lineItems
              /\ JSMap.get JSMap.empty (mn_id n) <> Some (nearest lineSeeds n)).
Proof.
  eexists. split; [computed|].
  apply (round_reports_a_change_iff_an_item_moves lineItems 3 lineSeeds
           JSMap.empty).
  computed.
Defined.

(** ** The passes keep the lowest score *)

Lemma leExt_trans a b c : leExt a b -> leExt b c -> leExt a c.
Proof.
  destruct a as [x|], b as [y|], c as [z|]; simpl; try tauto.
  apply Qcle_trans.
Qed.

Lemma ltInf_leExt s m m' : ltInf s m = true -> leExt m m' -> ltInf s m' = true.
Proof.
  destruct m as [x|], m' as [y|]; simpl; try tauto.
  intros Hlt Hle. apply Qcltb_lt. apply Qcltb_lt in Hlt.
  eapply Qclt_le_trans; eauto.
Qed.

Lemma ltInf_true_leExt s m : ltInf s m = true -> leExt (Some s) m.
Proof.
  destruct m as [x|]; simpl; [|tauto].
  intro H. apply Qcltb_lt in H. now apply Qclt_le_weak.
Qed.

Lemma ltInf_false_leExt s m : ltInf s m = false -> leExt m (Some s).
Proof.
  destruct m as [x|]; simpl; [|discriminate].
  intro H. now apply Qcltb_ge in H.
Qed.

Lemma kmeansPass_passAssignment sh items k links splitCs pass best :
  kmeansPass sh items k links splitCs pass best
  = (a <- passAssignment sh items k pass ;;
     Resolved
       (if ltInf (scoreOf links splitCs a) (bestScore best)
        then mkBest a (Some (scoreOf links splitCs a))
        else best)).
Proof. reflexivity. Qed.

Lemma kmeansPasses_lowest sh items k links splitCs :
  forall left p0 b0 best,
    kmeansPasses sh items k links splitCs left p0 b0 = Resolved best ->
    leExt (bestScore best) (bestScore b0)
    /\ (forall q a',
          p0 <= q < p0 + left -> passAssignment sh items k q = Resolved a' ->
          leExt (bestScore best) (Some (scoreOf links splitCs a')))
    /\ (best = b0
        \/ exists p a,
             p0 <= p < p0 + left
             /\ passAssignment sh items k p = Resolved a
             /\ best = mkBest a (Some (scoreOf links splitCs a))
             /\ ltInf (scoreOf links splitCs a) (bestScore b0) = true
             /\ forall q a',
                  p0 <= q < p -> passAssignment sh items k q = Resolved a' ->
                  (scoreOf links splitCs a < scoreOf links splitCs a')%Qc).
Proof.
  induction left as [|left IH]; intros p0 b0 best H.
  - simpl in H. injection H as <-. split; [apply leExt_refl|].
    split; [intros q a' Hq; lia | now left].
  - cbn [kmeansPasses] in H. rewrite kmeansPass_passAssignment in H.
    destruct (passAssignment sh items k p0) as [a0|] eqn:Hp0; [|discriminate].
    cbn [bindO] in H.
    set (s0 := scoreOf links splitCs a0) in *.
    set (b1 := if ltInf s0 (bestScore b0) then mkBest a0 (Some s0) else b0) in *.
    destruct (IH _ _ _ H) as (Hle & Hall & Hfrom).
    assert (Hb1le : leExt (bestScore b1) (bestScore b0)).
    { unfold b1. destruct (ltInf s0 (bestScore b0)) eqn:Hlt.
      - now apply ltInf_true_leExt.
      - apply leExt_refl. }
    assert (Hb1s0 : leExt (bestScore b1) (Some s0)).
    { unfold b1. destruct (ltInf s0 (bestScore b0)) eqn:Hlt.
      - apply leExt_refl.
      - now apply ltInf_false_leExt. }
    split; [eapply leExt_trans; eauto|].
    split.
    + intros q a' Hq Ha'. destruct (Nat.eq_dec q p0) as [-> | Hne].
      * assert (a' = a0) by congruence. subst a'.
        eapply leExt_trans; eauto.
      * apply (Hall q a'); [lia | exact Ha'].
    + destruct Hfrom as [-> | (p & a & Hp & Ha & -> & Hlt & Hfirst)].
      * unfold b1. destruct (ltInf s0 (bestScore b0)) eqn:Hlt.
        -- right. exists p0, a0. split; [lia|]. split; [exact Hp0|].
           split; [reflexivity|]. split; [exact Hlt|].
           intros q a' Hq. lia.
        -- now left.
      * right. exists p, a. split; [lia|]. split; [exact Ha|].
        split; [reflexivity|].
        split; [eapply ltInf_leExt; eauto|].
        intros q a' Hq Ha'. destruct (Nat.eq_dec q p0) as [-> | Hne].
        -- assert (a' = a0) by congruence. subst a'.
           pose proof (ltInf_leExt _ _ _ Hlt Hb1s0) as Hlt0.
           now apply Qcltb_lt in Hlt0.
        -- apply (Hfirst q); [lia | exact Ha'].
Qed.

Lemma passAssignment_ok sh items k pass :
  1 <= k <= List.length items ->
  exists a, passAssignment sh items k pass = Resolved a.
Proof.
  intros [Hk Hlen]. unfold passAssignment.
  destruct (kmeansLoop_ok k Hk items 50
              (map (fun n => mkPoint (coord (mn_x n)) (coord (mn_y n)))
                 (firstn k (shuffle sh pass items)))
              JSMap.empty) as (a & Ha & _).
  - rewrite length_map, length_firstn.
    rewrite (Permutation_length (shuffle_perm sh pass items)). lia.
  - apply assignmentInRange_empty.
  - now exists a.
Qed.

(** X9: with between one and as many clusters as items, the passes of
    [optimizeLayout] end holding the assignment of the first pass whose
    score is the lowest of all passes: no pass scores lower and every
    earlier pass scores strictly higher. Without a pass the initial empty
    assignment is kept. *)
Theorem passes_keep_the_first_lowest_score sh items k links splitCs attempts :
  1 <= k <= List.length items ->
  exists best,
    kmeansPasses sh items k links splitCs attempts 0 (mkBest JSMap.empty None)
    = Resolved best
    /\ (attempts = 0 -> best = mkBest JSMap.empty None)
    /\ (1 <= attempts ->
        exists p a,
          p < attempts
          /\ passAssignment sh items k p = Resolved a
          /\ best = mkBest a (Some (scoreOf links splitCs a))
          /\ (forall q a',
                q < attempts -> passAssignment sh items k q = Resolved a' ->
                (scoreOf links splitCs a <= scoreOf links splitCs a')%Qc)
          /\ (forall q a',
                q < p -> passAssignment sh items k q = Resolved a' ->
                (scoreOf links splitCs a < scoreOf links splitCs a')%Qc)).
Proof.
  intro Hk.
  destruct (kmeansPasses_ok sh items k links splitCs Hk attempts 0
              (mkBest JSMap.empty None) (assignmentInRange_empty k))
    as (best & Hbest & _).
  exists best. split; [exact Hbest|].
  destruct (kmeansPasses_lowest _ _ _ _ _ _ _ _ _ Hbest) as (_ & Hall & Hfrom).
  split.
  - intros ->. simpl in Hbest. now injection Hbest as <-.
  - intro Hattempts.
    destruct Hfrom as [-> | (p & a & Hp & Ha & -> & _ & Hfirst)].
    + destruct (passAssignment_ok sh items k 0 Hk) as (a0 & Ha0).
      destruct (Hall 0 a0 ltac:(lia) Ha0).
    + exists p, a. split; [lia|]. split; [exact Ha|]. split; [reflexivity|].
      split.
      * intros q a' Hq Ha'. apply (Hall q a'); [lia | exact Ha'].
      * intros q a' Hq Ha'. apply (Hfirst q a'); [lia | exact Ha'].
Qed.

(** An instance: three passes over the items of the line. *)
Lemma passes_keep_the_first_lowest_score_witness :
  1 <= 3 <= List.length lineItems
  /\ exists best,
       kmeansPasses identityShuffler lineItems 3 [] [] 3 0
         (mkBest JSMap.empty None)
       = Resolved best
       /\ exists p a,
            p < 3
            /\ passAssignment identityShuffler lineItems 3 p = Resolved a
            /\ best = mkBest a (Some (scoreOf [] [] a)).
Proof.
  assert (Hk : 1 <= 3 <= List.length lineItems) by (vm_compute; lia).
  split; [exact Hk|].
  destruct (passes_keep_the_first_lowest_score identityShuffler lineItems 3
              [] [] 3 Hk) as (best & Hbest & _ & Hsome).
  exists best. split; [exact Hbest|].
  destruct (Hsome ltac:(lia)) as (p & a & Hp & Ha & Hb & _).
  exists p, a. split; [exact Hp|]. split; [exact Ha | exact Hb].
Defined.

(** ** The cluster map groups the nodes by cluster id *)

Lemma groupOf_pushCluster c n m c' :
  groupOf (pushCluster c n m) c'
  = if Z.eqb c c' then groupOf m c ++ [n] else groupOf m c'.
Proof.
  induction m as [|[c0 ns] m IH]; simpl.
  - destruct (Z.eqb c c'); reflexivity.
  - destruct (Z.eqb c0 c) eqn:H0; simpl.
    + apply Z.eqb_eq in H0. subst c0.
      destruct (Z.eqb c c'); reflexivity.
    + rewrite IH. destruct (Z.eqb c0 c') eqn:H1; [|reflexivity].
      apply Z.eqb_eq in H1. subst c0. now rewrite Z.eqb_sym, H0.
Qed.

Lemma keys_pushCluster c n m c' :
  In c' (map fst (pushCluster c n m)) <-> c' = c \/ In c' (map fst m).
Proof.
  induction m as [|[c0 ns] m IH]; simpl.
  - intuition.
  - destruct (Z.eqb c0 c) eqn:H0; simpl.
    + apply Z.eqb_eq in H0. subst c0. intuition.
    + rewrite IH. intuition.
Qed.

Lemma NoDup_pushCluster c n m :
  NoDup (map fst m) -> NoDup (map fst (pushCluster c n m)).
Proof.
  induction m as [|[c0 ns] m IH]; simpl; intro Hnd.
  - constructor; [intros [] | constructor].
  - inversion Hnd as [|? ? Hnotin Hrest]; subst.
    destruct (Z.eqb c0 c) eqn:H0; simpl.
    + constructor; assumption.
    + constructor; [|now apply IH].
      rewrite keys_pushCluster. intros [-> | Hin]; [|contradiction].
      now rewrite Z.eqb_refl in H0.
Qed.

Lemma groupOf_In m c ns :
  NoDup (map fst m) -> In (c, ns) m -> groupOf m c = ns.
Proof.
  induction m as [|[c0 ns0] m IH]; simpl; intros Hnd Hin; [contradiction|].
  inversion Hnd as [|? ? Hnotin Hrest]; subst.
  destruct Hin as [Heq | Hin].
  - injection Heq as -> ->. now rewrite Z.eqb_refl.
  - destruct (Z.eqb c0 c) eqn:H0; [|now apply IH].
    apply Z.eqb_eq in H0. subst c0. exfalso. apply Hnotin.
    change c with (fst (c, ns)). now apply in_map.
Qed.

Lemma In_groupOf m c : In c (map fst m) -> In (c, groupOf m c) m.
Proof.
  induction m as [|[c0 ns0] m IH]; simpl; [tauto|].
  intros [-> | Hin].
  - rewrite Z.eqb_refl. now left.
  - destruct (Z.eqb c0 c) eqn:H0.
    + apply Z.eqb_eq in H0. subst c0. now left.
    + right. now apply IH.
Qed.

Lemma sameCluster_key o c : sameCluster o (Some c) = true <-> o = Some c.
Proof.
  destruct o as [c'|]; simpl.
  - rewrite Z.eqb_eq. split; congruence.
  - split; discriminate.
Qed.

Lemma groupClusters_from nodes :
  forall m,
    NoDup (map fst m) ->
    let g :=
      fold_left
        (fun m n =>
           match mn_clusterId n with
           | Some c => pushCluster c n m
           | None => m
           end)
        nodes m in
    NoDup (map fst g)
    /\ (forall c, groupOf g c = groupOf m c ++ inCluster c nodes)
    /\ (forall c, In c (map fst g)
                  <-> In c (map fst m) \/ inCluster c nodes <> []).
Proof.
  induction nodes as [|n nodes IH]; intros m Hnd; simpl.
  - split; [exact Hnd|]. split.
    + intro c. now rewrite app_nil_r.
    + intro c. tauto.
  - destruct (mn_clusterId n) as [c0|] eqn:Hc.
    + destruct (IH (pushCluster c0 n m) (NoDup_pushCluster c0 n m Hnd))
        as (Hnd' & Hgrp & Hkeys).
      split; [exact Hnd'|]. split.
      * intro c. rewrite Hgrp, groupOf_pushCluster. unfold inCluster. simpl.
        rewrite ?Hc. simpl. destruct (Z.eqb c0 c) eqn:H0.
        -- apply Z.eqb_eq in H0. subst c0. now rewrite <- app_assoc.
        -- reflexivity.
      * intro c. rewrite Hkeys, keys_pushCluster. unfold inCluster. simpl.
        rewrite ?Hc. simpl. destruct (Z.eqb c0 c) eqn:H0.
        -- apply Z.eqb_eq in H0. subst c0. split.
           ++ intros _. right. discriminate.
           ++ intros _. left. now left.
        -- split.
           ++ intros [[-> | Hin] | Hne].
              ** now rewrite Z.eqb_refl in H0.
              ** now left.
              ** now right.
           ++ intros [Hin | Hne]; [left; now right | now right].
    + destruct (IH m Hnd) as (Hnd' & Hgrp & Hkeys).
      split; [exact Hnd'|]. split.
      * intro c. rewrite Hgrp. unfold inCluster. simpl. now rewrite ?Hc.
      * intro c. rewrite Hkeys. unfold inCluster. simpl. now rewrite ?Hc.
Qed.

(** X10: the cluster map both optimizers build from the final nodes has
    one entry per cluster id that some node carries; the entry of an id
    holds exactly the nodes with that id, in node order, and is never
    empty. A node without a cluster id is in no group. *)
Theorem cluster_map_groups_the_nodes_by_cluster_id nodes :
  NoDup (map fst (groupClusters nodes))
  /\ (forall c ns, In (c, ns) (groupClusters nodes) ->
        ns = inCluster c nodes /\ ns <> [])
  /\ (forall n c, In n nodes -> mn_clusterId n = Some c ->
        exists ns, In (c, ns) (groupClusters nodes) /\ In n ns)
  /\ (forall n c ns, In (c, ns) (groupClusters nodes) -> In n ns ->
        In n nodes /\ mn_clusterId n = Some c).
Proof.
  destruct (groupClusters_from nodes [] (NoDup_nil _)) as (Hnd & Hgrp & Hkeys).
  fold (groupClusters nodes) in Hnd, Hgrp, Hkeys. simpl in Hgrp, Hkeys.
  assert (Hentry : forall c ns, In (c, ns) (groupClusters nodes) ->
                     ns = inCluster c nodes /\ ns <> []).
  { intros c ns Hin. pose proof (groupOf_In _ _ _ Hnd Hin) as Hg.
    rewrite Hgrp in Hg. subst ns. split; [reflexivity|].
    assert (Hk : In c (map fst (groupClusters nodes))).
    { change c with (fst (c, inCluster c nodes)). now apply in_map. }
    apply Hkeys in Hk. now destruct Hk as [[] | Hk]. }
  split; [exact Hnd|]. split; [exact Hentry|]. split.
  - intros n c Hin Hc.
    assert (Hmem : In n (inCluster c nodes)).
    { unfold inCluster. apply filter_In. split; [exact Hin|].
      now apply sameCluster_key. }
    exists (inCluster c nodes). split; [|exact Hmem].
    rewrite <- Hgrp. apply In_groupOf. apply Hkeys. right.
    intro Hnil. now rewrite Hnil in Hmem.
  - intros n c ns Hin Hn. destruct (Hentry c ns Hin) as [-> _].
    unfold inCluster in Hn. apply filter_In in Hn.
    destruct Hn as [Hn Hc]. split; [exact Hn | now apply sameCluster_key].
Qed.

(** ** The optimizers keep the flow graph *)

Lemma sameMachine_refl n : sameMachine n n.
Proof. repeat split. Qed.

Lemma sameMachine_trans a b c : sameMachine a b -> sameMachine b c -> sameMachine a c.
Proof.
  unfold sameMachine. intros (H1 & H2 & H3 & H4 & H5 & H6 & H7 & H8)
    (K1 & K2 & K3 & K4 & K5 & K6 & K7 & K8).
  repeat split; congruence.
Qed.

Lemma Forall2_sameMachine_trans l1 :
  forall l2 l3,
    Forall2 sameMachine l1 l2 -> Forall2 sameMachine l2 l3 ->
    Forall2 sameMachine l1 l3.
Proof.
  induction l1 as [|a l1 IH]; intros l2 l3 H12 H23.
  - inversion H12; subst. inversion H23; subst. constructor.
  - inversion H12; subst. inversion H23; subst. constructor.
    + eapply sameMachine_trans; eauto.
    + eapply IH; eauto.
Qed.

Lemma Forall2_sameMachine_map (f : MachineNode -> MachineNode) l :
  (forall n, sameMachine n (f n)) -> Forall2 sameMachine l (map f l).
Proof. intro Hf. induction l; simpl; constructor; auto. Qed.

Lemma Forall2_sameMachine_mapiFrom (f : MachineNode -> nat -> MachineNode) :
  (forall n i, sameMachine n (f n i)) ->
  forall l s, Forall2 sameMachine l (mapiFrom s f l).
Proof. intro Hf. induction l; intro s; simpl; constructor; auto. Qed.

Lemma clusterNodes_sameMachine sh nodes links k splitCs attempts nodes' :
  clusterNodes sh nodes links k splitCs attempts = Resolved nodes' ->
  Forall2 sameMachine nodes nodes'.
Proof.
  unfold clusterNodes. destruct (filter isItem nodes) as [|i items].
  - intro H. injection H as <-.
    rewrite <- (map_id nodes) at 2. apply Forall2_sameMachine_map.
    apply sameMachine_refl.
  - destruct (kmeansPasses sh (i :: items)
                (Nat.min k (List.length (i :: items))) links splitCs attempts 0
                (mkBest JSMap.empty None)) as [best|]; cbn [bindO];
      [|intro; discriminate].
    intro H. injection H as <-. apply Forall2_sameMachine_map.
    intro n. repeat split.
Qed.

Lemma layout_sameMachine embed sh nodes0 links k splitCs cs attempts r :
  (nodes' <- clusterNodes sh (settle embed nodes0 (simLinksOf nodes0 links cs))
               links k splitCs attempts ;;
   Resolved (assemble nodes' links)) = Resolved r ->
  Forall2 sameMachine nodes0 (or_nodes r)
  /\ or_links r = links
  /\ or_clusters r = groupClusters (or_nodes r).
Proof.
  destruct (clusterNodes sh (settle embed nodes0 (simLinksOf nodes0 links cs))
              links k splitCs attempts) as [nodes'|] eqn:Hc; cbn [bindO];
    [|intro; discriminate].
  intro H. injection H as <-. cbn [or_nodes or_links or_clusters assemble].
  split; [|split; reflexivity].
  eapply Forall2_sameMachine_trans;
    [|eapply clusterNodes_sameMachine; exact Hc].
  unfold settle, mapi. apply Forall2_sameMachine_mapiFrom.
  intros n i. repeat split.
Qed.

Lemma ga_sameMachine nodes links bestResult r :
  gaAssemble nodes links bestResult = Resolved r ->
  Forall2 sameMachine nodes (or_nodes r)
  /\ or_links r = links
  /\ or_clusters r = groupClusters (or_nodes r).
Proof.
  unfold gaAssemble. destruct bestResult as [best|]; [|intro; discriminate].
  destruct (assignGenes (br_individual best) nodes) as [nodes'|] eqn:Hn;
    cbn [bindO]; [|intro; discriminate].
  destruct (gaCrossFlow nodes' links (br_individual best)) as [total|];
    cbn [bindO]; [|intro; discriminate].
  intro H. injection H as <-. cbn [or_nodes or_links or_clusters].
  split; [|split; reflexivity].
  unfold assignGenes in Hn. destruct (br_individual best) as [i|].
  - injection Hn as <-. unfold mapi. apply Forall2_sameMachine_mapiFrom.
    intros n idx. repeat split.
  - destruct nodes; [|discriminate]. injection Hn as <-. constructor.
Qed.

(** X11: a result of either optimizer holds the flow graph of
    [calculateRequirements] unchanged: one machine node per returned node,
    in the same order, with the same id, name, building, required amount,
    output rate and machine name,
    the same links with the same values, and as clusters the grouping of
    its own nodes. *)
Theorem optimizers_keep_the_flow_graph fuel embed sh rnd b targets k splitCs cs
  params attempts d :
  calculateRequirements fuel b targets = Some d ->
  (forall run r,
      optimizeLayout fuel embed sh b targets k splitCs cs attempts = Some run ->
      run_outcome run = Resolved r ->
      Forall2 sameMachine (map toMachineNode (sd_nodes d)) (or_nodes r)
      /\ or_links r = map toMachineLink (sd_links d)
      /\ or_clusters r = groupClusters (or_nodes r))
  /\ (forall run r,
        runGeneticOptimization fuel rnd b targets params attempts = Some run ->
        run_outcome run = Resolved r ->
        Forall2 sameMachine (map toMachineNode (sd_nodes d)) (or_nodes r)
        /\ or_links r = map toMachineLink (sd_links d)
        /\ or_clusters r = groupClusters (or_nodes r)).
Proof.
  intro Hcalc. apply calculateRequirements_Some in Hcalc.
  destruct Hcalc as (e & Hrun & ->).
  unfold optimizeLayout, runGeneticOptimization. rewrite Hrun.
  split; intros run r Heq; injection Heq as <-; cbn [run_outcome].
  - intro H. apply simulate_settled in H. revert H.
    apply layout_sameMachine.
  - destruct (gaSearch rnd _ _ params attempts) as [bestResult|err];
      cbn [bindO]; [|intro; discriminate].
    apply ga_sameMachine.
Qed.

(** An instance: both optimizers on the plate chain. *)
Lemma optimizers_keep_the_flow_graph_witness :
  exists d,
    calculateRequirements 3 plateCatalog plateTargets = Some d
    /\ (exists run r,
          optimizeLayout 3 sampleEmbedding identityShuffler plateCatalog
            plateTargets 2 [] [] 2 = Some run
          /\ run_outcome run = Resolved r
          /\ Forall2 sameMachine (map toMachineNode (sd_nodes d)) (or_nodes r)
          /\ or_links r = map toMachineLink (sd_links d)
          /\ or_clusters r = groupClusters (or_nodes r))
    /\ (exists run r,
          runGeneticOptimization 3 sampleRandom plateCatalog plateTargets
            sampleParams 2 = Some run
          /\ run_outcome run = Resolved r
          /\ Forall2 sameMachine (map toMachineNode (sd_nodes d)) (or_nodes r)
          /\ or_links r = map toMachineLink (sd_links d)
          /\ or_clusters r = groupClusters (or_nodes r)).
Proof.
  eexists. split; [computed|].
  pose proof (optimizers_keep_the_flow_graph 3 sampleEmbedding identityShuffler
                sampleRandom plateCatalog plateTargets 2 [] [] sampleParams 2)
    as H.
  specialize (H _ ltac:(computed)). destruct H as [Hk Hg]. split.
  - eexists. eexists. split; [computed|]. split; [computed|].
    eapply Hk; computed.
  - eexists. eexists. split; [computed|]. split; [computed|].
    eapply Hg; computed.
Defined.

(** ** Degenerate calls of the k-means partitioner *)

Lemma kmeansPasses_zero_clusters sh i items links splitCs left pass best :
  kmeansPasses sh (i :: items) 0 links splitCs (S left) pass best
  = Rejected "TypeError".
Proof. reflexivity. Qed.

Lemma items_of_layout embed (ns : list SankeyNode) sl :
  filter (fun n => negb (String.eqb (sn_category n) "sink")) ns <> [] ->
  filter isItem (settle embed (map toMachineNode ns) sl) <> [].
Proof.
  intros Hne Hnil. pose proof (items_of_settle embed ns sl) as Hlen.
  rewrite Hnil in Hlen. simpl in Hlen.
  destruct (filter (fun n => negb (String.eqb (sn_category n) "sink")) ns);
    [now apply Hne | discriminate].
Qed.

Lemma no_items_of_layout embed (ns : list SankeyNode) sl :
  filter (fun n => negb (String.eqb (sn_category n) "sink")) ns = [] ->
  filter isItem (settle embed (map toMachineNode ns) sl) = [].
Proof.
  intro Hnil. pose proof (items_of_settle embed ns sl) as Hlen.
  rewrite Hnil in Hlen. simpl in Hlen.
  now destruct (filter isItem (settle embed (map toMachineNode ns) sl)).
Qed.

(** X12: provided no item id of the catalog or of the target list contains
    '|', [optimizeLayout] asked for zero clusters rejects with a TypeError
    as soon as the flow graph has an item to cluster and at least one pass
    is made: the first item finds no centroid and the sum of cluster -1
    does not exist. *)
Theorem zero_clusters_reject_the_layout fuel embed sh b targets splitCs cs
  attempts d :
  pipeFreeIds b targets = true ->
  calculateRequirements fuel b targets = Some d ->
  itemsOf d <> [] ->
  1 <= attempts ->
  exists run,
    optimizeLayout fuel embed sh b targets 0 splitCs cs attempts = Some run
    /\ run_outcome run = Rejected "TypeError".
Proof.
  intros Hpf Hcalc Hitems Hattempts. apply calculateRequirements_Some in Hcalc.
  destruct Hcalc as (e & Hrun & ->).
  unfold optimizeLayout. rewrite Hrun. eexists. split; [reflexivity|].
  cbn [run_outcome].
  pose proof (simulate_joined fuel embed b targets cs e Hpf Hrun) as Hsim.
  cbn [dataOf sd_nodes sd_links] in Hsim |- *. rewrite Hsim. cbn [bindO].
  unfold clusterNodes.
  pose proof (items_of_layout embed (sd_nodes (dataOf e))
                (simLinksOf (map toMachineNode (sd_nodes (dataOf e)))
                   (map toMachineLink (sd_links (dataOf e))) cs) Hitems) as Hne.
  destruct (filter isItem _) as [|i items]; [contradiction|].
  destruct attempts as [|left]; [lia|].
  cbn [Nat.min]. now rewrite kmeansPasses_zero_clusters.
Qed.

(** An instance: the plate chain with zero clusters. *)
Lemma zero_clusters_reject_the_layout_witness :
  exists d,
    pipeFreeIds plateCatalog plateTargets = true
    /\ calculateRequirements 3 plateCatalog plateTargets = Some d
    /\ itemsOf d <> []
    /\ exists run,
         optimizeLayout 3 sampleEmbedding identityShuffler plateCatalog
           plateTargets 0 [] [] 2 = Some run
         /\ run_outcome run = Rejected "TypeError".
Proof.
  eexists. split; [reflexivity|]. split; [computed|].
  split; [vm_compute; discriminate|].
  eapply (zero_clusters_reject_the_layout 3 sampleEmbedding identityShuffler
            plateCatalog plateTargets [] [] 2).
  - reflexivity.
  - computed.
  - vm_compute. discriminate.
  - lia.
Defined.

Lemma crossFlowBy_none lookup links :
  (forall l, In l links -> crossesBy lookup l = false) ->
  crossFlowBy lookup links = 0%Qc.
Proof.
  intro H. rewrite crossFlowBy_filter.
  replace (filter (crossesBy lookup) links) with (@nil MachineLink);
    [reflexivity|].
  symmetry. induction links as [|l links IH]; [reflexivity|]. simpl.
  rewrite (H l (or_introl eq_refl)). apply IH.
  intros l' Hl'. apply H. now right.
Qed.

Lemma nodeClusterLookup_Some nodes id c :
  nodeClusterLookup nodes id = Some c ->
  exists n, In n nodes /\ mn_clusterId n = Some c.
Proof.
  unfold nodeClusterLookup.
  destruct (JSMap.get _ id) as [o|] eqn:Hg; [|discriminate].
  intros ->. apply of_entries_get_Some in Hg. apply in_map_iff in Hg.
  destruct Hg as (n & Heq & Hin). injection Heq as _ Hc. now exists n.
Qed.

Lemma crossFlow_one_cluster nodes links c :
  (forall n, In n nodes -> mn_clusterId n = Some c) ->
  crossFlowBy (nodeClusterLookup nodes) links = 0%Qc.
Proof.
  intro Hall. apply crossFlowBy_none. intros l _. unfold crossesBy.
  destruct (nodeClusterLookup nodes (ml_source l)) as [sC|] eqn:Hs;
    [|reflexivity].
  destruct (nodeClusterLookup nodes (ml_target l)) as [tC|] eqn:Ht;
    [|reflexivity].
  apply nodeClusterLookup_Some in Hs. destruct Hs as (n & Hn & Hc).
  apply nodeClusterLookup_Some in Ht. destruct Ht as (n' & Hn' & Hc').
  rewrite (Hall n Hn) in Hc. rewrite (Hall n' Hn') in Hc'.
  assert (sC = tC) by congruence. subst tC. now rewrite Z.eqb_refl.
Qed.

Lemma crossFlow_unclustered nodes links :
  (forall n, In n nodes -> mn_clusterId n = None) ->
  crossFlowBy (nodeClusterLookup nodes) links = 0%Qc.
Proof.
  intro Hall. apply crossFlowBy_none. intros l _. unfold crossesBy.
  destruct (nodeClusterLookup nodes (ml_source l)) as [sC|] eqn:Hs;
    [|reflexivity].
  apply nodeClusterLookup_Some in Hs. destruct Hs as (n & Hn & Hc).
  rewrite (Hall n Hn) in Hc. discriminate.
Qed.

Lemma groupClusters_fold_unclustered nodes :
  forall m,
    (forall n, In n nodes -> mn_clusterId n = None) ->
    fold_left
      (fun m n =>
         match mn_clusterId n with
         | Some c => pushCluster c n m
         | None => m
         end)
      nodes m = m.
Proof.
  induction nodes as [|n nodes IH]; intros m Hall; simpl; [reflexivity|].
  rewrite (Hall n (or_introl eq_refl)). apply IH.
  intros n' Hn'. apply Hall. now right.
Qed.

Lemma groupClusters_fold_one_cluster c nodes :
  forall pre,
    (forall n, In n nodes -> mn_clusterId n = Some c) ->
    fold_left
      (fun m n =>
         match mn_clusterId n with
         | Some c => pushCluster c n m
         | None => m
         end)
      nodes [(c, pre)] = [(c, pre ++ nodes)].
Proof.
  induction nodes as [|n nodes IH]; intros pre Hall; simpl.
  - now rewrite app_nil_r.
  - rewrite (Hall n (or_introl eq_refl)). simpl. rewrite Z.eqb_refl.
    rewrite IH.
    + now rewrite <- app_assoc.
    + intros n' Hn'. apply Hall. now right.
Qed.

Lemma groupClusters_one_cluster c n nodes :
  (forall n', In n' (n :: nodes) -> mn_clusterId n' = Some c) ->
  groupClusters (n :: nodes) = [(c, n :: nodes)].
Proof.
  intro Hall. unfold groupClusters. simpl.
  rewrite (Hall n (or_introl eq_refl)). simpl.
  apply (groupClusters_fold_one_cluster c nodes [n]).
  intros n' Hn'. apply Hall. now right.
Qed.

(** X13: the two calls of [optimizeLayout] that cluster nothing, provided
    no item id of the catalog or of the target list contains '|'. When the
    flow graph has no item to cluster (no node at all, or only nodes of a
    building called 'sink') the promise resolves with every node left
    without a cluster id and an empty cluster map. When it has one but no
    pass is made (attempts = 0), every node lands in cluster 0, whatever
    the requested number of clusters. The cross-cluster flow is 0 in both
    cases. *)
Theorem layout_without_items_or_passes fuel embed sh b targets k splitCs cs
  attempts d :
  pipeFreeIds b targets = true ->
  calculateRequirements fuel b targets = Some d ->
  exists run,
    optimizeLayout fuel embed sh b targets k splitCs cs attempts = Some run
    /\ (itemsOf d = [] ->
        exists r,
          run_outcome run = Resolved r
          /\ (forall n, In n (or_nodes r) -> mn_clusterId n = None)
          /\ or_clusters r = []
          /\ totalCrossFlow (or_stats r) = 0%Qc)
    /\ (itemsOf d <> [] -> attempts = 0 ->
        exists r,
          run_outcome run = Resolved r
          /\ (forall n, In n (or_nodes r) -> mn_clusterId n = Some 0%Z)
          /\ or_clusters r = [(0%Z, or_nodes r)]
          /\ totalCrossFlow (or_stats r) = 0%Qc).
Proof.
  intros Hpf Hcalc. apply calculateRequirements_Some in Hcalc.
  destruct Hcalc as (e & Hrun & ->).
  unfold optimizeLayout. rewrite Hrun. eexists. split; [reflexivity|].
  cbn [run_outcome].
  pose proof (simulate_joined fuel embed b targets cs e Hpf Hrun) as Hsim.
  cbn [dataOf sd_nodes sd_links] in Hsim |- *. rewrite Hsim. cbn [bindO].
  clear Hsim.
  change (JSMap.values (env_nodes e)) with (sd_nodes (dataOf e)).
  change (map decodeLink (env_linksMap e)) with (sd_links (dataOf e)).
  set (nodes0 := map toMachineNode (sd_nodes (dataOf e))).
  set (links := map toMachineLink (sd_links (dataOf e))).
  set (nodes := settle embed nodes0 (simLinksOf nodes0 links cs)).
  assert (Hnone : forall n, In n nodes -> mn_clusterId n = None).
  { intros n Hin.
    destruct (proj2 (settle_shape embed nodes0 (simLinksOf nodes0 links cs))
                n Hin) as (n0 & Hn0 & ->).
    now apply (toMachineNode_unclustered (sd_nodes (dataOf e))). }
  split.
  - intro Hitems. unfold clusterNodes.
    pose proof (no_items_of_layout embed (sd_nodes (dataOf e))
                  (simLinksOf nodes0 links cs) Hitems) as Hnil.
    fold nodes0 in Hnil. fold nodes in Hnil. rewrite Hnil.
    cbn [bindO]. eexists. split; [reflexivity|].
    cbn [or_nodes or_clusters or_stats assemble totalCrossFlow].
    split; [exact Hnone|]. split.
    + unfold groupClusters. now apply groupClusters_fold_unclustered.
    + now apply crossFlow_unclustered.
  - intros Hitems ->. unfold clusterNodes.
    pose proof (items_of_layout embed (sd_nodes (dataOf e))
                  (simLinksOf nodes0 links cs) Hitems) as Hne.
    fold nodes0 in Hne. fold nodes in Hne.
    destruct (filter isItem nodes) as [|i items] eqn:Hf; [contradiction|].
    cbn [kmeansPasses bindO]. eexists. split; [reflexivity|].
    cbn [or_nodes or_clusters or_stats assemble totalCrossFlow].
    assert (Hzero : forall n, In n (map (applyBest JSMap.empty) nodes) ->
                      mn_clusterId n = Some 0%Z).
    { intros n Hin. apply in_map_iff in Hin.
      now destruct Hin as (n0 & <- & _). }
    split; [exact Hzero|]. split.
    + destruct nodes as [|n nodes']; [discriminate|].
      cbn [map]. apply groupClusters_one_cluster. exact Hzero.
    + now apply (crossFlow_one_cluster _ _ 0%Z).
Qed.

(** An instance: the plate chain without a pass. *)
Lemma layout_without_items_or_passes_witness :
  exists d,
    pipeFreeIds plateCatalog plateTargets = true
    /\ calculateRequirements 3 plateCatalog plateTargets = Some d
    /\ itemsOf d <> []
    /\ exists run,
         optimizeLayout 3 sampleEmbedding identityShuffler plateCatalog
           plateTargets 2 [] [] 0 = Some run
         /\ exists r,
              run_outcome run = Resolved r
              /\ (forall n, In n (or_nodes r) -> mn_clusterId n = Some 0%Z)
              /\ or_clusters r = [(0%Z, or_nodes r)]
              /\ totalCrossFlow (or_stats r) = 0%Qc.
Proof.
  eexists. split; [reflexivity|]. split; [computed|].
  split; [vm_compute; discriminate|].
  destruct (layout_without_items_or_passes 3 sampleEmbedding identityShuffler
              plateCatalog plateTargets 2 [] [] 0 _ eq_refl ltac:(computed))
    as (run & Hrun & _ & Hzero).
  exists run. split; [exact Hrun|].
  apply Hzero; [vm_compute; discriminate | reflexivity].
Defined.

(** ** The population keeps its size and shape *)

Lemma length_insertScored x l :
  List.length (GeneticOptimizer.insertScored x l) = S (List.length l).
Proof.
  induction l as [|y l IH]; simpl; [reflexivity|].
  destruct (Qcltb (fitness y) (fitness x)); simpl; [now rewrite IH | reflexivity].
Qed.

Lemma length_sortByFitness l :
  List.length (GeneticOptimizer.sortByFitness l) = List.length l.
Proof.
  induction l as [|x l IH]; simpl; [reflexivity|].
  now rewrite length_insertScored, IH.
Qed.

Lemma length_randomIndividual params rnd ns c :
  List.length (fst (GeneticOptimizer.randomIndividual params rnd ns c))
  = List.length ns.
Proof.
  revert c. induction ns as [|n ns IH]; intro c; simpl; [reflexivity|].
  specialize (IH (S c)).
  destruct (GeneticOptimizer.randomIndividual params rnd ns (S c)).
  simpl in *. now rewrite IH.
Qed.

Lemma initializeFrom_shape nodes params rnd :
  forall left c,
    List.length (fst (GeneticOptimizer.initializeFrom nodes params rnd left c))
    = left
    /\ Forall (fitsNodes nodes)
         (fst (GeneticOptimizer.initializeFrom nodes params rnd left c)).
Proof.
  induction left as [|left IH]; intro c; simpl.
  - split; [reflexivity | constructor].
  - pose proof (length_randomIndividual params rnd nodes c) as Hlen.
    destruct (GeneticOptimizer.randomIndividual params rnd nodes c) as [i c1].
    specialize (IH c1).
    destruct (GeneticOptimizer.initializeFrom nodes params rnd left c1).
    simpl in *. destruct IH as [IHl IHf]. split; [now rewrite IHl|].
    constructor; assumption.
Qed.

Lemma length_crossoverFrom rnd b :
  forall a s c,
    List.length (fst (GeneticOptimizer.crossoverFrom rnd s a b c))
    = List.length a.
Proof.
  induction a as [|g a IH]; intros s c; simpl; [reflexivity|].
  specialize (IH (S s) (S c)).
  destruct (GeneticOptimizer.crossoverFrom rnd (S s) a b (S c)).
  simpl in *. now rewrite IH.
Qed.

Lemma length_mutate params rnd :
  forall i c,
    List.length (fst (GeneticOptimizer.mutate params rnd i c)) = List.length i.
Proof.
  induction i as [|g i IH]; intro c; simpl; [reflexivity|].
  destruct (Qcltb (draw rnd c) (mutationRate params)).
  - specialize (IH (S (S c))).
    destruct (GeneticOptimizer.mutate params rnd i (S (S c))).
    simpl in *. now rewrite IH.
  - specialize (IH (S c)).
    destruct (GeneticOptimizer.mutate params rnd i (S c)).
    simpl in *. now rewrite IH.
Qed.

Lemma length_breed params rnd sp :
  forall left np c np' c',
    GeneticOptimizer.breed params rnd left sp np c = Resolved (np', c') ->
    List.length np' = List.length np + left.
Proof.
  induction left as [|left IH]; intros np c np' c' H; simpl in H.
  - injection H as <- _. lia.
  - destruct (GeneticOptimizer.tournamentSelect rnd sp c) as [a|];
      [|discriminate].
    simpl in H.
    destruct (GeneticOptimizer.tournamentSelect rnd sp (snd a)) as [b|];
      [|discriminate].
    simpl in H.
    destruct (GeneticOptimizer.crossover rnd (fst a) (fst b) (snd b))
      as [child c1].
    destruct (GeneticOptimizer.mutate params rnd child c1) as [child' c2].
    apply IH in H. rewrite H, length_app. simpl. lia.
Qed.

Lemma length_evolve nodes links params rnd population c pop' c' :
  GeneticOptimizer.evolve nodes links params rnd population c
  = Resolved (pop', c') ->
  List.length pop'
  = Nat.max (populationSize params)
      (Nat.min (GeneticOptimizer.eliteCount params) (List.length population)).
Proof.
  unfold GeneticOptimizer.evolve. intro H. apply length_breed in H.
  rewrite H, length_map, length_firstn, length_sortByFitness, length_map.
  lia.
Qed.

(** X14: the population of the genetic search keeps its size and shape:
    [initialize] builds [populationSize] individuals with one gene per
    node, and however many generations [evolve] runs on them, every
    population it leaves has [populationSize] individuals with one gene
    per node. *)
Theorem population_keeps_its_size_and_shape nodes links params rnd c :
  (List.length (fst (GeneticOptimizer.initialize nodes params rnd c))
   = populationSize params
   /\ Forall (fitsNodes nodes)
        (fst (GeneticOptimizer.initialize nodes params rnd c)))
  /\ forall generations population c0 pop' c',
       List.length population = populationSize params ->
       Forall (fitsNodes nodes) population ->
       GeneticOptimizer.evolveTimes nodes links params rnd generations
         population c0 = Resolved (pop', c') ->
       List.length pop' = populationSize params
       /\ Forall (fitsNodes nodes) pop'.
Proof.
  split; [apply initializeFrom_shape|].
  intros generations population c0 pop' c' Hlen Hfit H. split.
  - revert population c0 Hlen Hfit H.
    induction generations as [|g IH]; intros population c0 Hlen Hfit H;
      simpl in H.
    + now injection H as <- _.
    + destruct (GeneticOptimizer.evolve nodes links params rnd population c0)
        as [[pop1 c1]|] eqn:He; [|discriminate].
      simpl in H. apply (IH pop1 c1); [| |exact H].
      * apply length_evolve in He. rewrite He, Hlen. lia.
      * destruct (evolve_children nodes links params rnd (fitsNodes nodes))
          with (population := population) (c := c0) (pop' := pop1) (c' := c1)
          as (_ & _ & Hall); try assumption.
        -- intros a b c2 Ha _. unfold fitsNodes, GeneticOptimizer.crossover.
           now rewrite length_crossoverFrom.
        -- intros i c2 Hi. unfold fitsNodes. now rewrite length_mutate.
  - apply (evolveTimes_keeps nodes links params rnd (fitsNodes nodes))
      with (left := generations) (population := population) (c := c0) (c' := c');
      try assumption.
    + intros a b c2 Ha _. unfold fitsNodes, GeneticOptimizer.crossover.
      now rewrite length_crossoverFrom.
    + intros i c2 Hi. unfold fitsNodes. now rewrite length_mutate.
Qed.

(** An instance: three generations of the sample search on the plate
    chain. *)
Lemma population_keeps_its_size_and_shape_witness :
  exists pop' c',
    GeneticOptimizer.evolveTimes plateNodes plateLinks sampleParams sampleRandom
      3 (fst (GeneticOptimizer.initialize plateNodes sampleParams sampleRandom 0))
      (snd (GeneticOptimizer.initialize plateNodes sampleParams sampleRandom 0))
    = Resolved (pop', c')
    /\ List.length pop' = populationSize sampleParams
    /\ Forall (fitsNodes plateNodes) pop'.
Proof.
  destruct (population_keeps_its_size_and_shape plateNodes plateLinks
              sampleParams sampleRandom 0) as [[Hlen Hfit] Hkeep].
  eexists. eexists. split; [computed|].
  eapply (Hkeep 3
           (fst (GeneticOptimizer.initialize plateNodes sampleParams sampleRandom 0))
           (snd (GeneticOptimizer.initialize plateNodes sampleParams sampleRandom 0))
           _ _ Hlen Hfit).
  computed.
Defined.

(** ** Crossover and mutation *)

Lemma crossoverFrom_genes rnd b :
  forall a s c,
    snd (GeneticOptimizer.crossoverFrom rnd s a b c) = c + List.length a
    /\ forall j,
         j < List.length a ->
         geneAt (fst (GeneticOptimizer.crossoverFrom rnd s a b c)) j
         = if Qcltb (draw rnd (c + j)) GeneticOptimizer.half
           then geneAt a j
           else geneAt b (s + j).
Proof.
  induction a as [|g a IH]; intros s c; simpl.
  - split; [lia | intros j Hj; lia].
  - destruct (IH (S s) (S c)) as [Hc Hg].
    destruct (GeneticOptimizer.crossoverFrom rnd (S s) a b (S c)) as [tl c1].
    simpl in *. split; [lia|].
    intros [|j] Hj.
    + unfold geneAt at 1 2. simpl. now rewrite !Nat.add_0_r.
    + replace (c + S j) with (S c + j) by lia.
      replace (s + S j) with (S s + j) by lia.
      change (geneAt tl j
              = if Qcltb (draw rnd (S c + j)) GeneticOptimizer.half
                then geneAt a j
                else geneAt b (S s + j)).
      apply Hg. lia.
Qed.

Lemma geneAt_ext (a b : Individual) :
  List.length a = List.length b ->
  (forall j, j < List.length a -> geneAt a j = geneAt b j) ->
  a = b.
Proof.
  revert b. induction a as [|g a IH]; intros [|h b] Hlen Hall;
    try discriminate; [reflexivity|].
  f_equal.
  - exact (Hall 0 (Nat.lt_0_succ _)).
  - apply IH; [now injection Hlen|].
    intros j Hj. apply (Hall (S j)). simpl. lia.
Qed.

(** X15: the child [crossover] builds has as many genes as the first
    parent, and the gene at each position is the gene one of the two
    parents has at that position (the first parent's when the draw for the
    position is below 1/2). It uses one draw per gene, and two identical
    parents give back the same individual. *)
Theorem crossover_takes_each_gene_from_a_parent rnd a b c :
  List.length (fst (GeneticOptimizer.crossover rnd a b c)) = List.length a
  /\ snd (GeneticOptimizer.crossover rnd a b c) = c + List.length a
  /\ (forall j, j < List.length a ->
        geneAt (fst (GeneticOptimizer.crossover rnd a b c)) j
        = if Qcltb (draw rnd (c + j)) GeneticOptimizer.half
          then geneAt a j
          else geneAt b j)
  /\ fst (GeneticOptimizer.crossover rnd a a c) = a.
Proof.
  unfold GeneticOptimizer.crossover.
  split; [apply length_crossoverFrom|].
  split; [apply crossoverFrom_genes|].
  split; [apply crossoverFrom_genes|].
  apply geneAt_ext; [apply length_crossoverFrom|].
  intros j Hj. rewrite length_crossoverFrom in Hj.
  rewrite (proj2 (crossoverFrom_genes rnd a a 0 c) j Hj). simpl.
  now destruct (Qcltb (draw rnd (c + j)) GeneticOptimizer.half).
Qed.

Lemma mutate_frozen params rnd :
  (mutationRate params <= 0)%Qc ->
  forall i c,
    GeneticOptimizer.mutate params rnd i c = (i, c + List.length i).
Proof.
  intros Hrate. induction i as [|g i IH]; intro c; simpl.
  - now rewrite Nat.add_0_r.
  - assert (Hdraw : Qcltb (draw rnd c) (mutationRate params) = false).
    { apply Qcltb_ge. eapply Qcle_trans; [exact Hrate|].
      apply (draw_range rnd c). }
    rewrite Hdraw, IH. f_equal. lia.
Qed.

Lemma mutate_restless params rnd :
  (1 <= mutationRate params)%Qc ->
  forall i c,
    GeneticOptimizer.mutate params rnd i c
    = (map (fun j => Some (randomBelow rnd (c + 2 * j + 1) (numClusters params)))
         (seq 0 (List.length i)),
       c + 2 * List.length i).
Proof.
  intros Hrate. induction i as [|g i IH]; intro c; simpl.
  - now rewrite Nat.add_0_r.
  - assert (Hdraw : Qcltb (draw rnd c) (mutationRate params) = true).
    { apply Qcltb_lt. eapply Qclt_le_trans; [|exact Hrate].
      apply (draw_range rnd c). }
    rewrite Hdraw, IH. f_equal.
    + f_equal.
      * f_equal. f_equal. lia.
      * rewrite <- seq_shift, map_map. apply map_ext. intro j.
        f_equal. f_equal. lia.
    + lia.
Qed.

(** X16: the two ends of the mutation rate. With a rate of 0 or less
    [mutate] returns the individual unchanged and uses one draw per gene;
    with a rate of 1 or more it replaces every gene by a fresh random
    cluster id and uses two draws per gene. *)
Theorem mutation_rate_bounds params rnd i c :
  ((mutationRate params <= 0)%Qc ->
   GeneticOptimizer.mutate params rnd i c = (i, c + List.length i))
  /\ ((1 <= mutationRate params)%Qc ->
      GeneticOptimizer.mutate params rnd i c
      = (map (fun j => Some (randomBelow rnd (c + 2 * j + 1) (numClusters params)))
           (seq 0 (List.length i)),
         c + 2 * List.length i)).
Proof.
  split; intro Hrate.
  - now apply mutate_frozen.
  - now apply mutate_restless.
Qed.

(** An instance: one individual under a rate of 0 and under a rate of 1. *)
Lemma mutation_rate_bounds_witness :
  (mutationRate frozenParams <= 0)%Qc
  /\ (1 <= mutationRate restlessParams)%Qc
  /\ GeneticOptimizer.mutate frozenParams sampleRandom
       [Some 0%Z; Some 1%Z; Some 0%Z] 4
     = ([Some 0%Z; Some 1%Z; Some 0%Z], 7)
  /\ GeneticOptimizer.mutate restlessParams sampleRandom
       [Some 0%Z; Some 1%Z; Some 0%Z] 4
     = ([Some (randomBelow sampleRandom 5 2);
         Some (randomBelow sampleRandom 7 2);
         Some (randomBelow sampleRandom 9 2)], 10).
Proof.
  assert (H0 : (mutationRate frozenParams <= 0)%Qc) by apply Qcle_refl.
  assert (H1 : (1 <= mutationRate restlessParams)%Qc) by apply Qcle_refl.
  split; [exact H0|]. split; [exact H1|]. split.
  - exact (proj1 (mutation_rate_bounds frozenParams sampleRandom
                    [Some 0%Z; Some 1%Z; Some 0%Z] 4) H0).
  - exact (proj2 (mutation_rate_bounds restlessParams sampleRandom
                    [Some 0%Z; Some 1%Z; Some 0%Z] 4) H1).
Defined.

(** ** The best individual of a population *)

Lemma getBestResult_from nodes links params :
  let f := GeneticOptimizer.calculateFitness nodes links params in
  forall rest seen b0,
    ((seen = [] /\ br_fitness b0 = None)
     \/ exists k i,
          nth_error seen k = Some i
          /\ b0 = mkBestResult (Some i) (Some (f i))
          /\ (forall j, In j seen -> (f i <= f j)%Qc)
          /\ (forall k' j, k' < k -> nth_error seen k' = Some j ->
                (f i < f j)%Qc)) ->
    rest <> [] \/ seen <> [] ->
    exists k i,
      nth_error (seen ++ rest) k = Some i
      /\ fold_left
           (fun best individual =>
              if ltInf (f individual) (br_fitness best)
              then mkBestResult (Some individual) (Some (f individual))
              else best)
           rest b0
         = mkBestResult (Some i) (Some (f i))
      /\ (forall j, In j (seen ++ rest) -> (f i <= f j)%Qc)
      /\ (forall k' j, k' < k -> nth_error (seen ++ rest) k' = Some j ->
            (f i < f j)%Qc).
Proof.
  intro f. induction rest as [|x rest IH]; intros seen b0 Hinv Hne.
  - destruct Hne as [Hne | Hne]; [contradiction|].
    destruct Hinv as [[-> _] | (k & i & Hk & -> & Hmin & Hfirst)];
      [contradiction|].
    exists k, i. rewrite app_nil_r. simpl. auto.
  - simpl.
    replace (seen ++ x :: rest) with ((seen ++ [x]) ++ rest)
      by (now rewrite <- app_assoc).
    assert (Hlast : nth_error (seen ++ [x]) (List.length seen) = Some x).
    { rewrite nth_error_app2 by lia. now rewrite Nat.sub_diag. }
    assert (Hsplit : forall k' j,
               nth_error (seen ++ [x]) k' = Some j ->
               (k' < List.length seen /\ nth_error seen k' = Some j)
               \/ (k' = List.length seen /\ j = x)).
    { intros k' j Hk'.
      destruct (Nat.lt_ge_cases k' (List.length seen)) as [Hlt | Hge].
      - left. split; [exact Hlt|]. now rewrite nth_error_app1 in Hk'.
      - right. rewrite nth_error_app2 in Hk' by exact Hge.
        destruct (k' - List.length seen) as [|d] eqn:Hd.
        + simpl in Hk'. split; [lia | congruence].
        + simpl in Hk'. destruct d; discriminate. }
    apply IH; [|right; now destruct seen].
    right.
    destruct Hinv as [[-> Hnone] | (k & i & Hk & -> & Hmin & Hfirst)].
    + rewrite Hnone. simpl ltInf. cbn iota.
      exists 0, x. split; [reflexivity|]. split; [reflexivity|]. split.
      * intros j [<- | []]. apply Qcle_refl.
      * intros k' j Hk'. lia.
    + simpl br_fitness. destruct (ltInf (f x) (Some (f i))) eqn:Hlt.
      * simpl in Hlt. apply Qcltb_lt in Hlt.
        exists (List.length seen), x. split; [exact Hlast|].
        split; [reflexivity|]. split.
        -- intros j Hj. apply in_app_or in Hj. destruct Hj as [Hj | [<- | []]].
           ++ apply Qclt_le_weak. eapply Qclt_le_trans; [exact Hlt|].
              now apply Hmin.
           ++ apply Qcle_refl.
        -- intros k' j Hk' Hj.
           destruct (Hsplit k' j Hj) as [[_ Hj'] | [Heq _]]; [|lia].
           eapply Qclt_le_trans; [exact Hlt|]. apply Hmin.
           eapply nth_error_In; eauto.
      * simpl in Hlt. apply Qcltb_ge in Hlt.
        exists k, i.
        assert (Hklt : k < List.length seen) by (eapply nth_error_lt; eauto).
        split; [now rewrite nth_error_app1|]. split; [reflexivity|]. split.
        -- intros j Hj. apply in_app_or in Hj. destruct Hj as [Hj | [<- | []]].
           ++ now apply Hmin.
           ++ exact Hlt.
        -- intros k' j Hk' Hj.
           destruct (Hsplit k' j Hj) as [[_ Hj'] | [Heq _]]; [|lia].
           now apply (Hfirst k').
Qed.

(** X17: [getBestResult] on a non-empty population returns an individual
    of the population together with its fitness; no individual of the
    population has a lower fitness, and every individual before it in the
    population has a strictly higher one. On an empty population it
    returns no individual and the fitness Infinity. *)
Theorem getBestResult_is_the_first_lowest_fitness nodes links params population :
  (population = [] ->
   GeneticOptimizer.getBestResult nodes links params population
   = mkBestResult None None)
  /\ (population <> [] ->
      exists k i,
        nth_error population k = Some i
        /\ GeneticOptimizer.getBestResult nodes links params population
           = mkBestResult (Some i)
               (Some (GeneticOptimizer.calculateFitness nodes links params i))
        /\ (forall j, In j population ->
              (GeneticOptimizer.calculateFitness nodes links params i
               <= GeneticOptimizer.calculateFitness nodes links params j)%Qc)
        /\ (forall k' j, k' < k -> nth_error population k' = Some j ->
              (GeneticOptimizer.calculateFitness nodes links params i
               < GeneticOptimizer.calculateFitness nodes links params j)%Qc)).
Proof.
  split.
  - intros ->. reflexivity.
  - intro Hne. unfold GeneticOptimizer.getBestResult.
    apply (getBestResult_from nodes links params population []
             (mkBestResult (nth_error population 0) None)).
    + left. split; reflexivity.
    + now left.
Qed.

(** An instance: the sample population on the plate chain. *)
Lemma getBestResult_is_the_first_lowest_fitness_witness :
  samplePopulation <> []
  /\ exists k i,
       nth_error samplePopulation k = Some i
       /\ GeneticOptimizer.getBestResult plateNodes plateLinks sampleParams
            samplePopulation
          = mkBestResult (Some i)
              (Some (GeneticOptimizer.calculateFitness plateNodes plateLinks
                       sampleParams i))
       /\ (forall j, In j samplePopulation ->
             (GeneticOptimizer.calculateFitness plateNodes plateLinks
                sampleParams i
              <= GeneticOptimizer.calculateFitness plateNodes plateLinks
                   sampleParams j)%Qc).
Proof.
  assert (Hne : samplePopulation <> []) by (vm_compute; discriminate).
  split; [exact Hne|].
  destruct (proj2 (getBestResult_is_the_first_lowest_fitness plateNodes
                     plateLinks sampleParams samplePopulation) Hne)
    as (k & i & Hk & Hbest & Hmin & _).
  exists k, i. split; [exact Hk|]. split; [exact Hbest | exact Hmin].
Defined.

(** ** The tournament *)

Lemma tournamentRounds_least rnd sp :
  forall left b c i c',
    GeneticOptimizer.tournamentRounds rnd left sp (Some b) c = Resolved (i, c') ->
    c' = c + left
    /\ exists picks w,
         map Some picks
         = map (fun j => GeneticOptimizer.pick rnd sp (c + j)) (seq 0 left)
         /\ In w (b :: picks)
         /\ i = ind w
         /\ forall s, In s (b :: picks) -> (fitness w <= fitness s)%Qc.
Proof.
  induction left as [|left IH]; intros b c i c' H; simpl in H.
  - injection H as <- <-. split; [lia|]. exists [], b.
    split; [reflexivity|]. split; [now left|]. split; [reflexivity|].
    intros s [<- | []]. apply Qcle_refl.
  - destruct (GeneticOptimizer.pick rnd sp c) as [cand|] eqn:Hpick;
      [|discriminate].
    apply IH in H. destruct H as (-> & picks & w & Hpicks & Hw & -> & Hmin).
    split; [lia|]. exists (cand :: picks), w. split.
    + simpl. rewrite Nat.add_0_r, Hpick. f_equal.
      rewrite Hpicks, <- seq_shift, map_map. apply map_ext.
      intro j. f_equal. lia.
    + assert (Hb' : forall s, In s [b; cand] ->
                      (fitness (if Qcltb (fitness cand) (fitness b)
                                then cand else b) <= fitness s)%Qc).
      { intros s Hs. destruct (Qcltb (fitness cand) (fitness b)) eqn:Hlt.
        - apply Qcltb_lt in Hlt. destruct Hs as [<- | [<- | []]].
          + now apply Qclt_le_weak.
          + apply Qcle_refl.
        - apply Qcltb_ge in Hlt. destruct Hs as [<- | [<- | []]].
          + apply Qcle_refl.
          + exact Hlt. }
      split.
      * destruct Hw as [<- | Hw].
        -- destruct (Qcltb (fitness cand) (fitness b)); simpl; auto.
        -- simpl. auto.
      * split; [reflexivity|]. intros s Hs.
        assert (Hcases : In s [b; cand] \/ In s picks).
        { simpl in *. intuition. }
        destruct Hcases as [Hs' | Hs'].
        -- eapply Qcle_trans; [|apply (Hb' s Hs')].
           apply Hmin. now left.
        -- apply Hmin. now right.
Qed.

Lemma pick_empty rnd c : GeneticOptimizer.pick rnd [] c = None.
Proof.
  unfold GeneticOptimizer.pick.
  destruct (randomBelow rnd c (List.length (@nil Scored)) <? 0)%Z;
    [reflexivity|].
  now destruct (Z.to_nat _).
Qed.

(** X18: [tournamentSelect] makes four picks, one draw each, and returns
    the individual of a pick whose fitness none of the four undercuts. On
    an empty population the first pick is undefined and the call throws a
    TypeError. *)
Theorem tournament_returns_the_best_of_four_picks rnd sp c :
  (sp = [] ->
   GeneticOptimizer.tournamentSelect rnd sp c = Rejected "TypeError")
  /\ (sp <> [] ->
      exists i picks w,
        GeneticOptimizer.tournamentSelect rnd sp c = Resolved (i, c + 4)
        /\ map Some picks
           = map (fun j => GeneticOptimizer.pick rnd sp (c + j)) (seq 0 4)
        /\ In w picks
        /\ i = ind w
        /\ forall s, In s picks -> (fitness w <= fitness s)%Qc).
Proof.
  split.
  - intros ->. unfold GeneticOptimizer.tournamentSelect.
    rewrite pick_empty. cbn [GeneticOptimizer.tournamentRounds].
    now rewrite pick_empty.
  - intro Hne.
    destruct (tournamentSelect_total rnd sp c Hne) as (i & c' & H).
    pose proof H as H'. unfold GeneticOptimizer.tournamentSelect in H'.
    destruct (GeneticOptimizer.pick rnd sp c) as [b|] eqn:Hpick;
      [|cbn [GeneticOptimizer.tournamentRounds] in H';
        destruct (GeneticOptimizer.pick rnd sp (S c)); discriminate].
    apply tournamentRounds_least in H'.
    destruct H' as (-> & picks & w & Hpicks & Hw & -> & Hmin).
    exists (ind w), (b :: picks), w.
    split; [rewrite H; f_equal; f_equal; lia|]. split.
    + change (seq 0 4) with (0 :: seq 1 3). cbn [map].
      rewrite Nat.add_0_r, Hpick. f_equal.
      rewrite Hpicks, <- seq_shift, map_map. apply map_ext.
      intro j. f_equal. lia.
    + split; [exact Hw|]. split; [reflexivity | exact Hmin].
Qed.

(** An instance: a tournament over the scored sample population. *)
Lemma tournament_returns_the_best_of_four_picks_witness :
  scoredPopulation plateNodes plateLinks sampleParams samplePopulation <> []
  /\ exists i,
       GeneticOptimizer.tournamentSelect sampleRandom
         (scoredPopulation plateNodes plateLinks sampleParams samplePopulation) 0
       = Resolved (i, 4).
Proof.
  assert (Hne : scoredPopulation plateNodes plateLinks sampleParams
                  samplePopulation <> []) by (vm_compute; discriminate).
  split; [exact Hne|].
  destruct (proj2 (tournament_returns_the_best_of_four_picks sampleRandom
                     (scoredPopulation plateNodes plateLinks sampleParams
                        samplePopulation) 0) Hne)
    as (i & picks & w & H & _).
  exists i. exact H.
Defined.

(** ** The transport term of the fitness *)







(** ** A search over an empty population *)

Section EmptyPopulation.
Variable nodes : list MachineNode.
Variable links : list MachineLink.
Variable params : GAParams.
Variable rnd : RandomSource.
Hypothesis Hempty : populationSize params = 0.

Lemma evolve_empty c :
  GeneticOptimizer.evolve nodes links params rnd [] c = Resolved ([], c).
Proof.
  unfold GeneticOptimizer.evolve. simpl. rewrite firstn_nil. simpl.
  now rewrite Hempty.
Qed.

Lemma evolveTimes_empty left c :
  GeneticOptimizer.evolveTimes nodes links params rnd left [] c
  = Resolved ([], c).
Proof.
  induction left as [|left IH]; [reflexivity|].
  cbn [GeneticOptimizer.evolveTimes]. rewrite evolve_empty. exact IH.
Qed.

Lemma attempt_empty bestResult c :
  GeneticOptimizer.attempt nodes links params rnd bestResult c
  = Resolved
      (Some (match bestResult with
             | Some best => best
             | None => mkBestResult None None
             end), c).
Proof.
  unfold GeneticOptimizer.attempt, GeneticOptimizer.initialize.
  rewrite Hempty. cbn [GeneticOptimizer.initializeFrom].
  rewrite evolveTimes_empty. cbn [bindO fst snd].
  now destruct bestResult.
Qed.

Lemma attemptLoop_empty left c :
  GeneticOptimizer.attemptLoop nodes links params rnd (S left) None c
  = Resolved (Some (mkBestResult None None), c).
Proof.
  cbn [GeneticOptimizer.attemptLoop]. rewrite attempt_empty. cbn [bindO fst snd].
  induction left as [|left IH]; [reflexivity|].
  cbn [GeneticOptimizer.attemptLoop]. rewrite attempt_empty. exact IH.
Qed.

End EmptyPopulation.

Lemma gaCrossFlow_no_nodes links individual :
  gaCrossFlow [] links individual = Resolved 0%Qc.
Proof.
  unfold gaCrossFlow. generalize 0%Qc.
  induction links as [|l links IH]; intro total; [reflexivity|].
  simpl. apply IH.
Qed.

(** X20: with a population size of 0 and at least one attempt, each
    attempt of [runGeneticOptimization] yields a candidate without an
    individual. Reading its genes throws a TypeError as soon as the flow
    graph has a node, so the promise is rejected; only for a flow graph
    without nodes does it resolve, with an empty result. *)
Theorem empty_population_fails_on_the_first_node fuel rnd b targets params
  attempts d :
  calculateRequirements fuel b targets = Some d ->
  populationSize params = 0 ->
  1 <= attempts ->
  exists run,
    runGeneticOptimization fuel rnd b targets params attempts = Some run
    /\ (sd_nodes d <> [] -> run_outcome run = Rejected "TypeError")
    /\ (sd_nodes d = [] ->
        run_outcome run
        = Resolved
            (mkResult [] (map toMachineLink (sd_links d)) [] (mkStats 0%Qc))).
Proof.
  intros Hcalc Hempty Hattempts. apply calculateRequirements_Some in Hcalc.
  destruct Hcalc as (e & Hrun & ->).
  unfold runGeneticOptimization. rewrite Hrun. eexists. split; [reflexivity|].
  cbn [run_outcome]. unfold gaSearch.
  destruct attempts as [|left]; [lia|].
  rewrite (attemptLoop_empty _ _ _ _ Hempty). cbn [bindO fst gaAssemble br_individual].
  split.
  - intro Hne. destruct (sd_nodes (dataOf e)); [contradiction | reflexivity].
  - intros ->. cbn [map assignGenes bindO].
    now rewrite gaCrossFlow_no_nodes.
Qed.

(** An instance: the plate chain searched with an empty population. *)
Lemma empty_population_fails_on_the_first_node_witness :
  exists d,
    calculateRequirements 3 plateCatalog plateTargets = Some d
    /\ populationSize emptyPopulationParams = 0
    /\ sd_nodes d <> []
    /\ exists run,
         runGeneticOptimization 3 sampleRandom plateCatalog plateTargets
           emptyPopulationParams 2 = Some run
         /\ run_outcome run = Rejected "TypeError".
Proof.
  eexists. split; [computed|]. split; [reflexivity|].
  split; [vm_compute; discriminate|].
  destruct (empty_population_fails_on_the_first_node 3 sampleRandom plateCatalog
              plateTargets emptyPopulationParams 2 _ ltac:(computed) eq_refl
              (le_S 1 1 (le_n 1)))
    as (run & Hrun & Hreject & _).
  exists run. split; [exact Hrun|].
  apply Hreject. vm_compute. discriminate.
Defined.

(** ** The flows of the cluster diagram *)

Lemma sum_values_put (m : JSMap.t Qc) key u :
  sumQc (JSMap.values (JSMap.set m key u))
  = (sumQc (JSMap.values m) + u - orZero (JSMap.get m key))%Qc.
Proof.
  unfold JSMap.values, sumQc.
  induction m as [|[k w] m IH]; cbn -[orZero Qcplus Qcminus].
  - change (orZero None) with 0%Qc. ring.
  - destruct (String.eqb k key); cbn -[orZero Qcplus Qcminus].
    + rewrite orZero_Some. ring.
    + rewrite IH. ring.
Qed.

Lemma sum_values_set (m : JSMap.t Qc) key v :
  sumQc (JSMap.values (JSMap.set m key (orZero (JSMap.get m key) + v)%Qc))
  = (sumQc (JSMap.values m) + v)%Qc.
Proof. rewrite sum_values_put. ring. Qed.

Lemma clusterFlows_sum nodes links :
  forall flows,
    sumQc
      (JSMap.values
         (fold_left
            (fun flows l =>
               match findNode nodes (ml_source l), findNode nodes (ml_target l) with
               | Some sNode, Some tNode =>
                   match mn_clusterId sNode, mn_clusterId tNode with
                   | Some sC, Some tC =>
                       if Z.eqb sC tC then flows
                       else
                         JSMap.set flows (flowKey sC tC)
                           (orZero (JSMap.get flows (flowKey sC tC))
                            + ml_value l)%Qc
                   | _, _ => flows
                   end
               | _, _ => flows
               end)
            links flows))
    = (sumQc (JSMap.values flows)
       + sumQc (map ml_value (filter (drawnBetweenClusters nodes) links)))%Qc.
Proof.
  induction links as [|l links IH]; intro flows; simpl.
  - ring.
  - rewrite IH. unfold drawnBetweenClusters at 2.
    destruct (findNode nodes (ml_source l)) as [sNode|]; [|reflexivity].
    destruct (findNode nodes (ml_target l)) as [tNode|]; [|reflexivity].
    destruct (mn_clusterId sNode) as [sC|]; [|reflexivity].
    destruct (mn_clusterId tNode) as [tC|]; [|reflexivity].
    destruct (Z.eqb sC tC); simpl; [reflexivity|].
    rewrite sum_values_set. ring.
Qed.

Lemma drawn_is_crossing nodes l :
  uniformClusters nodes ->
  drawnBetweenClusters nodes l = crossesClusters nodes l.
Proof.
  intros Huni. unfold drawnBetweenClusters, crossesClusters.
  destruct (findNode nodes (ml_source l)) as [sNode|] eqn:Hs; [|reflexivity].
  destruct (findNode nodes (ml_target l)) as [tNode|] eqn:Ht; [|reflexivity].
  apply findNode_Some in Hs. apply findNode_Some in Ht.
  destruct Hs as [Hs _], Ht as [Ht _].
  destruct Huni as [Hnone | Hsome].
  - now rewrite (Hnone _ Hs), (Hnone _ Ht).
  - destruct (Hsome _ Hs) as (sC & ->), (Hsome _ Ht) as (tC & ->).
    reflexivity.
Qed.

Lemma clusterFlows_crossFlowSpec r :
  uniformClusters (or_nodes r) ->
  sumQc (JSMap.values (clusterFlows r)) = crossFlowSpec (or_nodes r) (or_links r).
Proof.
  intro Huni. unfold clusterFlows. rewrite clusterFlows_sum. simpl.
  rewrite Qcplus_0_l. unfold crossFlowSpec. f_equal. f_equal.
  apply filter_ext. intro l. now apply drawn_is_crossing.
Qed.

Lemma layout_uniform embed sh nodes0 links k splitCs cs attempts r :
  (forall n, In n nodes0 -> mn_clusterId n = None) ->
  (nodes' <- clusterNodes sh (settle embed nodes0 (simLinksOf nodes0 links cs))
               links k splitCs attempts ;;
   Resolved (assemble nodes' links)) = Resolved r ->
  uniformClusters (or_nodes r).
Proof.
  intro Hnone.
  destruct (settle_shape embed nodes0 (simLinksOf nodes0 links cs))
    as [_ Hcl].
  destruct (clusterNodes sh _ links k splitCs attempts) as [nodes'|err]
    eqn:Hcluster; cbn [bindO]; [|intro; discriminate].
  intro H. injection H as <-. cbn [or_nodes assemble].
  apply clusterNodes_shape in Hcluster; [now destruct Hcluster|].
  intros n Hin. destruct (Hcl n Hin) as (n0 & Hn0 & ->). auto.
Qed.

Lemma ga_uniform rnd nodes links params attempts bestResult r :
  gaSearch rnd nodes links params attempts = Resolved bestResult ->
  gaAssemble nodes links bestResult = Resolved r ->
  uniformClusters (or_nodes r).
Proof.
  intros Hs Ha. right.
  apply (gaSearch_candidate geneDefined) in Hs.
  - destruct (gaAssemble_genes geneDefined nodes links bestResult r Hs Ha)
      as [_ Hall].
    intros n Hn. exact (Hall n Hn).
  - intro c. now eexists.
Qed.

(** X21: over exact arithmetic (rates as exact rationals, where a sum does
    not depend on the order of its terms) the flows the cluster diagram
    draws between clusters add up to the cross-cluster flow the optimizer
    reports: for every result of [optimizeLayout] and of
    [runGeneticOptimization], the values of the diagram's map of aggregated
    flows sum to [stats.totalCrossFlow]. *)
Theorem diagram_flows_sum_to_the_reported_cross_flow fuel embed sh rnd b
  targets k splitCs cs params attempts :
  (forall run r,
      optimizeLayout fuel embed sh b targets k splitCs cs attempts = Some run ->
      run_outcome run = Resolved r ->
      sumQc (JSMap.values (clusterFlows r)) = totalCrossFlow (or_stats r))
  /\ (forall run r,
        runGeneticOptimization fuel rnd b targets params attempts = Some run ->
        run_outcome run = Resolved r ->
        sumQc (JSMap.values (clusterFlows r)) = totalCrossFlow (or_stats r)).
Proof.
  unfold optimizeLayout, runGeneticOptimization.
  destruct (resolveTargets fuel (initEnv b targets)) as [e|] eqn:Hrun;
    [|split; intros; discriminate].
  pose proof (machineNodes_ids e (resolveTargets_nodesOk _ _ _ _ Hrun)) as Hnd.
  split; intros run r Heq; injection Heq as <-; cbn [run_outcome]; intro Hout.
  - apply simulate_settled in Hout.
    rewrite (layout_crossFlow _ _ _ _ _ _ _ _ _ Hnd
               (toMachineNode_unclustered _) Hout).
    apply clusterFlows_crossFlowSpec.
    eapply layout_uniform; [|exact Hout]. apply toMachineNode_unclustered.
  - destruct (gaSearch rnd _ _ params attempts) as [bestResult|err] eqn:Hs;
      cbn [bindO] in Hout; [|discriminate].
    rewrite (ga_crossFlow _ _ _ _ Hnd Hout).
    apply clusterFlows_crossFlowSpec. eapply ga_uniform; eauto.
Qed.

(** An instance: both optimizers on the plate chain. *)
Lemma diagram_flows_sum_to_the_reported_cross_flow_witness :
  (exists run r,
      optimizeLayout 3 sampleEmbedding identityShuffler plateCatalog
        plateTargets 2 [] [] 2 = Some run
      /\ run_outcome run = Resolved r
      /\ sumQc (JSMap.values (clusterFlows r)) = totalCrossFlow (or_stats r))
  /\ (exists run r,
        runGeneticOptimization 3 sampleRandom plateCatalog plateTargets
          sampleParams 2 = Some run
        /\ run_outcome run = Resolved r
        /\ sumQc (JSMap.values (clusterFlows r)) = totalCrossFlow (or_stats r)).
Proof.
  destruct (diagram_flows_sum_to_the_reported_cross_flow 3 sampleEmbedding
              identityShuffler sampleRandom plateCatalog plateTargets 2 [] []
              sampleParams 2) as [Hk Hg].
  split.
  - eexists. eexists. split; [computed|]. split; [computed|].
    eapply Hk; computed.
  - eexists. eexists. split; [computed|]. split; [computed|].
    eapply Hg; computed.
Defined.

(** ** Picking an item in the side bar *)

Lemma find_findInRecipes rs id :
  find (fun r => String.eqb (ir_id (output r)) id) rs = findInRecipes rs id.
Proof.
  induction rs as [|r rs IH]; simpl; [reflexivity|].
  now destruct (String.eqb (ir_id (output r)) id).
Qed.

Lemma find_app {A : Type} (p : A -> bool) l1 l2 :
  find p (l1 ++ l2) = match find p l1 with Some x => Some x | None => find p l2 end.
Proof.
  induction l1 as [|a l1 IH]; simpl; [reflexivity|].
  now destruct (p a).
Qed.

Lemma firstRecipeFor_findRecipe b id :
  firstRecipeFor b id = option_map recipe (findRecipe b id).
Proof.
  unfold firstRecipeFor. induction b as [|bd b IH]; simpl; [reflexivity|].
  rewrite find_app. destruct (recipes bd) as [rs|]; simpl.
  - rewrite find_findInRecipes. destruct (findInRecipes rs id); [reflexivity|].
    exact IH.
  - exact IH.
Qed.

(** X22: picking an item for a target sets the demand to one machine's
    output. After [updateTarget] with the field 'id', every target under
    the key carries the picked item, and if the flow graph of the new
    target list has a node for the item with an output rate, the target's
    amount is that rate: the lookup of the application and the lookup of
    [calculateRequirements] find the same recipe. Targets under other keys
    are left as they were. *)
Theorem picked_item_asks_for_one_machine_output fuel b targets key value d :
  calculateRequirements fuel b
    (map demandOf (updateTarget b targets key (FieldId value))) = Some d ->
  map at_key (updateTarget b targets key (FieldId value)) = map at_key targets
  /\ (forall t, In t (updateTarget b targets key (FieldId value)) ->
        at_key t <> key -> In t targets)
  /\ (forall t, In t (updateTarget b targets key (FieldId value)) ->
        at_key t = key ->
        at_id t = value
        /\ forall n a,
             In n (sd_nodes d) -> sn_name n = value ->
             sn_outputPerMachine n = Some a ->
             at_amount t = a).
Proof.
  intro Hcalc. split; [|split].
  - unfold updateTarget. rewrite map_map. apply map_ext. intro t.
    destruct (String.eqb (at_key t) key); [|reflexivity].
    now destruct (firstRecipeFor b value).
  - intros t Hin Hkey. unfold updateTarget in Hin. apply in_map_iff in Hin.
    destruct Hin as (t0 & <- & Hin0).
    destruct (String.eqb (at_key t0) key) eqn:Hk; [|exact Hin0].
    exfalso. apply Hkey. apply String.eqb_eq in Hk.
    now destruct (firstRecipeFor b value).
  - intros t Hin Hkey. unfold updateTarget in Hin. apply in_map_iff in Hin.
    destruct Hin as (t0 & <- & Hin0).
    destruct (String.eqb (at_key t0) key) eqn:Hk.
    + rewrite firstRecipeFor_findRecipe.
      destruct (findRecipe b value) as [r|] eqn:HF; simpl.
      * split; [reflexivity|]. intros n a Hn Hname Hout.
        apply calculateRequirements_Some in Hcalc.
        destruct Hcalc as (e & Hrun & ->).
        simpl in Hn. unfold JSMap.values in Hn. apply in_map_iff in Hn.
        destruct Hn as ([k node] & <- & Hnode).
        destruct (resolveTargets_described _ _ _ _ Hrun _ _ Hnode) as [_ Hd].
        unfold describedBy in Hd. simpl in Hname, Hout.
        rewrite Hname, HF in Hd. destruct Hd as (_ & _ & Hrate).
        congruence.
      * split; [reflexivity|]. intros n a Hn Hname Hout.
        apply calculateRequirements_Some in Hcalc.
        destruct Hcalc as (e & Hrun & ->).
        simpl in Hn. unfold JSMap.values in Hn. apply in_map_iff in Hn.
        destruct Hn as ([k node] & <- & Hnode).
        destruct (resolveTargets_described _ _ _ _ Hrun _ _ Hnode) as [_ Hd].
        unfold describedBy in Hd. simpl in Hname, Hout.
        rewrite Hname, HF in Hd. destruct Hd as (_ & _ & Hrate).
        congruence.
    + apply String.eqb_neq in Hk. contradiction.
Qed.

(** An instance: the target of the side bar switched from plates to
    bars. *)
Lemma picked_item_asks_for_one_machine_output_witness :
  exists d,
    calculateRequirements 3 plateCatalog
      (map demandOf (updateTarget plateCatalog sideBar "k1" (FieldId "bar")))
    = Some d
    /\ updateTarget plateCatalog sideBar "k1" (FieldId "bar")
       = [mkAppTarget "k1" "bar" (qz 1)]
    /\ forall t,
         In t (updateTarget plateCatalog sideBar "k1" (FieldId "bar")) ->
         at_key t = "k1" ->
         at_id t = "bar"
         /\ forall n a,
              In n (sd_nodes d) -> sn_name n = "bar" ->
              sn_outputPerMachine n = Some a ->
              at_amount t = a.
Proof.
  eexists. split; [computed|]. split; [computed|].
  eapply (picked_item_asks_for_one_machine_output 3 plateCatalog sideBar "k1"
            "bar").
  computed.
Defined.

(** ** Scaling the demand *)

Lemma get_mapValues {V W : Type} (f : V -> W) (m : JSMap.t V) k :
  JSMap.get (mapValues f m) k = option_map f (JSMap.get m k).
Proof.
  induction m as [|[k' v] m IH]; simpl; [reflexivity|].
  now destruct (String.eqb k' k).
Qed.

Lemma set_mapValues {V W : Type} (f : V -> W) (m : JSMap.t V) k v :
  JSMap.set (mapValues f m) k (f v) = mapValues f (JSMap.set m k v).
Proof.
  induction m as [|[k' v'] m IH]; simpl; [reflexivity|].
  destruct (String.eqb k' k); simpl; [reflexivity|].
  now rewrite IH.
Qed.

Lemma orZero_scale c o : orZero (option_map (Qcmult c) o) = (c * orZero o)%Qc.
Proof.
  destruct o as [v|]; cbn [option_map].
  - now rewrite !orZero_Some.
  - simpl. ring.
Qed.

Lemma accumulate_scale c node a :
  accumulate (scaleNode c node) (c * a)%Qc = scaleNode c (accumulate node a).
Proof.
  unfold accumulate, scaleNode.
  destruct (sn_requiredAmount node) as [r|] eqn:Hr; simpl; rewrite ?Hr;
    [|reflexivity].
  simpl. f_equal. f_equal. ring.
Qed.

Lemma newNode_scale c x r : scaleNode c (newNode x r) = newNode x r.
Proof.
  unfold scaleNode, newNode. simpl. f_equal. f_equal. ring.
Qed.

Lemma visit_scale c ts x a e :
  visit x (c * a)%Qc (scaleEnv c ts e) = scaleEnv c ts (visit x a e).
Proof.
  unfold visit, scaleEnv, with_nodes. simpl. f_equal.
  rewrite get_mapValues, <- set_mapValues. f_equal.
  destruct (JSMap.get (env_nodes e) x) as [n|]; simpl.
  - apply accumulate_scale.
  - rewrite <- accumulate_scale. now rewrite newNode_scale.
Qed.

Lemma addLink_scale c ts x i v e :
  addLink x i (c * v)%Qc (scaleEnv c ts e) = scaleEnv c ts (addLink x i v e).
Proof.
  unfold addLink, scaleEnv, with_linksMap. simpl. f_equal.
  rewrite get_mapValues, orZero_scale, <- set_mapValues. f_equal. ring.
Qed.

Lemma forEachM_scale {A : Type} (g : Env -> Env) (f1 f2 : A -> Env -> option Env) :
  forall xs e,
    (forall x e', In x xs -> f2 x (g e') = option_map g (f1 x e')) ->
    forEachM f2 xs (g e) = option_map g (forEachM f1 xs e).
Proof.
  induction xs as [|x xs IH]; intros e Hf; simpl; [reflexivity|].
  rewrite (Hf x e (or_introl eq_refl)).
  destruct (f1 x e) as [e1|]; simpl; [|reflexivity].
  apply IH. intros y e' Hy. apply Hf. now right.
Qed.

Lemma traverse_scale c ts :
  forall fuel x a e,
    traverse fuel x (c * a)%Qc (scaleEnv c ts e)
    = option_map (scaleEnv c ts) (traverse fuel x a e).
Proof.
  induction fuel as [|fuel IH]; intros x a e; [reflexivity|].
  cbn [traverse]. rewrite visit_scale.
  change (env_buildings (scaleEnv c ts e)) with (env_buildings e).
  destruct (findRecipe (env_buildings e) x) as [r|]; [|reflexivity].
  apply forEachM_scale. intros i e' _.
  replace (amount_per_minute i
           * (c * a / amount_per_minute (output (recipe r))))%Qc
    with (c * (amount_per_minute i
               * (a / amount_per_minute (output (recipe r)))))%Qc
    by (unfold Qcdiv; ring).
  rewrite addLink_scale. apply IH.
Qed.

Lemma targets_scale c ts fuel :
  forall targets e,
    forEachM (fun t e' => traverse fuel (t_id t) (t_amount t) e')
      (map (scaleTarget c) targets) (scaleEnv c ts e)
    = option_map (scaleEnv c ts)
        (forEachM (fun t e' => traverse fuel (t_id t) (t_amount t) e') targets e).
Proof.
  induction targets as [|t targets IH]; intro e; simpl; [reflexivity|].
  rewrite traverse_scale.
  destruct (traverse fuel (t_id t) (t_amount t) e) as [e1|]; simpl;
    [apply IH | reflexivity].
Qed.

Lemma dataOf_scale c ts e : dataOf (scaleEnv c ts e) = scaleData c (dataOf e).
Proof.
  unfold dataOf, scaleData, scaleEnv, JSMap.values, mapValues. simpl.
  rewrite !map_map. reflexivity.
Qed.

(** X23: over exact rationals demand resolution is homogeneous in the
    target amounts: multiplying the amount of every target by [c] gives
    the same nodes and links in the same order, with every required amount
    and every link value multiplied by [c], and the call returns on the
    scaled targets exactly when it returns on the original ones. *)
Theorem scaling_the_targets_scales_the_flow_graph fuel b targets c :
  calculateRequirements fuel b (map (scaleTarget c) targets)
  = option_map (scaleData c) (calculateRequirements fuel b targets).
Proof.
  unfold calculateRequirements, resolveTargets. simpl.
  change (initEnv b (map (scaleTarget c) targets))
    with (scaleEnv c (map (scaleTarget c) targets) (initEnv b targets)).
  rewrite targets_scale.
  destruct (forEachM (fun t e' => traverse fuel (t_id t) (t_amount t) e')
              targets (initEnv b targets)) as [e|]; simpl; [|reflexivity].
  now rewrite dataOf_scale.
Qed.

(** ** What the fitness counts *)











(** ** The attempts keep the lowest fitness *)

Lemma ltExt_leExt a b : ltExt a b = true -> leExt a b.
Proof.
  destruct a as [x|]; simpl; [|discriminate]. apply ltInf_true_leExt.
Qed.

Lemma ltExt_false_leExt a b : ltExt a b = false -> leExt b a.
Proof.
  destruct a as [x|]; simpl.
  - apply ltInf_false_leExt.
  - intros _. now destruct b.
Qed.

Lemma ltExt_leExt_trans a b c : ltExt a b = true -> leExt b c -> ltExt a c = true.
Proof.
  destruct a as [x|]; simpl; [|discriminate]. apply ltInf_leExt.
Qed.

Section Attempts.
Variable nodes : list MachineNode.
Variable links : list MachineLink.
Variable params : GAParams.
Variable rnd : RandomSource.

Lemma attempt_attemptResult bestResult c :
  GeneticOptimizer.attempt nodes links params rnd bestResult c
  = (rc <- attemptResult nodes links params rnd c ;;
     Resolved
       (match bestResult with
        | None => Some (fst rc)
        | Some b =>
            if ltExt (br_fitness (fst rc)) (br_fitness b)
            then Some (fst rc)
            else Some b
        end,
        snd rc)).
Proof.
  unfold GeneticOptimizer.attempt, attemptResult.
  destruct (GeneticOptimizer.initialize nodes params rnd c) as [population c1].
  now destruct (GeneticOptimizer.evolveTimes nodes links params rnd
                  (generations params) population c1).
Qed.

Lemma attemptLoop_lowest :
  forall left best0 c best' c',
    GeneticOptimizer.attemptLoop nodes links params rnd left best0 c
    = Resolved (best', c') ->
    exists rs,
      attemptResults nodes links params rnd left c = Resolved rs
      /\ List.length rs = left
      /\ (forall r, In r rs ->
            exists b', best' = Some b' /\ leExt (br_fitness b') (br_fitness r))
      /\ (forall b0, best0 = Some b0 ->
            exists b', best' = Some b' /\ leExt (br_fitness b') (br_fitness b0))
      /\ (best' = best0
          \/ exists k res,
               nth_error rs k = Some res
               /\ best' = Some res
               /\ (forall b0, best0 = Some b0 ->
                     ltExt (br_fitness res) (br_fitness b0) = true)
               /\ forall k' r', k' < k -> nth_error rs k' = Some r' ->
                    ltExt (br_fitness res) (br_fitness r') = true).
Proof.
  induction left as [|left IH]; intros best0 c best' c' H.
  - simpl in H. injection H as <- <-. exists []. split; [reflexivity|].
    split; [reflexivity|]. split; [intros r []|].
    split; [|now left].
    intros b0 ->. exists b0. split; [reflexivity | apply leExt_refl].
  - cbn [GeneticOptimizer.attemptLoop] in H. rewrite attempt_attemptResult in H.
    cbn [attemptResults].
    destruct (attemptResult nodes links params rnd c) as [[res c1]|] eqn:Hres;
      [|discriminate].
    cbn [bindO fst snd] in H |- *.
    set (best1 := match best0 with
                  | None => Some res
                  | Some b =>
                      if ltExt (br_fitness res) (br_fitness b)
                      then Some res else Some b
                  end) in *.
    destruct (IH _ _ _ _ H) as (rs & Hrs & Hlen & Hall & Hprev & Hfrom).
    rewrite Hrs. cbn [bindO]. exists (res :: rs). split; [reflexivity|].
    split; [simpl; now rewrite Hlen|].
    assert (Hb1 : exists b1, best1 = Some b1
                             /\ leExt (br_fitness b1) (br_fitness res)
                             /\ (forall b0, best0 = Some b0 ->
                                   leExt (br_fitness b1) (br_fitness b0))
                             /\ (b1 = res \/ best0 = Some b1)).
    { unfold best1. destruct best0 as [b0|].
      - destruct (ltExt (br_fitness res) (br_fitness b0)) eqn:Hlt.
        + exists res. split; [reflexivity|]. split; [apply leExt_refl|].
          split; [|now left]. intros b Hb. injection Hb as <-.
          now apply ltExt_leExt.
        + exists b0. split; [reflexivity|].
          split; [now apply ltExt_false_leExt|].
          split; [|now right]. intros b Hb. injection Hb as <-.
          apply leExt_refl.
      - exists res. split; [reflexivity|]. split; [apply leExt_refl|].
        split; [intros b0 Hb0; discriminate | now left]. }
    destruct Hb1 as (b1 & Hb1 & Hb1res & Hb1prev & Hb1from).
    destruct (Hprev b1 Hb1) as (b' & -> & Hb'b1).
    split; [|split].
    + intros r [<- | Hr].
      * exists b'. split; [reflexivity|]. eapply leExt_trans; eauto.
      * apply Hall, Hr.
    + intros b0 Hb0. exists b'. split; [reflexivity|].
      eapply leExt_trans; [exact Hb'b1 | now apply Hb1prev].
    + destruct Hfrom as [Heq | (k & r & Hk & Hr & Hlt & Hfirst)].
      * rewrite Hb1 in Heq. injection Heq as ->.
        destruct Hb1from as [-> | Hb0]; [|now left].
        unfold best1 in Hb1. destruct best0 as [b0|].
        -- destruct (ltExt (br_fitness res) (br_fitness b0)) eqn:Hlt.
           ++ right. exists 0, res. split; [reflexivity|].
              split; [reflexivity|]. split.
              ** intros b Hb. now injection Hb as <-.
              ** intros k' r' Hk'. lia.
           ++ left. symmetry. exact Hb1.
        -- right. exists 0, res. split; [reflexivity|].
           split; [reflexivity|]. split; [intros b Hb; discriminate|].
           intros k' r' Hk'. lia.
      * injection Hr as ->. right. exists (S k), r.
        split; [exact Hk|]. split; [reflexivity|]. split.
        -- intros b0 Hb0. eapply ltExt_leExt_trans; [exact (Hlt b1 Hb1)|].
           now apply Hb1prev.
        -- intros [|k'] r' Hk' Hr'.
           ++ simpl in Hr'. injection Hr' as <-.
              eapply ltExt_leExt_trans; [exact (Hlt b1 Hb1) | exact Hb1res].
           ++ simpl in Hr'. apply (Hfirst k' r'); [lia | exact Hr'].
Qed.

End Attempts.

(** X25: the search of [runGeneticOptimization] ends holding the best
    result of the first attempt whose fitness is the lowest of all
    attempts: no attempt's best result has a lower fitness and that of
    every earlier attempt is strictly higher. Without an attempt it holds
    no candidate. *)
Theorem search_keeps_the_first_lowest_fitness rnd nodes links params attempts
  bestResult :
  gaSearch rnd nodes links params attempts = Resolved bestResult ->
  exists rs,
    attemptResults nodes links params rnd attempts 0 = Resolved rs
    /\ List.length rs = attempts
    /\ (attempts = 0 -> bestResult = None)
    /\ (1 <= attempts ->
        exists k res,
          nth_error rs k = Some res
          /\ bestResult = Some res
          /\ (forall r, In r rs -> leExt (br_fitness res) (br_fitness r))
          /\ (forall k' r', k' < k -> nth_error rs k' = Some r' ->
                ltExt (br_fitness res) (br_fitness r') = true)).
Proof.
  unfold gaSearch. intro H.
  destruct (GeneticOptimizer.attemptLoop nodes links params rnd attempts None 0)
    as [[best' c']|] eqn:Hloop; [|discriminate].
  cbn [bindO fst] in H. injection H as <-.
  destruct (attemptLoop_lowest _ _ _ _ _ _ _ _ _ Hloop)
    as (rs & Hrs & Hlen & Hall & _ & Hfrom).
  exists rs. split; [exact Hrs|]. split; [exact Hlen|]. split.
  - intros ->. simpl in Hloop. now injection Hloop as <- _.
  - intro Hattempts.
    destruct Hfrom as [-> | (k & res & Hk & -> & _ & Hfirst)].
    + destruct rs as [|r rs]; [simpl in Hlen; lia|].
      destruct (Hall r (or_introl eq_refl)) as (b' & Hb' & _). discriminate.
    + exists k, res. split; [exact Hk|]. split; [reflexivity|].
      split; [|exact Hfirst].
      intros r Hr. destruct (Hall r Hr) as (b' & Hb' & Hle).
      now injection Hb' as <-.
Qed.

(** An instance: two attempts of the sample search on the plate chain. *)
Lemma search_keeps_the_first_lowest_fitness_witness :
  exists bestResult rs,
    gaSearch sampleRandom plateNodes plateLinks sampleParams 2
    = Resolved bestResult
    /\ attemptResults plateNodes plateLinks sampleParams sampleRandom 2 0
       = Resolved rs
    /\ List.length rs = 2
    /\ exists k res,
         nth_error rs k = Some res
         /\ bestResult = Some res
         /\ (forall r, In r rs -> leExt (br_fitness res) (br_fitness r)).
Proof.
  eexists.
  match goal with
  | |- exists rs, ?A /\ _ => assert (Hs : A) by computed
  end.
  destruct (search_keeps_the_first_lowest_fitness _ _ _ _ _ _ Hs)
    as (rs & Hrs & Hlen & _ & Hsome).
  exists rs. split; [exact Hs|]. split; [exact Hrs|]. split; [exact Hlen|].
  destruct (Hsome (le_S 1 1 (le_n 1))) as (k & res & Hk & Hbest & Hmin & _).
  exists k, res. split; [exact Hk|]. split; [exact Hbest | exact Hmin].
Defined.

(** ** Editing the side bar and the nodes of the flow graph *)

Lemma node_names_reached fuel b targets d x :
  calculateRequirements fuel b targets = Some d ->
  (In x (map sn_name (sd_nodes d))
   <-> exists t, In t targets /\ reaches b (t_id t) x).
Proof.
  intro Hcalc. apply calculateRequirements_Some in Hcalc.
  destruct Hcalc as (e & Hrun & ->).
  pose proof (resolveTargets_nodesOk _ _ _ _ Hrun) as Hok.
  rewrite (nodes_names e Hok).
  unfold resolveTargets in Hrun. simpl in Hrun.
  pose proof (targets_nodes fuel targets (initEnv b targets) e Hrun x) as H.
  unfold hasNode in H at 1. rewrite H. simpl. split.
  - intros [[] | Ht]. exact Ht.
  - intro Ht. now right.
Qed.

Lemma updateTarget_amount_ids b targets key value :
  map at_id (updateTarget b targets key (FieldAmount value)) = map at_id targets.
Proof.
  unfold updateTarget. rewrite map_map. apply map_ext. intro t.
  now destruct (String.eqb (at_key t) key).
Qed.

Lemma reached_from_ids b (ts : list AppTarget) x :
  (exists t, In t (map demandOf ts) /\ reaches b (t_id t) x)
  <-> exists id, In id (map at_id ts) /\ reaches b id x.
Proof.
  split.
  - intros (t & Ht & Hr). apply in_map_iff in Ht.
    destruct Ht as (t0 & <- & Ht0). exists (at_id t0). split; [|exact Hr].
    now apply in_map.
  - intros (id & Hid & Hr). apply in_map_iff in Hid.
    destruct Hid as (t0 & <- & Ht0). exists (demandOf t0). split; [|exact Hr].
    now apply in_map.
Qed.

(** X26: what the edits of the side bar do to the items shown. Changing
    the amount of a target with [updateTarget] leaves the set of nodes of
    the flow graph as it was, and removing a target with [removeTarget]
    never adds a node: every node of the new flow graph was one of the
    old. *)
Theorem side_bar_edits_and_the_nodes_shown fuel b targets key value d :
  calculateRequirements fuel b (map demandOf targets) = Some d ->
  (forall d',
      calculateRequirements fuel b
        (map demandOf (updateTarget b targets key (FieldAmount value)))
      = Some d' ->
      forall x, In x (map sn_name (sd_nodes d'))
                <-> In x (map sn_name (sd_nodes d)))
  /\ (forall d',
        calculateRequirements fuel b (map demandOf (removeTarget targets key))
        = Some d' ->
        forall x, In x (map sn_name (sd_nodes d')) ->
                  In x (map sn_name (sd_nodes d))).
Proof.
  intro Hd. split; intros d' Hd' x.
  - rewrite (node_names_reached _ _ _ _ x Hd'), (node_names_reached _ _ _ _ x Hd).
    rewrite !reached_from_ids. now rewrite updateTarget_amount_ids.
  - rewrite (node_names_reached _ _ _ _ x Hd'), (node_names_reached _ _ _ _ x Hd).
    intros (t & Ht & Hr). exists t. split; [|exact Hr].
    apply in_map_iff in Ht. destruct Ht as (t0 & <- & Ht0).
    apply in_map. unfold removeTarget in Ht0. apply filter_In in Ht0.
    now destruct Ht0.
Qed.

(** An instance: the side bar with its target set to 4 plates, and with
    its target removed. *)
Lemma side_bar_edits_and_the_nodes_shown_witness :
  exists d d1 d2,
    calculateRequirements 3 plateCatalog (map demandOf sideBar) = Some d
    /\ calculateRequirements 3 plateCatalog
         (map demandOf
            (updateTarget plateCatalog sideBar "k1" (FieldAmount (qz 4))))
       = Some d1
    /\ calculateRequirements 3 plateCatalog
         (map demandOf (removeTarget sideBar "k1")) = Some d2
    /\ (forall x, In x (map sn_name (sd_nodes d1))
                  <-> In x (map sn_name (sd_nodes d)))
    /\ (forall x, In x (map sn_name (sd_nodes d2)) ->
                  In x (map sn_name (sd_nodes d))).
Proof.
  eexists. eexists. eexists.
  split; [computed|]. split; [computed|]. split; [computed|].
  destruct (side_bar_edits_and_the_nodes_shown 3 plateCatalog sideBar "k1"
              (qz 4) _ ltac:(computed)) as [Hamount Hremove].
  split.
  - apply Hamount. computed.
  - apply Hremove. computed.
Defined.

(** ** One cluster, and the bounds of the cross-cluster flow *)

Lemma crossFlowSpec_one_cluster nodes links c :
  (forall n, In n nodes -> mn_clusterId n = Some c) ->
  crossFlowSpec nodes links = 0%Qc.
Proof.
  intro Hall. unfold crossFlowSpec.
  replace (filter (crossesClusters nodes) links) with (@nil MachineLink);
    [reflexivity|].
  symmetry. induction links as [|l links IH]; [reflexivity|]. simpl.
  replace (crossesClusters nodes l) with false; [exact IH|].
  unfold crossesClusters.
  destruct (findNode nodes (ml_source l)) as [s|] eqn:Hs; [|reflexivity].
  destruct (findNode nodes (ml_target l)) as [t|] eqn:Ht; [|reflexivity].
  apply findNode_Some in Hs. apply findNode_Some in Ht.
  rewrite (Hall s (proj1 Hs)), (Hall t (proj1 Ht)). simpl.
  now rewrite Z.eqb_refl.
Qed.

Lemma clusteredBelow_one nodes :
  clusteredBelow 1 nodes -> forall n, In n nodes -> mn_clusterId n = Some 0%Z.
Proof.
  intros H n Hn. destruct (H n Hn) as (c & -> & Hc).
  unfold inRange in Hc. f_equal. lia.
Qed.

(** X27: with a single cluster nothing crosses. Provided no item id of the
    catalog or of the target list contains '|', [optimizeLayout] asked for
    one cluster on a flow graph with an item to cluster resolves with
    every node in cluster 0 and a cross-cluster flow of 0; and every
    resolved result of [runGeneticOptimization] with numClusters = 1 has
    every node in cluster 0 and a cross-cluster flow of 0. *)
Theorem one_cluster_has_no_cross_flow fuel embed sh rnd b targets splitCs cs
  params attempts d :
  calculateRequirements fuel b targets = Some d ->
  (pipeFreeIds b targets = true -> itemsOf d <> [] ->
   exists run r,
     optimizeLayout fuel embed sh b targets 1 splitCs cs attempts = Some run
     /\ run_outcome run = Resolved r
     /\ (forall n, In n (or_nodes r) -> mn_clusterId n = Some 0%Z)
     /\ totalCrossFlow (or_stats r) = 0%Qc)
  /\ (numClusters params = 1 ->
      forall run r,
        runGeneticOptimization fuel rnd b targets params attempts = Some run ->
        run_outcome run = Resolved r ->
        (forall n, In n (or_nodes r) -> mn_clusterId n = Some 0%Z)
        /\ totalCrossFlow (or_stats r) = 0%Qc).
Proof.
  intro Hcalc. apply calculateRequirements_Some in Hcalc.
  destruct Hcalc as (e & Hrun & ->).
  pose proof (machineNodes_ids e (resolveTargets_nodesOk _ _ _ _ Hrun)) as Hnd.
  unfold optimizeLayout, runGeneticOptimization. rewrite Hrun. split.
  - intros Hpf Hitems.
    pose proof (simulate_joined fuel embed b targets cs e Hpf Hrun) as Hsim.
    set (nodes0 := map toMachineNode (sd_nodes (dataOf e))) in *.
    set (links := map toMachineLink (sd_links (dataOf e))) in *.
    destruct (clusterNodes_ok sh
                (settle embed nodes0 (simLinksOf nodes0 links cs))
                links 1 splitCs attempts (le_n 1))
      as (nodes' & Hcluster & Hbelow).
    { now apply items_of_layout. }
    eexists. eexists. split; [reflexivity|].
    cbn [run_outcome]. fold nodes0. fold links.
    rewrite Hsim. cbn [bindO]. rewrite Hcluster. cbn [bindO].
    split; [reflexivity|].
    cbn [or_nodes or_stats assemble totalCrossFlow].
    assert (Hzero : forall n, In n nodes' -> mn_clusterId n = Some 0%Z).
    { apply clusteredBelow_one.
      eapply clusteredBelow_weaken; [|exact Hbelow]. apply Nat.le_min_l. }
    split; [exact Hzero|]. now apply (crossFlow_one_cluster _ _ 0%Z).
  - intros Hone run r Heq. injection Heq as <-. cbn [run_outcome].
    destruct (gaSearch rnd _ _ params attempts) as [bestResult|err] eqn:Hs;
      cbn [bindO]; [|intro; discriminate].
    intro Hout.
    apply (gaSearch_candidate (geneInRange 1)) in Hs.
    + destruct (gaAssemble_genes (geneInRange 1) _ _ _ _ Hs Hout) as [_ Hall].
      assert (Hzero : forall n, In n (or_nodes r) -> mn_clusterId n = Some 0%Z).
      { intros n Hn. destruct (Hall n Hn) as (c & -> & Hc).
        unfold inRange in Hc. f_equal. lia. }
      split; [exact Hzero|].
      rewrite (ga_crossFlow _ _ _ _ Hnd Hout).
      now apply (crossFlowSpec_one_cluster _ _ 0%Z).
    + intro c. rewrite Hone. eexists. split; [reflexivity|].
      now apply randomBelow_inRange.
Qed.

(** An instance: the plate chain in one cluster. *)
Lemma one_cluster_has_no_cross_flow_witness :
  exists d,
    calculateRequirements 3 plateCatalog plateTargets = Some d
    /\ pipeFreeIds plateCatalog plateTargets = true
    /\ itemsOf d <> []
    /\ exists run r,
         optimizeLayout 3 sampleEmbedding identityShuffler plateCatalog
           plateTargets 1 [] [] 2 = Some run
         /\ run_outcome run = Resolved r
         /\ (forall n, In n (or_nodes r) -> mn_clusterId n = Some 0%Z)
         /\ totalCrossFlow (or_stats r) = 0%Qc.
Proof.
  eexists. split; [computed|]. split; [reflexivity|].
  split; [vm_compute; discriminate|].
  destruct (one_cluster_has_no_cross_flow 3 sampleEmbedding identityShuffler
              sampleRandom plateCatalog plateTargets [] [] sampleParams 2 _
              ltac:(computed)) as [Hlayout _].
  apply Hlayout; [reflexivity|]. vm_compute. discriminate.
Defined.

Lemma sumQc_nonneg l : (forall v, In v l -> (0 <= v)%Qc) -> (0 <= sumQc l)%Qc.
Proof.
  induction l as [|v l IH]; intro H; simpl.
  - apply Qcle_refl.
  - rewrite <- (Qcplus_0_l 0). apply Qcplus_le_compat.
    + apply H. now left.
    + apply IH. intros w Hw. apply H. now right.
Qed.

Lemma sumQc_filter_le {A : Type} (p : A -> bool) (v : A -> Qc) l :
  (forall x, In x l -> (0 <= v x)%Qc) ->
  (sumQc (map v (filter p l)) <= sumQc (map v l))%Qc.
Proof.
  induction l as [|x l IH]; intro H; simpl.
  - apply Qcle_refl.
  - assert (IH' : (sumQc (map v (filter p l)) <= sumQc (map v l))%Qc).
    { apply IH. intros y Hy. apply H. now right. }
    destruct (p x); simpl.
    + apply Qcplus_le_compat; [apply Qcle_refl | exact IH'].
    + rewrite <- (Qcplus_0_l (sumQc (map v (filter p l)))).
      apply Qcplus_le_compat; [apply H; now left | exact IH'].
Qed.

Lemma crossFlowSpec_bounds nodes links :
  (forall l, In l links -> (0 <= ml_value l)%Qc) ->
  (0 <= crossFlowSpec nodes links)%Qc
  /\ (crossFlowSpec nodes links <= sumQc (map ml_value links))%Qc.
Proof.
  intro H. unfold crossFlowSpec. split.
  - apply sumQc_nonneg. intros v Hv. apply in_map_iff in Hv.
    destruct Hv as (l & <- & Hl). apply filter_In in Hl. now apply H.
  - now apply sumQc_filter_le.
Qed.

Lemma positive_links fuel b targets e :
  positiveRates b -> positiveTargets targets ->
  resolveTargets fuel (initEnv b targets) = Some e ->
  forall l, In l (map toMachineLink (sd_links (dataOf e))) ->
    (0 <= ml_value l)%Qc.
Proof.
  intros Hrates Htargets Hrun l Hl.
  assert (He : env_buildings e = b /\ positiveEnv e).
  { unfold resolveTargets in Hrun. simpl in Hrun. revert Hrun.
    apply (forEachM_inv (fun t => env_buildings t = b /\ positiveEnv t)).
    - split; [reflexivity|]. split; intros k v [].
    - intros t s s' Ht [Hb Hs] Hstep.
      pose proof (traverse_buildings _ _ _ _ _ Hstep) as Hb'.
      rewrite Hb in Hb'. split; [exact Hb'|].
      apply traverse_positive in Hstep; [exact Hstep | | | exact Hs].
      + now rewrite Hb.
      + now apply Htargets. }
  destruct He as [_ [_ Hlinks]].
  apply in_map_iff in Hl. destruct Hl as (sl & <- & Hsl).
  simpl in Hsl. apply in_map_iff in Hsl. destruct Hsl as ([k v] & <- & Hkv).
  simpl. apply Qclt_le_weak. now apply (Hlinks k).
Qed.

(** X28: with positive recipe rates and target amounts, the cross-cluster
    flow that either optimizer reports is never negative and never more
    than the sum of the values of all links of the result. *)
Theorem cross_flow_is_between_zero_and_the_total_flow fuel embed sh rnd b
  targets k splitCs cs params attempts :
  positiveRates b ->
  positiveTargets targets ->
  (forall run r,
      optimizeLayout fuel embed sh b targets k splitCs cs attempts = Some run ->
      run_outcome run = Resolved r ->
      (0 <= totalCrossFlow (or_stats r))%Qc
      /\ (totalCrossFlow (or_stats r) <= sumQc (map ml_value (or_links r)))%Qc)
  /\ (forall run r,
        runGeneticOptimization fuel rnd b targets params attempts = Some run ->
        run_outcome run = Resolved r ->
        (0 <= totalCrossFlow (or_stats r))%Qc
        /\ (totalCrossFlow (or_stats r) <= sumQc (map ml_value (or_links r)))%Qc).
Proof.
  intros Hrates Htargets.
  unfold optimizeLayout, runGeneticOptimization.
  destruct (resolveTargets fuel (initEnv b targets)) as [e|] eqn:Hrun;
    [|split; intros; discriminate].
  pose proof (machineNodes_ids e (resolveTargets_nodesOk _ _ _ _ Hrun)) as Hnd.
  pose proof (positive_links _ _ _ _ Hrates Htargets Hrun) as Hpos.
  split; intros run r Heq; injection Heq as <-; cbn [run_outcome]; intro Hout.
  - apply simulate_settled in Hout.
    rewrite (layout_crossFlow _ _ _ _ _ _ _ _ _ Hnd
               (toMachineNode_unclustered _) Hout).
    apply crossFlowSpec_bounds.
    destruct (layout_sameMachine _ _ _ _ _ _ _ _ _ Hout) as (_ & -> & _).
    exact Hpos.
  - destruct (gaSearch rnd _ _ params attempts) as [bestResult|err];
      cbn [bindO] in Hout; [|discriminate].
    rewrite (ga_crossFlow _ _ _ _ Hnd Hout).
    apply crossFlowSpec_bounds.
    destruct (ga_sameMachine _ _ _ _ Hout) as (_ & -> & _).
    exact Hpos.
Qed.

(** An instance: both optimizers on the plate chain. *)
Lemma cross_flow_is_between_zero_and_the_total_flow_witness :
  positiveRates plateCatalog
  /\ positiveTargets plateTargets
  /\ (exists run r,
        optimizeLayout 3 sampleEmbedding identityShuffler plateCatalog
          plateTargets 2 [] [] 2 = Some run
        /\ run_outcome run = Resolved r
        /\ (0 <= totalCrossFlow (or_stats r))%Qc
        /\ (totalCrossFlow (or_stats r) <= sumQc (map ml_value (or_links r)))%Qc)
  /\ (exists run r,
        runGeneticOptimization 3 sampleRandom plateCatalog plateTargets
          sampleParams 2 = Some run
        /\ run_outcome run = Resolved r
        /\ (0 <= totalCrossFlow (or_stats r))%Qc
        /\ (totalCrossFlow (or_stats r) <= sumQc (map ml_value (or_links r)))%Qc).
Proof.
  assert (Hr : positiveRates plateCatalog)
    by (apply positiveRatesCheck_sound; computed).
  assert (Ht : positiveTargets plateTargets)
    by (apply positiveTargetsCheck_sound; computed).
  split; [exact Hr|]. split; [exact Ht|].
  destruct (cross_flow_is_between_zero_and_the_total_flow 3 sampleEmbedding
              identityShuffler sampleRandom plateCatalog plateTargets 2 [] []
              sampleParams 2 Hr Ht) as [Hk Hg].
  split.
  - eexists. eexists. split; [computed|]. split; [computed|].
    eapply Hk; computed.
  - eexists. eexists. split; [computed|]. split; [computed|].
    eapply Hg; computed.
Defined.

(** ** Where a converged pass ends *)

Lemma kmeansLoop_run items k :
  forall rounds centroids prev,
    kmeansLoop rounds items k centroids prev
    = (x <- kmeansRun rounds items k centroids prev ;; Resolved (fst (fst x))).
Proof.
  induction rounds as [|rounds IH]; intros centroids prev; [reflexivity|].
  cbn [kmeansLoop kmeansRun].
  destruct (kmeansRound items k centroids prev) as [r|]; [|reflexivity].
  cbn [bindO]. destruct (r_hasChanged r); [apply IH | reflexivity].
Qed.

Lemma kmeansRound_means items k centroids prev r :
  kmeansRound items k centroids prev = Resolved r ->
  forall j, j < k ->
    nth_error (r_centroids r) j = Some (recomputed centroids items j).
Proof.
  unfold kmeansRound. intros H.
  destruct (forEachO (assignNode centroids prev) items _) as [st|] eqn:E;
    simpl in H; [|discriminate].
  injection H as <-. simpl. intros j Hj.
  pose proof (assign_sums centroids prev items _ _ E j (mkClusterSum 0%Qc 0%Qc 0))
    as Hsum.
  simpl in Hsum. rewrite (nth_error_repeat_lt _ k j Hj) in Hsum.
  specialize (Hsum eq_refl).
  rewrite nth_error_map, Hsum. simpl. f_equal.
  unfold recomputed, newCentroid. simpl.
  destruct (membersOf centroids items j) as [|m ms]; simpl; [reflexivity|].
  unfold meanPosition. simpl. f_equal; f_equal; ring.
Qed.

Lemma kmeansRound_assigned items k centroids prev r :
  NoDup (map mn_id items) ->
  kmeansRound items k centroids prev = Resolved r ->
  assignedBy items centroids (r_assignment r).
Proof.
  unfold kmeansRound. intros Hnd H.
  destruct (forEachO (assignNode centroids prev) items _) as [st|] eqn:E;
    simpl in H; [|discriminate].
  injection H as <-. simpl. intros n Hn.
  now apply (proj1 (assign_clusters centroids prev items _ _ E Hnd)).
Qed.

Lemma kmeansRound_unchanged items k centroids prev r :
  kmeansRound items k centroids prev = Resolved r ->
  r_hasChanged r = false ->
  assignedBy items centroids prev.
Proof.
  unfold kmeansRound. intros H Hstable.
  destruct (forEachO (assignNode centroids prev) items _) as [st|] eqn:E;
    simpl in H; [|discriminate].
  injection H as <-. simpl in Hstable.
  rewrite (assign_hasChanged _ _ _ _ _ E) in Hstable. simpl in Hstable.
  intros n Hn.
  destruct (existsb (moves centroids prev) items) eqn:Hex; [discriminate|].
  assert (Hm : moves centroids prev n = false).
  { destruct (moves centroids prev n) eqn:Hmv; [|reflexivity].
    rewrite <- Hex. symmetry. apply existsb_exists. now exists n. }
  unfold moves in Hm. apply negb_false_iff in Hm.
  now apply sameCluster_Some in Hm.
Qed.

Lemma membersOf_agree items c1 c2 j :
  (forall n, In n items -> nearest c1 n = nearest c2 n) ->
  membersOf c1 items j = membersOf c2 items j.
Proof.
  intro H. unfold membersOf. apply filter_ext_in. intros n Hn.
  now rewrite (H n Hn).
Qed.

Lemma recomputed_agree items c1 c2 j :
  (forall n, In n items -> nearest c1 n = nearest c2 n) ->
  recomputed c1 items j = recomputed c2 items j.
Proof.
  intro H. unfold recomputed. now rewrite (membersOf_agree items c1 c2 j H).
Qed.

Lemma kmeansRun_fixedPoint items k :
  NoDup (map mn_id items) ->
  forall rounds centroids prev a c,
    (exists c0, assignedBy items c0 prev
                /\ forall j, j < k ->
                     nth_error centroids j = Some (recomputed c0 items j)) ->
    kmeansRun rounds items k centroids prev = Resolved (a, c, true) ->
    assignedBy items c a /\ fixedPoint items k c.
Proof.
  intros Hnd. induction rounds as [|rounds IH];
    intros centroids prev a c Hprev H; [discriminate|].
  cbn [kmeansRun] in H.
  destruct (kmeansRound items k centroids prev) as [r|] eqn:Hr; [|discriminate].
  cbn [bindO] in H.
  pose proof (kmeansRound_assigned _ _ _ _ _ Hnd Hr) as Hassigned.
  destruct (r_hasChanged r) eqn:Hch.
  - apply (IH _ _ _ _) in H; [exact H|].
    exists centroids. split; [exact Hassigned|].
    now apply (kmeansRound_means _ _ _ _ _ Hr).
  - injection H as <- <-. split; [exact Hassigned|].
    pose proof (kmeansRound_unchanged _ _ _ _ _ Hr Hch) as Hsame.
    destruct Hprev as (c0 & Hc0 & Hmeans).
    intros j Hj. rewrite (Hmeans j Hj). f_equal.
    apply recomputed_agree. intros n Hn.
    pose proof (Hc0 n Hn) as H1. pose proof (Hsame n Hn) as H2. congruence.
Qed.

(** X29: a pass of k-means that stops because a round moved no item ends
    at a fixed point. For items with pairwise distinct ids, if the inner
    loop of a pass ends on a round that moved no item (and not because its
    50 rounds were used up), the assignment it returns gives every item the
    centroid nearest to it, and those centroids are left as they are by a
    further round: each is the mean position of the items nearest to it,
    or the origin if it has none. *)
Theorem converged_pass_ends_at_a_fixed_point sh items k pass a c :
  NoDup (map mn_id items) ->
  items <> [] ->
  kmeansRun 50 items k
    (map (fun n => mkPoint (coord (mn_x n)) (coord (mn_y n)))
       (firstn k (shuffle sh pass items)))
    JSMap.empty
  = Resolved (a, c, true) ->
  passAssignment sh items k pass = Resolved a
  /\ assignedBy items c a
  /\ fixedPoint items k c.
Proof.
  intros Hnd Hne H. split.
  - unfold passAssignment. rewrite kmeansLoop_run, H. reflexivity.
  - set (c0 := map (fun n => mkPoint (coord (mn_x n)) (coord (mn_y n)))
                 (firstn k (shuffle sh pass items))) in *.
    change (kmeansRun 50 items k c0 JSMap.empty)
      with (r <- kmeansRound items k c0 JSMap.empty ;;
            if r_hasChanged r
            then kmeansRun 49 items k (r_centroids r) (r_assignment r)
            else Resolved (r_assignment r, c0, true)) in H.
    destruct (kmeansRound items k c0 JSMap.empty) as [r|] eqn:Hr;
      [|discriminate].
    cbn [bindO] in H.
    destruct (r_hasChanged r) eqn:Hch.
    + apply (kmeansRun_fixedPoint items k Hnd 49 (r_centroids r)
               (r_assignment r) a c); [|exact H].
      exists c0. split.
      * now apply (kmeansRound_assigned _ _ _ _ _ Hnd Hr).
      * now apply (kmeansRound_means _ _ _ _ _ Hr).
    + exfalso. pose proof (kmeansRound_unchanged _ _ _ _ _ Hr Hch) as Hsame.
      destruct items as [|n items']; [now apply Hne|].
      specialize (Hsame n (or_introl eq_refl)). discriminate.
Qed.

(** An instance: the pass over the seven items on a line converges. *)
Lemma converged_pass_ends_at_a_fixed_point_witness :
  exists a c,
    NoDup (map mn_id lineItems)
    /\ lineItems <> []
    /\ kmeansRun 50 lineItems 3
         (map (fun n => mkPoint (coord (mn_x n)) (coord (mn_y n)))
            (firstn 3 (shuffle identityShuffler 0 lineItems)))
         JSMap.empty
       = Resolved (a, c, true)
    /\ passAssignment identityShuffler lineItems 3 0 = Resolved a
    /\ assignedBy lineItems c a
    /\ fixedPoint lineItems 3 c.
Proof.
  assert (Hnd : NoDup (map mn_id lineItems)).
  { apply (NoDup_count_occ' string_dec). intros x Hx. revert x Hx.
    apply Forall_forall. vm_compute. repeat constructor. }
  assert (Hne : lineItems <> []) by (vm_compute; discriminate).
  eexists. eexists. split; [exact Hnd|]. split; [exact Hne|].
  split; [computed|].
  apply (converged_pass_ends_at_a_fixed_point identityShuffler lineItems 3 0
           _ _ Hnd Hne).
  computed.
Defined.

(** ** Which recipe the lookup finds *)

Lemma findInRecipes_None rs x :
  findInRecipes rs x = None <-> forall r, In r rs -> ir_id (output r) <> x.
Proof.
  induction rs as [|r rs IH]; simpl.
  - split; [intros _ r [] | reflexivity].
  - destruct (String.eqb_spec (ir_id (output r)) x) as [Heq | Hne].
    + split; [discriminate|]. intro H. exfalso. now apply (H r (or_introl eq_refl)).
    + rewrite IH. split.
      * intros H r' [<- | Hr']; [exact Hne | now apply H].
      * intros H r' Hr'. apply H. now right.
Qed.

Lemma findInRecipes_first rs x r :
  findInRecipes rs x = Some r ->
  exists before after,
    rs = before ++ r :: after
    /\ ir_id (output r) = x
    /\ forall r', In r' before -> ir_id (output r') <> x.
Proof.
  induction rs as [|r0 rs IH]; simpl; [discriminate|].
  destruct (String.eqb_spec (ir_id (output r0)) x) as [Heq | Hne].
  - intro H. injection H as <-. exists [], rs.
    split; [reflexivity|]. split; [exact Heq | intros r' []].
  - intro H. destruct (IH H) as (before & after & -> & Hx & Hbefore).
    exists (r0 :: before), after. split; [reflexivity|]. split; [exact Hx|].
    intros r' [<- | Hr']; [exact Hne | now apply Hbefore].
Qed.

(** X30: [findRecipe] is a first-match lookup in catalog order. It finds
    nothing exactly when no recipe of the catalog produces the item.
    Otherwise it answers the id and name of the first building that holds
    a recipe for the item, and the first such recipe of that building: no
    recipe of an earlier building produces the item, and none of the
    recipes before it in its own building. *)
Theorem findRecipe_is_the_first_match b x :
  (findRecipe b x = None <-> ~ In x (outputs b))
  /\ forall r,
       findRecipe b x = Some r ->
       exists earlier building later rs before after,
         b = earlier ++ building :: later
         /\ recipes building = Some rs
         /\ rs = before ++ recipe r :: after
         /\ buildingId r = b_id building
         /\ buildingName r = b_name building
         /\ ir_id (output (recipe r)) = x
         /\ (forall r', In r' before -> ir_id (output r') <> x)
         /\ (forall r', In r' (allRecipes earlier) -> ir_id (output r') <> x).
Proof.
  split.
  - unfold outputs. induction b as [|bd b IH]; simpl.
    + split; [intros _ [] | reflexivity].
    + rewrite map_app, in_app_iff.
      destruct (recipes bd) as [rs|].
      * destruct (findInRecipes rs x) as [r|] eqn:Hf.
        -- split; [discriminate|]. intro H. exfalso. apply H. left.
           apply findInRecipes_Some in Hf. destruct Hf as [Hin <-].
           exact (in_map (fun r0 => ir_id (output r0)) rs r Hin).
        -- rewrite IH. split.
           ++ intros Hb [Hrs | Hb']; [|contradiction].
              apply in_map_iff in Hrs. destruct Hrs as (r & Hid & Hin).
              exact (proj1 (findInRecipes_None rs x) Hf r Hin Hid).
           ++ intros H Hb. apply H. now right.
      * rewrite IH. simpl. tauto.
  - induction b as [|bd b IH]; intros r H; simpl in H; [discriminate|].
    destruct (recipes bd) as [rs|] eqn:Hrs.
    + destruct (findInRecipes rs x) as [r0|] eqn:Hf.
      * injection H as <-. simpl.
        destruct (findInRecipes_first _ _ _ Hf) as (before & after & Heq & Hx & Hb).
        exists [], bd, b, rs, before, after.
        repeat split; try assumption; try reflexivity. intros r' [].
      * destruct (IH r H)
          as (earlier & building & later & rs' & before & after
              & -> & Hrs' & Heq & Hid & Hname & Hx & Hb & He).
        exists (bd :: earlier), building, later, rs', before, after.
        repeat split; try assumption; try reflexivity.
        intros r' Hr'. simpl in Hr'. rewrite Hrs in Hr'.
        apply in_app_or in Hr'. destruct Hr' as [Hr' | Hr'].
        -- exact (proj1 (findInRecipes_None rs x) Hf r' Hr').
        -- now apply He.
    + destruct (IH r H)
        as (earlier & building & later & rs' & before & after
            & -> & Hrs' & Heq & Hid & Hname & Hx & Hb & He).
      exists (bd :: earlier), building, later, rs', before, after.
      repeat split; try assumption; try reflexivity.
      intros r' Hr'. simpl in Hr'. rewrite Hrs in Hr'. simpl in Hr'.
      now apply He.
Qed.
